(** * qrpc: a shallow embedding of the server core

    The development follows the two Go sources of the repository:
    [server.go] (ServeMux, Server, tcpKeepAliveListener) and the
    connection file (serveconn: serve, handleRequestPanic, readFrames,
    writeFrames, Close).  Integers of the wire format are modelled as [Z]
    with their wrap-around written out, Go maps as [gmap], slices as
    lists, [nil]-able values as [option], and blocking or panicking calls
    as explicit result constructors. *)

From Stdlib Require Import ZArith List Bool Lia.
From stdpp Require Import base option list gmap strings.

Open Scope Z_scope.

(** ** Frames and flags *)

Module Frame.

(** Modelled from the spec: the frame definitions (type [PacketFlag] and
    its constants) are not part of the two source files; section 6 of the
    specification gives the flag bits
    [0x1 Stream], [0x2 StreamEnd], [0x4 StreamRst], [0x8 NonBlock],
    [0x10 Push]. *)
Definition StreamFlag : Z := 1.
Definition StreamEndFlag : Z := 2.
Definition StreamRstFlag : Z := 4.
Definition NonBlockFlag : Z := 8.
Definition PushFlag : Z := 16.

(** Modelled from the spec: the flag predicates used by the sources
    ([IsRst], [IsPush], [IsNonBlock]) test the corresponding bit. *)
Definition IsRst (flags : Z) : bool := negb (Z.land flags StreamRstFlag =? 0).
Definition IsPush (flags : Z) : bool := negb (Z.land flags PushFlag =? 0).
Definition IsNonBlock (flags : Z) : bool := negb (Z.land flags NonBlockFlag =? 0).

(** Modelled from the spec: a stream carries [outClosed] and [rstSent];
    [IsSelfClosed() <-> outClosed || rstSent] (section 3). *)
Record Stream := mkStream { outClosed : bool; rstSent : bool }.

Definition IsSelfClosed (s : Stream) : bool := outClosed s || rstSent s.

(** Modelled from the spec: the type [RequestFrame] is declared outside
    the two source files.  Section 3 gives a frame [requestID : u64],
    [cmd : u32], [flags : u8] and a payload; the sources read
    [RequestID], [Cmd], [Flags] and [Stream], the stream the frame
    belongs to, of which the state is kept here. *)
Record RequestFrame := mkFrame {
  RequestID : Z;
  Cmd : Z;
  Flags : Z;
  Payload : list Z;
  FStream : Stream
}.

End Frame.

Import Frame.

(** Values a goroutine can panic with in the modelled code. *)
Inductive PanicValue :=
| PanicNilHandler                      (* "qrpc: nil handler" *)
| PanicMultipleRegistrations (cmd : Z) (* "qrpc: multiple registrations for ..." *)
| PanicEmptyID                         (* "empty id not allowed" *)
| PanicIndexOutOfRange (i len : nat)   (* Go runtime error on a slice index *)
| PanicCloseOfClosedChannel            (* Go runtime error *)
| PanicNilDereference                  (* Go runtime error *)
| PanicUser (msg : string).            (* raised by a user handler *)

(** Modelled from the spec: the writer behind the [FrameWriter]
    interface ([newFrameWriter]) is not in the source files.  Section 4.B
    makes it a short-lived handle bound to the connection's
    [writeFrameCh] that buffers one frame; every call of
    [newFrameWriter] allocates a new handle, and [fw_id] is the identity
    of that allocation. *)
Record FrameWriter := mkWriter { fw_id : nat }.

(** One frame as submitted through a writer handle (StartWrite,
    WriteBytes, EndWrite). *)
Record OutFrame := mkOut {
  o_requestID : Z;
  o_cmd : Z;
  o_flags : Z;
  o_payload : list Z
}.

(** What a user handler does when called: the frames it hands to the
    writer it was given, and whether it panics. *)
Record HandlerOutcome := mkOutcome {
  h_frames : list OutFrame;
  h_panic : option PanicValue
}.

Definition Handler : Type := FrameWriter -> RequestFrame -> HandlerOutcome.

(** ** ServeMux *)

Module Mux.

(** [sync.RWMutex]: one writer or any number of readers. *)
Record RWMutex := mkRW { writer_held : bool; readers : nat }.

Definition rw_free : RWMutex := mkRW false 0.

(** [Lock] succeeds only when nobody holds the mutex; otherwise the
    caller blocks ([None]). *)
Definition Lock (mu : RWMutex) : option RWMutex :=
  if writer_held mu then None
  else match readers mu with
       | O => Some (mkRW true 0)
       | S _ => None
       end.

Definition Unlock (mu : RWMutex) : RWMutex := mkRW false (readers mu).

(** [RLock] blocks only while a writer holds the mutex. *)
Definition RLock (mu : RWMutex) : option RWMutex :=
  if writer_held mu then None else Some (mkRW false (S (readers mu))).

Definition RUnlock (mu : RWMutex) : RWMutex :=
  mkRW (writer_held mu) (Nat.pred (readers mu)).

(** [m] is [None] for Go's nil map ([NewServeMux] returns
    [new(ServeMux)]). *)
Record ServeMux := mkMux {
  mu : RWMutex;
  m : option (gmap Z Handler)
}.

Definition NewServeMux : ServeMux := mkMux rw_free None.

(** Reading a nil map finds nothing. *)
Definition m_lookup (mux : ServeMux) (cmd : Z) : option Handler :=
  match m mux with
  | None => None
  | Some tbl => tbl !! cmd
  end.

Inductive HandleResult :=
| HandleBlocked
| HandlePanic (v : PanicValue) (mux' : ServeMux)
| HandleOk (mux' : ServeMux).

(** [func (mux *ServeMux) Handle(cmd Cmd, handler Handler)].  The
    deferred [Unlock] runs on the panicking paths too. *)
Definition Handle (mux : ServeMux) (cmd : Z) (handler : option Handler)
  : HandleResult :=
  match Lock (mu mux) with
  | None => HandleBlocked
  | Some mu1 =>
      match handler with
      | None => HandlePanic PanicNilHandler (mkMux (Unlock mu1) (m mux))
      | Some h =>
          match m_lookup mux cmd with
          | Some _ =>
              HandlePanic (PanicMultipleRegistrations cmd)
                          (mkMux (Unlock mu1) (m mux))
          | None =>
              let tbl := match m mux with
                         | None => ∅
                         | Some tbl => tbl
                         end in
              HandleOk (mkMux (Unlock mu1) (Some (<[cmd := h]> tbl)))
          end
      end
  end.

(** [HandleFunc] wraps the function in [HandlerFunc], which is never
    nil as an interface value. *)
Definition HandleFunc (mux : ServeMux) (cmd : Z) (handler : Handler)
  : HandleResult :=
  Handle mux cmd (Some handler).

(** The result of a dispatch: the mux afterwards, the handler call that
    was made (if any) with its outcome, and the frames the mux itself
    wrote. *)
Record ServeResult := mkServed {
  s_mux : ServeMux;
  s_called : option HandlerOutcome;
  s_written : list OutFrame
}.

(** [func (mux *ServeMux) ServeQRPC(w FrameWriter, r *RequestFrame)].
    [None] when [RLock] blocks. *)
Definition ServeQRPC (mux : ServeMux) (w : FrameWriter) (r : RequestFrame)
  : option ServeResult :=
  match RLock (mu mux) with
  | None => None
  | Some mu1 =>
      match m_lookup mux (Cmd r) with
      | None =>
          (* TODO error response *)
          Some (mkServed (mkMux mu1 (m mux)) None [])
      | Some h =>
          let mu2 := RUnlock mu1 in
          Some (mkServed (mkMux mu2 (m mux)) (Some (h w r)) [])
      end
  end.

(** A call made on the mux by the program: a registration or a
    dispatch. *)
Inductive MuxCall :=
| CallHandle (cmd : Z) (handler : option Handler)
| CallServe (w : FrameWriter) (r : RequestFrame).

(** The mux after the call; a call that blocks or panics leaves what
    it had done until then. *)
Definition mux_after (c : MuxCall) (mux : ServeMux) : ServeMux :=
  match c with
  | CallHandle cmd handler =>
      match Handle mux cmd handler with
      | HandleBlocked => mux
      | HandlePanic _ mux' | HandleOk mux' => mux'
      end
  | CallServe w r =>
      match ServeQRPC mux w r with
      | None => mux
      | Some res => s_mux res
      end
  end.

Definition mux_history (calls : list MuxCall) (mux : ServeMux) : ServeMux :=
  fold_left (fun acc c => mux_after c acc) calls mux.

Definition is_registration (c : MuxCall) : bool :=
  match c with
  | CallHandle _ _ => true
  | CallServe _ _ => false
  end.

End Mux.

(** ** Errors, sockets and listeners *)

Inductive Error :=
| ErrServerClosed            (* "qrpc: Server closed" *)
| ErrInvalidPacket           (* "invalid packet" *)
| ErrRstNonExistingStream
| ErrWriteAfterCloseSelf
| ErrNet (code : nat).       (* an error reported by the network layer *)

(** [time.Duration] counts nanoseconds. *)
Definition Millisecond : Z := 1000000.
Definition Second : Z := 1000 * Millisecond.
Definition Minute : Z := 60 * Second.

Module Net.

(** The part of a TCP connection ([net.Conn], usually [*net.TCPConn])
    the sources act on.  What [Close] and [Write] report is decided by
    the network layer: [so_close_result k] is the answer to the call
    made after [k] earlier ones.  [so_close_calls] counts the calls. *)
Record TCPConn := mkTCP {
  so_id : nat;
  so_keepAlive : bool;
  so_keepAlivePeriod : Z;
  so_close_result : nat -> option Error;
  so_close_calls : nat
}.

Definition SetKeepAlive (b : bool) (tc : TCPConn) : TCPConn :=
  mkTCP (so_id tc) b (so_keepAlivePeriod tc) (so_close_result tc)
        (so_close_calls tc).

Definition SetKeepAlivePeriod (d : Z) (tc : TCPConn) : TCPConn :=
  mkTCP (so_id tc) (so_keepAlive tc) d (so_close_result tc)
        (so_close_calls tc).

(** [rwc.Close()]: the call is counted and answered by the socket. *)
Definition Close (tc : TCPConn) : TCPConn * option Error :=
  (mkTCP (so_id tc) (so_keepAlive tc) (so_keepAlivePeriod tc)
         (so_close_result tc) (S (so_close_calls tc)),
   so_close_result tc (so_close_calls tc)).

(** A socket that behaves like Go's TCP connection on [Close]: the
    first call succeeds, later ones report an error. *)
Definition close_once_result (k : nat) : option Error :=
  match k with O => None | S _ => Some (ErrNet 0) end.

(** What one call of [AcceptTCP] on the listener yields. *)
Inductive AcceptResult :=
| Accepted (tc : TCPConn)
| AcceptTimeout              (* *net.OpError with Timeout() *)
| AcceptTemporary (e : Error) (* net.Error with Temporary() *)
| AcceptFailed (e : Error).

(** A listener ([*net.TCPListener]) as a map key with the answer its
    [Close] gives. *)
Record Listener := mkListener {
  ln_id : nat;
  ln_close_result : option Error
}.

(** [func (ln tcpKeepAliveListener) Accept() (net.Conn, error)], given
    what the embedded listener's [AcceptTCP] returns. *)
Definition tcpKeepAliveListener_Accept (r : TCPConn + Error)
  : TCPConn + Error :=
  match r with
  | inr err => inr err
  | inl tc => inl (SetKeepAlivePeriod (3 * Minute) (SetKeepAlive true tc))
  end.

End Net.

(** ** Server and connection state *)

Module Srv.

Import Net.

(** Modelled from the spec: the type [ServerBinding] is declared outside
    the two source files; section 6 lists its fields
    [{addr, handler, defaultReadTimeoutSecs, defaultWriteTimeoutSecs,
    maxFrameSize, latencyMetric (optional)}]. *)
Record ServerBinding := mkBinding {
  Addr : string;
  BHandler : Handler;
  DefaultReadTimeout : Z;
  DefaultWriteTimeout : Z;
  MaxFrameSize : Z;
  LatencyMetric : option nat   (* nil or a metric sink *)
}.

(** [serveconn]: the fields the registry code and [Close] read or
    write.  Pointers to connections are natural numbers into the store
    [conns] of the world below.  [ctx_cancel_calls] counts the calls
    of [cancelCtx] and [notified] logs the [closeNotify] callbacks that
    ran, latest first. *)
Record serveconn := mkConn {
  sc_idx : nat;
  sc_id : string;
  sc_untrack : bool;          (* untrack uint32, 0 or 1 *)
  sc_untrackedCh_closed : bool;
  sc_closeNotify : list nat;  (* the registered callbacks, by name *)
  sc_rwc : TCPConn;
  ctx_cancel_calls : nat;
  notified : list nat
}.

Definition set_id (id : string) (c : serveconn) : serveconn :=
  mkConn (sc_idx c) id (sc_untrack c) (sc_untrackedCh_closed c)
         (sc_closeNotify c) (sc_rwc c) (ctx_cancel_calls c) (notified c).

Definition set_untracked (c : serveconn) : serveconn :=
  mkConn (sc_idx c) (sc_id c) true true
         (sc_closeNotify c) (sc_rwc c) (ctx_cancel_calls c) (notified c).

Definition set_rwc (tc : TCPConn) (c : serveconn) : serveconn :=
  mkConn (sc_idx c) (sc_id c) (sc_untrack c) (sc_untrackedCh_closed c)
         (sc_closeNotify c) tc (ctx_cancel_calls c) (notified c).

Definition cancel (c : serveconn) : serveconn :=
  mkConn (sc_idx c) (sc_id c) (sc_untrack c) (sc_untrackedCh_closed c)
         (sc_closeNotify c) (sc_rwc c) (S (ctx_cancel_calls c)) (notified c).

Definition notify (f : nat) (c : serveconn) : serveconn :=
  mkConn (sc_idx c) (sc_id c) (sc_untrack c) (sc_untrackedCh_closed c)
         (sc_closeNotify c) (sc_rwc c) (ctx_cancel_calls c) (f :: notified c).

(** [func (sc *serveconn) NotifyWhenClose(f func())]. *)
Definition NotifyWhenClose (f : nat) (c : serveconn) : serveconn :=
  mkConn (sc_idx c) (sc_id c) (sc_untrack c) (sc_untrackedCh_closed c)
         (sc_closeNotify c ++ [f]) (sc_rwc c) (ctx_cancel_calls c)
         (notified c).

(** [Server].  [listeners] lists the keys of the Go map in the order a
    [range] visits them; [mu_locked] is the state of [mu]. *)
Record Server := mkServer {
  bindings : list ServerBinding;
  mu_locked : bool;
  listeners : list Listener;
  doneChan_closed : bool;
  id2Conn : list (gmap string nat);
  activeConn : list (gset nat);
  pushID : Z
}.

(** The server together with the connections it points to;
    [next_alloc] names the next object that [&serveconn{...}] or
    [newFrameWriter] allocates. *)
Record World := mkWorld {
  srv : Server;
  conns : gmap nat serveconn;
  next_alloc : nat
}.

Definition with_mu (b : bool) (s : Server) : Server :=
  mkServer (bindings s) b (listeners s) (doneChan_closed s) (id2Conn s)
           (activeConn s) (pushID s).

Definition with_listeners (l : list Listener) (s : Server) : Server :=
  mkServer (bindings s) (mu_locked s) l (doneChan_closed s) (id2Conn s)
           (activeConn s) (pushID s).

Definition with_done (b : bool) (s : Server) : Server :=
  mkServer (bindings s) (mu_locked s) (listeners s) b (id2Conn s)
           (activeConn s) (pushID s).

Definition with_id2Conn (l : list (gmap string nat)) (s : Server) : Server :=
  mkServer (bindings s) (mu_locked s) (listeners s) (doneChan_closed s) l
           (activeConn s) (pushID s).

Definition with_activeConn (l : list (gset nat)) (s : Server) : Server :=
  mkServer (bindings s) (mu_locked s) (listeners s) (doneChan_closed s)
           (id2Conn s) l (pushID s).

Definition with_pushID (n : Z) (s : Server) : Server :=
  mkServer (bindings s) (mu_locked s) (listeners s) (doneChan_closed s)
           (id2Conn s) (activeConn s) n.

(** [func NewServer(bindings []ServerBinding) *Server]. *)
Definition NewServer (bs : list ServerBinding) : Server :=
  mkServer bs false [] false [∅; ∅] (replicate (length bs) ∅) 0.

(** The outcome of a call that may block on a lock or channel, panic,
    or return. *)
Inductive Res (A : Type) :=
| Blocked
| Panicked (v : PanicValue) (w : World)
| Returned (a : A) (w : World).
Arguments Blocked {A}.
Arguments Panicked {A} v w.
Arguments Returned {A} a w.

Definition with_srv (s : Server) (w : World) : World :=
  mkWorld s (conns w) (next_alloc w).

Definition with_conn (p : nat) (c : serveconn) (w : World) : World :=
  mkWorld (srv w) (<[p := c]> (conns w)) (next_alloc w).

(** [srv.mu.Unlock()] when the function took the lock itself. *)
Definition release (inLock : bool) (w : World) : World :=
  if inLock then w else with_srv (with_mu false (srv w)) w.

(** [func (srv *Server) trackListener(ln net.Listener, add bool)],
    once the lock is held. *)
Definition trackListener (ln : Listener) (add : bool) (s : Server) : Server :=
  let others := filter (fun l => ln_id l ≠ ln_id ln) (listeners s) in
  if add then
    (if decide (ln_id ln ∈ map ln_id (listeners s)) then s
     else with_listeners (listeners s ++ [ln]) s)
  else with_listeners others s.

(** [func (srv *Server) untrack(sc *serveconn, inLock bool)] of
    server.go: the removal from the two registries.  [p] is the pointer
    [sc].  Indexing a slice out of range panics; the deferred unlock
    runs then too. *)
Definition untrack (p : nat) (inLock : bool) (w : World) : Res unit :=
  match conns w !! p with
  | None => Panicked PanicNilDereference w
  | Some sc =>
      let idx := sc_idx sc in
      if negb inLock && mu_locked (srv w) then Blocked
      else
        let w0 := if inLock then w else with_srv (with_mu true (srv w)) w in
        let after_id :=
          if decide (sc_id sc = EmptyString) then inr (srv w0)
          else match id2Conn (srv w0) !! idx with
               | None => inl (PanicIndexOutOfRange idx (length (id2Conn (srv w0))))
               | Some tbl =>
                   inr (with_id2Conn
                          (<[idx := delete (sc_id sc) tbl]> (id2Conn (srv w0)))
                          (srv w0))
               end in
        match after_id with
        | inl v => Panicked v (release inLock w0)
        | inr s1 =>
            match activeConn s1 !! idx with
            | None =>
                Panicked (PanicIndexOutOfRange idx (length (activeConn s1)))
                         (release inLock (with_srv s1 w0))
            | Some act =>
                Returned tt
                  (release inLock
                     (with_srv
                        (with_activeConn (<[idx := act ∖ {[p]}]> (activeConn s1)) s1)
                        w0))
            end
        end
  end.

(** Modelled from the spec: the variant of [untrack] that [Close] calls,
    which reports [(firstCaller, readyChannel)], is not in the source
    files.  Following section 5 ("an atomic once-flag + broadcast
    channel") and the two fields [untrack] and [untrackedCh] that the
    serveconn struct declares for it, the first caller sets the flag,
    does the registry removal of [untrack] above and closes
    [untrackedCh]; later callers get [false].  The channel is read from
    the connection afterwards. *)
Definition untrack_once (p : nat) (inLock : bool) (w : World) : Res bool :=
  match conns w !! p with
  | None => Panicked PanicNilDereference w
  | Some sc =>
      if sc_untrack sc then Returned false w
      else
        match untrack p inLock w with
        | Blocked => Blocked
        | Panicked v w' =>
            Panicked v
              (with_conn p
                 (mkConn (sc_idx sc) (sc_id sc) true (sc_untrackedCh_closed sc)
                    (sc_closeNotify sc) (sc_rwc sc) (ctx_cancel_calls sc)
                    (notified sc)) w')
        | Returned _ w' => Returned true (with_conn p (set_untracked sc) w')
        end
  end.

(** [func (sc *serveconn) closeUntracked() error] on the connection's own
    state: close the socket; on an error return it; otherwise cancel the
    context and run the callbacks in order. *)
Definition closeUntracked (sc : serveconn) : serveconn * option Error :=
  let '(tc, err) := Net.Close (sc_rwc sc) in
  let sc1 := set_rwc tc sc in
  match err with
  | Some e => (sc1, Some e)
  | None =>
      (fold_left (fun c f => notify f c) (sc_closeNotify sc1) (cancel sc1),
       None)
  end.

(** [func (sc *serveconn) Close() error], run by one caller without
    interruption.  A caller that is not the first blocks on [<-ch] until
    the channel is closed. *)
Definition Close (p : nat) (w : World) : Res (option Error) :=
  match untrack_once p false w with
  | Blocked => Blocked
  | Panicked v w' => Panicked v w'
  | Returned ok w1 =>
      match conns w1 !! p with
      | None => Panicked PanicNilDereference w1
      | Some sc =>
          if negb ok && negb (sc_untrackedCh_closed sc) then Blocked
          else
            let '(sc', err) := closeUntracked sc in
            Returned err (with_conn p sc' w1)
      end
  end.

(** Modelled from the spec: [closeLocked], which [bindID] calls on the
    previous holder of an id, is not in the source files.  Section 4.E
    says the other connection is force-closed under the server lock and
    its teardown awaited: the holder is untracked with [inLock = true]
    and, when this caller is the first, torn down with
    [closeUntracked]; the result says whether the returned channel is
    closed. *)
Definition closeLocked (p : nat) (inLock : bool) (w : World) : Res bool :=
  match untrack_once p inLock w with
  | Blocked => Blocked
  | Panicked v w' => Panicked v w'
  | Returned ok w1 =>
      match conns w1 !! p with
      | None => Panicked PanicNilDereference w1
      | Some sc =>
          if ok then
            let '(sc', _) := closeUntracked sc in
            Returned (sc_untrackedCh_closed sc') (with_conn p sc' w1)
          else Returned (sc_untrackedCh_closed sc) w1
      end
  end.

Definition unlock (w : World) : World := with_srv (with_mu false (srv w)) w.

(** [func (srv *Server) bindID(sc *serveconn, id string)]. *)
Definition bindID (p : nat) (id : string) (w : World) : Res unit :=
  match conns w !! p with
  | None => Panicked PanicNilDereference w
  | Some sc =>
      let idx := sc_idx sc in
      if mu_locked (srv w) then Blocked
      else
        let w0 := with_srv (with_mu true (srv w)) w in
        match id2Conn (srv w0) !! idx with
        | None =>
            Panicked (PanicIndexOutOfRange idx (length (id2Conn (srv w0))))
                     (unlock w0)
        | Some tbl =>
            let install (w1 : World) : Res unit :=
              match id2Conn (srv w1) !! idx with
              | None =>
                  Panicked
                    (PanicIndexOutOfRange idx (length (id2Conn (srv w1))))
                    (unlock w1)
              | Some tbl1 =>
                  Returned tt
                    (unlock
                       (with_srv
                          (with_id2Conn
                             (<[idx := <[id := p]> tbl1]> (id2Conn (srv w1)))
                             (srv w1))
                          w1))
              end in
            match tbl !! id with
            | Some v =>
                if decide (v = p) then Returned tt (unlock w0)
                else
                  match closeLocked v true w0 with
                  | Blocked => Blocked
                  | Panicked pv w1 => Panicked pv (unlock w1)
                  | Returned ch_closed w1 =>
                      if ch_closed then install w1 else Blocked
                  end
            | None => install w0
            end
        end
  end.

(** [func (sc *serveconn) SetID(id string)]. *)
Definition SetID (p : nat) (id : string) (w : World) : Res unit :=
  if decide (id = EmptyString) then Panicked PanicEmptyID w
  else
    match conns w !! p with
    | None => Panicked PanicNilDereference w
    | Some sc => bindID p id (with_conn p (set_id id sc) w)
    end.

(** [func (sc *serveconn) GetID() string]. *)
Definition GetID (p : nat) (w : World) : option string :=
  sc_id <$> conns w !! p.

(** [func (srv *Server) newConn(rwc net.Conn, idx int) *serveconn]:
    the new connection is allocated, then stored in [activeConn[idx]]. *)
Definition newConn (rwc : TCPConn) (idx : nat) (w : World)
  : World * (PanicValue + nat) :=
  let p := next_alloc w in
  let c := mkConn idx EmptyString false false [] rwc 0 [] in
  let w1 := mkWorld (srv w) (<[p := c]> (conns w)) (S p) in
  match activeConn (srv w1) !! idx with
  | None =>
      (w1, inl (PanicIndexOutOfRange idx (length (activeConn (srv w1)))))
  | Some act =>
      (with_srv
         (with_activeConn (<[idx := {[p]} ∪ act]> (activeConn (srv w1)))
            (srv w1))
         w1,
       inr p)
  end.

(** [func (sc *serveconn) GetWriter() FrameWriter]: a new handle on
    every call. *)
Definition GetWriter (w : World) : FrameWriter * World :=
  (mkWriter (next_alloc w), mkWorld (srv w) (conns w) (S (next_alloc w))).

(** One round of the accept loop: what [l.AcceptTCP()] returned and
    whether [srv.doneChan] was closed when it did. *)
Record AcceptStep := mkStep {
  acc_result : AcceptResult;
  acc_done : bool
}.

(** Where the accept loop stands after a run: the connections handed to
    [go c.serve(serveCtx)] in order, the [time.Sleep] calls, and the
    value the loop left with ([None] while it is still accepting). *)
Record ServeEnd := mkServeEnd {
  se_world : World;
  se_spawned : list nat;
  se_sleeps : list Z;
  se_ret : option (PanicValue + Error)
}.

Definition defaultAcceptTimeout : Z := 5 * Second.

(** The backoff of the accept loop on a temporary error. *)
Definition next_delay (tempDelay : Z) : Z :=
  let d := if tempDelay =? 0 then 5 * Millisecond else tempDelay * 2 in
  if 1 * Second <? d then 1 * Second else d.

(** The [for] loop of [Server.serve], over the answers of
    [l.AcceptTCP()]. *)
Fixpoint accept_loop (idx : nat) (script : list AcceptStep) (tempDelay : Z)
         (w : World) : ServeEnd :=
  match script with
  | [] => mkServeEnd w [] [] None
  | st :: rest =>
      match acc_result st with
      | Accepted rw =>
          match newConn rw idx w with
          | (w1, inl v) => mkServeEnd w1 [] [] (Some (inl v))
          | (w1, inr c) =>
              let r := accept_loop idx rest 0 w1 in
              mkServeEnd (se_world r) (c :: se_spawned r) (se_sleeps r)
                         (se_ret r)
          end
      | AcceptTimeout =>
          if acc_done st then mkServeEnd w [] [] (Some (inr ErrServerClosed))
          else accept_loop idx rest tempDelay w
      | AcceptTemporary e =>
          if acc_done st then mkServeEnd w [] [] (Some (inr ErrServerClosed))
          else
            let d := next_delay tempDelay in
            let r := accept_loop idx rest d w in
            mkServeEnd (se_world r) (se_spawned r) (d :: se_sleeps r)
                       (se_ret r)
      | AcceptFailed e =>
          if acc_done st then mkServeEnd w [] [] (Some (inr ErrServerClosed))
          else mkServeEnd w [] [] (Some (inr e))
      end
  end.

(** [func (srv *Server) serve(l tcpKeepAliveListener, idx int) error]:
    the listener is tracked, the loop runs, and when it leaves the
    deferred calls untrack the listener.  [None] when [trackListener]
    blocks on the server lock. *)
Definition serve (l : Listener) (idx : nat) (script : list AcceptStep)
           (w : World) : option ServeEnd :=
  if mu_locked (srv w) then None
  else
    let r := accept_loop idx script 0
               (with_srv (trackListener l true (srv w)) w) in
    match se_ret r with
    | None => Some r
    | Some _ =>
        if mu_locked (srv (se_world r)) then None
        else Some (mkServeEnd
                     (with_srv (trackListener l false (srv (se_world r)))
                               (se_world r))
                     (se_spawned r) (se_sleeps r) (se_ret r))
    end.

(** The error [closeListenersLocked] returns: the first one reported. *)
Fixpoint close_all (lns : list Listener) (err : option Error) : option Error :=
  match lns with
  | [] => err
  | ln :: rest =>
      close_all rest
        (match ln_close_result ln, err with
         | Some cerr, None => Some cerr
         | _, _ => err
         end)
  end.

(** [func (srv *Server) closeListenersLocked() error]: every listener
    is closed and deleted; the listeners closed are returned too. *)
Definition closeListenersLocked (s : Server) : Server * list nat * option Error :=
  (with_listeners [] s, map ln_id (listeners s), close_all (listeners s) None).

(** How a call of [Shutdown] ends.  [sh_closed] lists the listeners
    whose [Close] was called; [sh_waited] says that [srv.wg.Wait()]
    was reached and returned. *)
Inductive ShutdownEnd :=
| ShBlocked
| ShPanicked (v : PanicValue) (s : Server) (sh_closed : list nat)
| ShReturned (err : option Error) (s : Server) (sh_closed : list nat)
             (sh_waited : bool).

(** [func (srv *Server) Shutdown() error]. *)
Definition Shutdown (s : Server) : ShutdownEnd :=
  if mu_locked s then ShBlocked
  else
    let '(s1, closed, lnerr) := closeListenersLocked (with_mu true s) in
    match lnerr with
    | Some e => ShReturned (Some e) s1 closed false
    | None =>
        let s2 := with_mu false s1 in
        if doneChan_closed s2 then ShPanicked PanicCloseOfClosedChannel s2 closed
        else ShReturned None (with_done true s2) closed true
    end.

Definition uint64_mod : Z := 2 ^ 64.

(** [func (srv *Server) PushFrame(conn *serveconn, cmd Cmd,
    flags PacketFlag, payload []byte) error], up to [w.EndWrite()]:
    the writer obtained and the frame handed to it. *)
Definition PushFrame (conn : nat) (cmd flags : Z) (payload : list Z)
           (w : World) : World * FrameWriter * OutFrame :=
  let pushID1 := (pushID (srv w) + 1) mod uint64_mod in
  let w1 := with_srv (with_pushID pushID1 (srv w)) w in
  let flags1 := Z.land flags PushFlag in
  let '(wr, w2) := GetWriter w1 in
  (w2, wr, mkOut pushID1 cmd flags1 payload).

(** The [for] loop of [ListenAndServe] over the bindings from index
    [idx] on: [listen] is [net.Listen("tcp", addr)]; the result lists the
    goroutines started with [goFunc], each with the index and listener
    its closure was given, and the error that stopped the loop. *)
Fixpoint listen_loop (listen : string -> Listener + Error)
         (bs : list ServerBinding) (idx : nat)
  : list (nat * Listener) * option Error :=
  match bs with
  | [] => ([], None)
  | binding :: rest =>
      match listen (Addr binding) with
      | inr err => ([], Some err)
      | inl ln =>
          let '(started, err) := listen_loop listen rest (S idx) in
          ((idx, ln) :: started, err)
      end
  end.

(** What the caller of [ListenAndServe] sees: the call never returns,
    it panics, or it returns an error value. *)
Inductive ListenRet :=
| LsBlocked
| LsPanicked (v : PanicValue)
| LsReturned (err : option Error).

(** How [ListenAndServe] ends: the goroutines it started, the outcome of
    the [Shutdown] it called (if it did), whether it reached and passed
    its own [srv.wg.Wait()], and what its caller sees. *)
Record ListenEnd := mkListenEnd {
  le_started : list (nat * Listener);
  le_shutdown : option ShutdownEnd;
  le_waited : bool;
  le_ret : ListenRet
}.

(** [func (srv *Server) ListenAndServe() error].  [s] is the server as
    the call of [Shutdown] finds it on the error path: the goroutines
    started until then may or may not have tracked their listener.
    [return err] comes after [srv.Shutdown()]: it is reached only when
    that call returns, whatever it returns; a [Shutdown] that blocks on
    the server lock or panics on the closed [doneChan] takes
    [ListenAndServe] with it.  On the other path the goroutines counted
    in [srv.wg] are taken to end, so that the wait returns. *)
Definition ListenAndServe (listen : string -> Listener + Error) (s : Server)
  : ListenEnd :=
  match listen_loop listen (bindings s) 0 with
  | (started, Some err) =>
      let sh := Shutdown s in
      mkListenEnd started (Some sh) false
        (match sh with
         | ShBlocked => LsBlocked
         | ShPanicked v _ _ => LsPanicked v
         | ShReturned _ _ _ _ => LsReturned (Some err)
         end)
  | (started, None) => mkListenEnd started None true (LsReturned None)
  end.

End Srv.

(** ** The serving connection *)

Module Conn.

Import Net Srv.

(** *** Handler failure: instrument and handleRequestPanic *)

(** One sample given to the latency sink:
    [LatencyMetric.With("method", Itoa(cmd), "error", Sprintf("%v", err))
     .Observe(elapsed)].  The error label is kept as the recovered
    value ([None] prints as [<nil>]), the elapsed time in nanoseconds. *)
Record Observation := mkObs {
  ob_metric : nat;
  ob_method : Z;
  ob_error : option PanicValue;
  ob_elapsed : Z
}.

Inductive LogEntry :=
| LogHandlerPanic (v : PanicValue)          (* "handleRequestPanic" *)
| LogSendErrorFrame (e : Error) (requestID : Z)  (* "send error frame" *)
| LogServeconnWrite (e : Error).            (* "serveconn Write" *)

(** [func (sc *serveconn) instrument(frame, begin, err)] for the
    binding of the connection. *)
Definition instrument (binding : ServerBinding) (frame : RequestFrame)
           (elapsed : Z) (err : option PanicValue) : list Observation :=
  match LatencyMetric binding with
  | None => []
  | Some metric => [mkObs metric (Cmd frame) err elapsed]
  end.

(** What [handleRequestPanic] did: the samples recorded, the lines
    logged, and the frames handed to a writer, each with its handle. *)
Record PanicHandling := mkHandling {
  hp_observed : list Observation;
  hp_logged : list LogEntry;
  hp_submitted : list (FrameWriter * OutFrame);
  hp_world : World
}.

(** [func (sc *serveconn) handleRequestPanic(frame, begin)].
    [err] is what [recover()] returns, [FStream frame] the state of
    [frame.Stream] when the function reads it, and [endWrite] the answer
    of the writer loop to a submitted frame. *)
Definition handleRequestPanic (binding : ServerBinding)
           (endWrite : OutFrame -> option Error)
           (frame : RequestFrame) (elapsed : Z)
           (err : option PanicValue) (w : World) : PanicHandling :=
  let observed := instrument binding frame elapsed err in
  let logged :=
    match err with
    | Some v => [LogHandlerPanic v]
    | None => []
    end in
  let s := FStream frame in
  if negb (IsSelfClosed s) then
    (* send error frame *)
    let '(writer, w1) := GetWriter w in
    let out := mkOut (RequestID frame) 0 StreamRstFlag [] in
    let logged2 :=
      match endWrite out with
      | Some e => [LogSendErrorFrame e (RequestID frame)]
      | None => []
      end in
    mkHandling observed (logged ++ logged2) [(writer, out)] w1
  else mkHandling observed logged [] w.

(** *** The writer loop *)

(** The stream table of a connection ([connstreams]) and its streams
    are declared outside the two source files; the writer loop is
    stated over any implementation of the three calls it makes. *)
Class StreamTable (CS SRef : Type) := {
  GetStream : CS -> Z -> Z -> option SRef;
  CreateOrGetStream : CS -> Z -> Z -> CS * SRef;
  AddOutFrame : CS -> SRef -> Z -> Z -> CS * bool
}.

Inductive StreamCall :=
| CallGetStream (requestID flags : Z)
| CallCreateOrGetStream (requestID flags : Z)
| CallAddOutFrame (requestID flags : Z).

(** One round of the writer loop: the table afterwards, the calls made
    on it, the frame written to the socket (if any), the value sent on
    [res.result] ([None] is Go's nil error), whether [sc.Close()] was
    called, and the lines logged. *)
Record WriteRound (CS : Type) := mkRound {
  wr_cs : CS;
  wr_calls : list StreamCall;
  wr_written : option OutFrame;
  wr_result : option Error;
  wr_closed : bool;
  wr_logged : list LogEntry
}.
Arguments mkRound {CS}.
Arguments wr_cs {CS}.
Arguments wr_calls {CS}.
Arguments wr_written {CS}.
Arguments wr_result {CS}.
Arguments wr_closed {CS}.
Arguments wr_logged {CS}.

Section WriteFrames.

Context {CS SRef : Type} `{StreamTable CS SRef}.

(** [writer.Write(dfw.GetWbuf())] and what follows it; [werr] is the
    error the socket write reports. *)
Definition write_out (cs : CS) (calls : list StreamCall) (dfw : OutFrame)
           (werr : option Error) : WriteRound CS :=
  match werr with
  | Some e => mkRound cs calls (Some dfw) (Some e) true [LogServeconnWrite e]
  | None => mkRound cs calls (Some dfw) None false []
  end.

(** The body of [case res := <-sc.writeFrameCh] in
    [func (sc *serveconn) writeFrames(timeout int)]. *)
Definition writeFrames_round (cs : CS) (dfw : OutFrame)
           (werr : option Error) : WriteRound CS :=
  let flags := o_flags dfw in
  let requestID := o_requestID dfw in
  if IsRst flags then
    match GetStream cs requestID flags with
    | None =>
        mkRound cs [CallGetStream requestID flags] None
                (Some ErrRstNonExistingStream) false []
    | Some s =>
        (* for rst frame, AddOutFrame returns false when no need to
           send the frame *)
        let '(cs1, ok) := AddOutFrame cs s requestID flags in
        let calls := [CallGetStream requestID flags;
                      CallAddOutFrame requestID flags] in
        if negb ok then mkRound cs1 calls None None false []
        else write_out cs1 calls dfw werr
    end
  else if negb (IsPush flags) then
    (* skip stream logic if PushFlag set *)
    let '(cs1, s) := CreateOrGetStream cs requestID flags in
    let '(cs2, ok) := AddOutFrame cs1 s requestID flags in
    let calls := [CallCreateOrGetStream requestID flags;
                  CallAddOutFrame requestID flags] in
    if negb ok then
      mkRound cs2 calls None (Some ErrWriteAfterCloseSelf) false []
    else write_out cs2 calls dfw werr
  else write_out cs [] dfw werr.

(** The loop over the requests received on [writeFrameCh], each with
    the answer of its socket write; the rounds are returned in order. *)
Fixpoint writeFrames (cs : CS) (reqs : list (OutFrame * option Error))
  : list (WriteRound CS) :=
  match reqs with
  | [] => []
  | (dfw, werr) :: rest =>
      let r := writeFrames_round cs dfw werr in
      r :: writeFrames (wr_cs r) rest
  end.

End WriteFrames.

(** Modelled from the spec: a stream table after sections 3 and 4.C,
    since [connstreams] is not in the source files.  Streams are keyed
    by [requestID]; [AddOutFrame] refuses a second [Rst] and any other
    frame on a stream whose out side is closed; [StreamEndFlag] closes
    the out side after the frame is accepted; [Rst] wins over [End] and
    ends both halves. *)
Definition spec_AddOutFrame (cs : gmap Z Stream) (s : Z) (requestID flags : Z)
  : gmap Z Stream * bool :=
  match cs !! s with
  | None => (cs, false)
  | Some st =>
      if IsRst flags then
        if rstSent st then (cs, false)
        else (<[s := mkStream true true]> cs, true)
      else if outClosed st then (cs, false)
      else if negb (Z.land flags StreamEndFlag =? 0) then
        (<[s := mkStream true (rstSent st)]> cs, true)
      else (cs, true)
  end.

#[export] Instance spec_table : StreamTable (gmap Z Stream) Z := {
  GetStream cs requestID flags :=
    match cs !! requestID with
    | Some _ => Some requestID
    | None => None
    end;
  CreateOrGetStream cs requestID flags :=
    match cs !! requestID with
    | Some _ => (cs, requestID)
    | None => (<[requestID := mkStream false false]> cs, requestID)
    end;
  AddOutFrame := spec_AddOutFrame
}.

(** *** Reader, gate and dispatch loop *)

(** Where [readFrames] stands: about to call [ReadFrame], at the
    [select] that hands the frame over, at the [select] on the gate, or
    returned ([true] when it returned an error and so calls
    [sc.Close()]). *)
Inductive ReaderPc :=
| RdRead
| RdSend (f : RequestFrame)
| RdGate
| RdExit (closes : bool).

(** Where the [for] loop of [serve] stands. *)
Inductive DispPc :=
| DpSelect                       (* at the select *)
| DpInline (f : RequestFrame)    (* handler.ServeQRPC(sc.writer, f) runs *)
| DpReadMore (f : RequestFrame)  (* it returned; res.readMore() is next *)
| DpNonBlock (f : RequestFrame)  (* NonBlock frame; res.readMore() is next *)
| DpSpawn (f : RequestFrame)     (* gate signalled; GoFunc is next *)
| DpExit.

(** A goroutine started with [GoFunc] for a NonBlock frame: not yet
    running, running the handler with the writer it got from
    [sc.GetWriter()], or finished. *)
Inductive TaskPc :=
| TkSpawned
| TkRunning (w : FrameWriter)
| TkDone (w : FrameWriter).

Definition task_writer (t : TaskPc) : option FrameWriter :=
  match t with
  | TkSpawned => None
  | TkRunning w | TkDone w => Some w
  end.

(** The goroutines of one connection.  [sv_input] is what [ReadFrame]
    will return, call after call; [sv_gate] says whether the gate
    channel (capacity 1) holds its token.  The last three fields record
    history: the frames the dispatcher received, the inline handler
    calls with their writer, and the number of [readMore] calls. *)
Record Serving := mkServing {
  sv_input : list (RequestFrame + Error);
  sv_rd : ReaderPc;
  sv_gate : bool;
  sv_dp : DispPc;
  sv_ctx_done : bool;
  sv_writer : FrameWriter;
  sv_next_writer : nat;
  sv_tasks : list (RequestFrame * TaskPc);
  sv_handed : list RequestFrame;
  sv_inline : list (RequestFrame * FrameWriter);
  sv_signals : nat
}.

(** The state [serve] builds before it enters the loop: [sc.writer] is
    the handle allocated by [newFrameWriter]. *)
Definition serving_init (input : list (RequestFrame + Error)) (n0 : nat)
  : Serving :=
  mkServing input RdRead false DpSelect false (mkWriter n0) (S n0) [] [] [] 0.

(** Who moves next. *)
Inductive Actor :=
| Reader          (* readFrames makes its next move *)
| ReaderQuit      (* readFrames takes the ctx.Done() case *)
| Handoff         (* the send and the receive on readFrameCh meet *)
| Dispatcher      (* the loop of serve makes its next move *)
| DispatcherQuit  (* the loop takes the ctx.Done() case *)
| Task (i : nat)  (* the i-th spawned goroutine moves *)
| Cancel.         (* the connection context is cancelled *)

Definition readFrames_step (st : Serving) : option Serving :=
  match sv_rd st with
  | RdRead =>
      match sv_input st with
      | [] => None
      | inl f :: rest =>
          Some (mkServing rest (RdSend f) (sv_gate st) (sv_dp st)
                  (sv_ctx_done st) (sv_writer st) (sv_next_writer st)
                  (sv_tasks st) (sv_handed st) (sv_inline st) (sv_signals st))
      | inr e :: rest =>
          Some (mkServing rest (RdExit true) (sv_gate st) (sv_dp st)
                  (sv_ctx_done st) (sv_writer st) (sv_next_writer st)
                  (sv_tasks st) (sv_handed st) (sv_inline st) (sv_signals st))
      end
  | RdGate =>
      if sv_gate st then
        Some (mkServing (sv_input st) RdRead false (sv_dp st)
                (sv_ctx_done st) (sv_writer st) (sv_next_writer st)
                (sv_tasks st) (sv_handed st) (sv_inline st) (sv_signals st))
      else None
  | RdSend _ | RdExit _ => None
  end.

Definition readFrames_quit (st : Serving) : option Serving :=
  match sv_rd st with
  | RdSend _ | RdGate =>
      if sv_ctx_done st then
        Some (mkServing (sv_input st) (RdExit false) (sv_gate st) (sv_dp st)
                (sv_ctx_done st) (sv_writer st) (sv_next_writer st)
                (sv_tasks st) (sv_handed st) (sv_inline st) (sv_signals st))
      else None
  | RdRead | RdExit _ => None
  end.

(** [case res := <-sc.readFrameCh] and the test on
    [res.f.Flags.IsNonBlock()]. *)
Definition handoff (st : Serving) : option Serving :=
  match sv_rd st, sv_dp st with
  | RdSend f, DpSelect =>
      if negb (IsNonBlock (Flags f)) then
        Some (mkServing (sv_input st) RdGate (sv_gate st) (DpInline f)
                (sv_ctx_done st) (sv_writer st) (sv_next_writer st)
                (sv_tasks st) (sv_handed st ++ [f])
                (sv_inline st ++ [(f, sv_writer st)]) (sv_signals st))
      else
        Some (mkServing (sv_input st) RdGate (sv_gate st) (DpNonBlock f)
                (sv_ctx_done st) (sv_writer st) (sv_next_writer st)
                (sv_tasks st) (sv_handed st ++ [f])
                (sv_inline st) (sv_signals st))
  | _, _ => None
  end.

(** [res.readMore()], that is [gate <- struct{}{}]: blocks while the
    token is still in the channel. *)
Definition readMore (next : DispPc) (st : Serving) : option Serving :=
  if sv_gate st then None
  else Some (mkServing (sv_input st) (sv_rd st) true next
               (sv_ctx_done st) (sv_writer st) (sv_next_writer st)
               (sv_tasks st) (sv_handed st) (sv_inline st)
               (S (sv_signals st))).

(** The next statement of the loop body.  From [DpInline] the inline
    call returns; it does so after a panic of the handler too, which the
    deferred [handleRequestPanic] recovers. *)
Definition serve_loop_step (st : Serving) : option Serving :=
  match sv_dp st with
  | DpInline f =>
      Some (mkServing (sv_input st) (sv_rd st) (sv_gate st) (DpReadMore f)
              (sv_ctx_done st) (sv_writer st) (sv_next_writer st)
              (sv_tasks st) (sv_handed st) (sv_inline st) (sv_signals st))
  | DpReadMore f => readMore DpSelect st
  | DpNonBlock f => readMore (DpSpawn f) st
  | DpSpawn f =>
      Some (mkServing (sv_input st) (sv_rd st) (sv_gate st) DpSelect
              (sv_ctx_done st) (sv_writer st) (sv_next_writer st)
              (sv_tasks st ++ [(f, TkSpawned)]) (sv_handed st) (sv_inline st)
              (sv_signals st))
  | DpSelect | DpExit => None
  end.

Definition serve_loop_quit (st : Serving) : option Serving :=
  match sv_dp st with
  | DpSelect =>
      if sv_ctx_done st then
        Some (mkServing (sv_input st) (sv_rd st) (sv_gate st) DpExit
                (sv_ctx_done st) (sv_writer st) (sv_next_writer st)
                (sv_tasks st) (sv_handed st) (sv_inline st) (sv_signals st))
      else None
  | _ => None
  end.

(** The body of the spawned goroutine:
    [handler.ServeQRPC(sc.GetWriter(), res.f)]. *)
Definition task_step (i : nat) (st : Serving) : option Serving :=
  match sv_tasks st !! i with
  | Some (f, TkSpawned) =>
      Some (mkServing (sv_input st) (sv_rd st) (sv_gate st) (sv_dp st)
              (sv_ctx_done st) (sv_writer st) (S (sv_next_writer st))
              (<[i := (f, TkRunning (mkWriter (sv_next_writer st)))]> (sv_tasks st))
              (sv_handed st) (sv_inline st) (sv_signals st))
  | Some (f, TkRunning w) =>
      Some (mkServing (sv_input st) (sv_rd st) (sv_gate st) (sv_dp st)
              (sv_ctx_done st) (sv_writer st) (sv_next_writer st)
              (<[i := (f, TkDone w)]> (sv_tasks st))
              (sv_handed st) (sv_inline st) (sv_signals st))
  | Some (_, TkDone _) | None => None
  end.

Definition cancel_ctx (st : Serving) : Serving :=
  mkServing (sv_input st) (sv_rd st) (sv_gate st) (sv_dp st) true
    (sv_writer st) (sv_next_writer st) (sv_tasks st) (sv_handed st)
    (sv_inline st) (sv_signals st).

Definition serving_step (a : Actor) (st : Serving) : option Serving :=
  match a with
  | Reader => readFrames_step st
  | ReaderQuit => readFrames_quit st
  | Handoff => handoff st
  | Dispatcher => serve_loop_step st
  | DispatcherQuit => serve_loop_quit st
  | Task i => task_step i st
  | Cancel => Some (cancel_ctx st)
  end.

(** A schedule is run move by move; a move that is not possible leaves
    the state as it is. *)
Fixpoint serving_run (sched : list Actor) (st : Serving) : Serving :=
  match sched with
  | [] => st
  | a :: rest =>
      serving_run rest (match serving_step a st with
                        | Some st' => st'
                        | None => st
                        end)
  end.

(** *** Close called from several goroutines *)

(** Where one caller of [Close] stands: before [untrack], at [<-ch],
    before [sc.rwc.Close()], before [sc.cancelCtx()], inside the loop
    over [closeNotify] with the callbacks still to run, returned, or
    stopped by a panic. *)
Inductive ClosePc :=
| CpStart
| CpWait
| CpSocket
| CpCancel
| CpNotify (rest : list nat)
| CpDone (err : option Error)
| CpPanicked (v : PanicValue).

(** The callers of [Close] on connection [cl_conn], over the shared
    world. *)
Record Closing := mkClosing {
  cl_world : World;
  cl_conn : nat;
  cl_pcs : list ClosePc
}.

Definition closing_init (w : World) (p : nat) (n : nat) : Closing :=
  mkClosing w p (replicate n CpStart).

Definition set_pc (i : nat) (pc : ClosePc) (w : World) (st : Closing)
  : Closing :=
  mkClosing w (cl_conn st) (<[i := pc]> (cl_pcs st)).

(** One move of caller [i], following [Close] and [closeUntracked]
    statement by statement. *)
Definition close_step (i : nat) (st : Closing) : option Closing :=
  let w := cl_world st in
  let p := cl_conn st in
  match cl_pcs st !! i with
  | None => None
  | Some pc =>
      match pc, conns w !! p with
      | CpStart, _ =>
          match untrack_once p false w with
          | Blocked => None
          | Panicked v w' => Some (set_pc i (CpPanicked v) w' st)
          | Returned true w' => Some (set_pc i CpSocket w' st)
          | Returned false w' => Some (set_pc i CpWait w' st)
          end
      | CpWait, Some sc =>
          if sc_untrackedCh_closed sc then Some (set_pc i CpSocket w st)
          else None
      | CpSocket, Some sc =>
          let '(tc, err) := Net.Close (sc_rwc sc) in
          let w' := with_conn p (set_rwc tc sc) w in
          match err with
          | Some e => Some (set_pc i (CpDone (Some e)) w' st)
          | None => Some (set_pc i CpCancel w' st)
          end
      | CpCancel, Some sc =>
          Some (set_pc i (CpNotify (sc_closeNotify sc))
                  (with_conn p (cancel sc) w) st)
      | CpNotify [], Some sc => Some (set_pc i (CpDone None) w st)
      | CpNotify (f :: rest), Some sc =>
          Some (set_pc i (CpNotify rest) (with_conn p (notify f sc) w) st)
      | _, _ => None
      end
  end.

Fixpoint close_run (sched : list nat) (st : Closing) : Closing :=
  match sched with
  | [] => st
  | i :: rest =>
      close_run rest (match close_step i st with
                      | Some st' => st'
                      | None => st
                      end)
  end.

Definition returned (pc : ClosePc) : bool :=
  match pc with
  | CpDone _ => true
  | _ => false
  end.

Definition all_returned (st : Closing) : bool := forallb returned (cl_pcs st).

(** Readings of the shared connection. *)
Definition socket_closes (st : Closing) : nat :=
  match conns (cl_world st) !! cl_conn st with
  | Some sc => so_close_calls (sc_rwc sc)
  | None => 0
  end.

Definition cancels (st : Closing) : nat :=
  match conns (cl_world st) !! cl_conn st with
  | Some sc => ctx_cancel_calls sc
  | None => 0
  end.

Definition callbacks_run (st : Closing) : list nat :=
  match conns (cl_world st) !! cl_conn st with
  | Some sc => rev (notified sc)
  | None => []
  end.

(** The claim on [Close] as the specification words it: whenever all
    callers have returned, the socket was closed once, the context was
    cancelled once, the callbacks ran once each in order, and all
    callers returned the same value. *)
Definition teardown_exactly_once (w : World) (p n : nat) : Prop :=
  forall sched,
    let st := close_run sched (closing_init w p n) in
    all_returned st = true ->
    socket_closes st = 1%nat /\
    cancels st = 1%nat /\
    (exists sc, conns w !! p = Some sc /\ callbacks_run st = sc_closeNotify sc) /\
    (forall i j a b, cl_pcs st !! i = Some a -> cl_pcs st !! j = Some b -> a = b).

End Conn.

(** ** Sample values *)

Module Samples.

Import Mux Net Srv Conn.

Definition quiet : Handler := fun _ _ => mkOutcome [] None.

Definition ping : RequestFrame := mkFrame 1 7 0 [] (mkStream false false).

Definition one_handler : ServeMux := mkMux rw_free (Some {[ 7 := quiet ]}).

Definition plain_socket (n : nat) : TCPConn :=
  mkTCP n false 0 close_once_result 0.

Definition binding0 : ServerBinding :=
  mkBinding "127.0.0.1:8080" quiet 0 0 0 None.

Definition fresh_world (bs : list ServerBinding) : World :=
  mkWorld (NewServer bs) ∅ 0.

Definition failing_listener : Listener := mkListener 0 (Some (ErrNet 1)).

Definition server_with_failing_listener : Server :=
  trackListener failing_listener true (NewServer [binding0]).

Definition one_accept : list AcceptStep :=
  [mkStep (Accepted (plain_socket 5)) false].

Definition three_bindings : list ServerBinding := [binding0; binding0; binding0].

(** A server with three bindings and one connection accepted on the
    third. *)
Definition world3 : World :=
  fst (newConn (plain_socket 9) 2 (fresh_world three_bindings)).

Definition named_world3 : World :=
  with_conn 0 (mkConn 2 "alice" false false [] (plain_socket 9) 0 []) world3.

Definition metered : ServerBinding :=
  mkBinding "127.0.0.1:8080" quiet 0 0 0 (Some 3%nat).

Definition always_ok : OutFrame -> option Error := fun _ => None.

Definition open_frame : RequestFrame := mkFrame 42 7 0 [] (mkStream false false).

Definition push_rst_frame : OutFrame := mkOut 9 1 (PushFlag + StreamRstFlag) [].

Definition closed_stream_table : gmap Z Stream := {[ 9 := mkStream true true ]}.

Definition frame_a : RequestFrame := mkFrame 1 7 0 [] (mkStream false false).
Definition frame_b : RequestFrame :=
  mkFrame 2 7 NonBlockFlag [] (mkStream false false).
Definition frame_c : RequestFrame := mkFrame 3 7 0 [] (mkStream false false).

Definition three_frames : list (RequestFrame + Error) :=
  [inl frame_a; inl frame_b; inl frame_c].

Definition listening_world : World :=
  fst (newConn (plain_socket 9) 0
         (fresh_world [binding0])).

Definition conn0 : serveconn :=
  mkConn 0 EmptyString false false [] (plain_socket 9) 0 [].

(** Two connections accepted on the only binding. *)
Definition two_conn_world : World :=
  fst (newConn (plain_socket 8) 0 listening_world).

Definition loud : Handler :=
  fun _ r => mkOutcome [mkOut (RequestID r) (Cmd r) 0 (Payload r)] None.

Definition unknown_then_register : list MuxCall :=
  [CallServe (mkWriter 0) ping; CallHandle 7 (Some quiet)].

Definition good_listener (n : nat) : Listener := mkListener n None.

Definition mixed_listeners : Server :=
  with_listeners [good_listener 1; failing_listener; good_listener 2]
                 (NewServer [binding0]).

Definition flaky_accepts : list AcceptStep :=
  [mkStep (AcceptTemporary (ErrNet 2)) false;
   mkStep (AcceptTemporary (ErrNet 2)) false;
   mkStep AcceptTimeout false;
   mkStep (Accepted (plain_socket 5)) false;
   mkStep (AcceptTemporary (ErrNet 2)) false;
   mkStep (AcceptFailed (ErrNet 3)) true].

(** The listening world with its connection bound to an id. *)
Definition named_listening_world : World :=
  with_conn 0 (mkConn 0 "bob" false false [] (plain_socket 9) 0 [])
    (with_srv (with_id2Conn [{[ "bob"%string := 0%nat ]}; ∅]
                 (srv listening_world)) listening_world).

Definition broken_input : list (RequestFrame + Error) :=
  [inl frame_a; inr ErrInvalidPacket; inl frame_c].

Definition second_binding : ServerBinding :=
  mkBinding "127.0.0.1:8081" quiet 0 0 0 None.

(** A network on which port 8081 is taken. *)
Definition port_8081_taken (addr : string) : Listener + Error :=
  if decide (addr = "127.0.0.1:8081"%string) then inr (ErrNet 98)
  else inl (good_listener 1).

(** A socket whose [Close] returns nil every time. *)
Definition lenient_socket (n : nat) : TCPConn :=
  mkTCP n false 0 (fun _ => None) 0.

(** A connection accepted on such a socket, with two callbacks
    registered through [NotifyWhenClose]. *)
Definition conn_with_callbacks : serveconn :=
  NotifyWhenClose 2
    (NotifyWhenClose 1
       (mkConn 0 EmptyString false false [] (lenient_socket 9) 0 [])).

Definition notifying_world : World :=
  with_conn 0 conn_with_callbacks
    (fst (newConn (lenient_socket 9) 0 (fresh_world [binding0]))).

(** A server with two bindings whose serve goroutines have both tracked
    their listener. *)
Definition two_listeners : Server :=
  trackListener (good_listener 2) true
    (trackListener (good_listener 1) true
       (NewServer [binding0; second_binding])).

End Samples.

(** ** Invariants, measures and claims as worded *)

Module Invariants.

Import Net Srv Conn Samples.

Local Open Scope nat_scope.

(** The claim on [handleRequestPanic] as worded: the Rst frame goes out
    exactly when the handler failed and the stream is not self-closed,
    and one latency sample is recorded. *)
Definition rst_iff_failed (binding : ServerBinding) (frame : RequestFrame)
           (elapsed : Z) (err : option PanicValue) (w : World) : Prop :=
  let r := handleRequestPanic binding always_ok frame elapsed err w in
  (hp_submitted r <> [] <->
   err <> None /\ IsSelfClosed (FStream frame) = false) /\
  length (hp_observed r) = 1%nat.

Definition blocking (f : RequestFrame) : bool := negb (IsNonBlock (Flags f)).

Definition nonblocking (f : RequestFrame) : bool := IsNonBlock (Flags f).

(** The dispatcher holds a frame whose gate signal is still due. *)
Definition busy (dp : DispPc) : bool :=
  match dp with
  | DpInline _ | DpReadMore _ | DpNonBlock _ => true
  | DpSelect | DpSpawn _ | DpExit => false
  end.

Definition current (dp : DispPc) : option RequestFrame :=
  match dp with
  | DpInline f | DpReadMore f | DpNonBlock f | DpSpawn f => Some f
  | DpSelect | DpExit => None
  end.

Definition flag_agrees (dp : DispPc) : bool :=
  match dp with
  | DpInline f | DpReadMore f => blocking f
  | DpNonBlock f | DpSpawn f => nonblocking f
  | DpSelect | DpExit => true
  end.

Definition to_spawn (dp : DispPc) : list RequestFrame :=
  match dp with
  | DpNonBlock f | DpSpawn f => [f]
  | _ => []
  end.

(** The reader cannot parse: it waits on the gate or has returned. *)
Definition reader_held (rd : ReaderPc) : bool :=
  match rd with
  | RdGate | RdExit _ => true
  | RdRead | RdSend _ => false
  end.

Definition exited (rd : ReaderPc) : bool :=
  match rd with
  | RdExit _ => true
  | _ => false
  end.

Definition pending (rd : ReaderPc) : list (RequestFrame + Error) :=
  match rd with
  | RdSend f => [inl f]
  | _ => []
  end.

(** What holds in every state the goroutines of a connection can reach
    from [serving_init input n0]. *)
Record serving_inv (input : list (RequestFrame + Error)) (n0 : nat)
       (st : Serving) : Prop := mkInv {
  inv_writer : sv_writer st = mkWriter n0;
  inv_next : (n0 < sv_next_writer st)%nat;
  inv_order : exists tl,
      input = map inl (sv_handed st) ++ pending (sv_rd st) ++ tl /\
      (exited (sv_rd st) = false -> tl = sv_input st);
  inv_inline :
    sv_inline st =
      map (fun f => (f, mkWriter n0)) (List.filter blocking (sv_handed st));
  inv_tasks :
    map fst (sv_tasks st) ++ to_spawn (sv_dp st) =
      List.filter nonblocking (sv_handed st);
  inv_busy : busy (sv_dp st) = true ->
             sv_gate st = false /\ reader_held (sv_rd st) = true /\
             S (sv_signals st) = length (sv_handed st);
  inv_idle : busy (sv_dp st) = false -> sv_signals st = length (sv_handed st);
  inv_gate : sv_gate st = true -> reader_held (sv_rd st) = true;
  inv_current : forall f, current (sv_dp st) = Some f ->
                          last (sv_handed st) = Some f;
  inv_flag : flag_agrees (sv_dp st) = true;
  inv_fresh : forall i f t w,
      sv_tasks st !! i = Some (f, t) -> task_writer t = Some w ->
      (n0 < fw_id w < sv_next_writer st)%nat;
  inv_distinct : forall i j fi ti fj tj w,
      sv_tasks st !! i = Some (fi, ti) -> sv_tasks st !! j = Some (fj, tj) ->
      task_writer ti = Some w -> task_writer tj = Some w -> i = j
}.

(** Sum of a measure over the callers. *)
Definition tally (g : ClosePc -> nat) (pcs : list ClosePc) : nat :=
  sum_list (map g pcs).

(** The caller has made its call of [sc.rwc.Close()]. *)
Definition past_socket (pc : ClosePc) : nat :=
  match pc with
  | CpCancel | CpNotify _ | CpDone _ => 1
  | _ => 0
  end.

(** ... and it was answered with nil. *)
Definition got_nil (pc : ClosePc) : nat :=
  match pc with
  | CpCancel | CpNotify _ | CpDone None => 1
  | _ => 0
  end.

(** The caller has called [sc.cancelCtx()]. *)
Definition cancelled (pc : ClosePc) : nat :=
  match pc with
  | CpNotify _ | CpDone None => 1
  | _ => 0
  end.

(** The callbacks the caller has run, out of [cbs]. *)
Definition ran (cbs : list nat) (pc : ClosePc) : nat :=
  match pc with
  | CpNotify rest => length cbs - length rest
  | CpDone None => length cbs
  | _ => 0
  end.

(** Steps the caller can still make. *)
Definition steps_left (cbs : list nat) (pc : ClosePc) : nat :=
  match pc with
  | CpStart => 5 + length cbs
  | CpWait => 4 + length cbs
  | CpSocket => 3 + length cbs
  | CpCancel => 2 + length cbs
  | CpNotify rest => 1 + length rest
  | CpDone _ | CpPanicked _ => 0
  end.

(** Among the [k] calls of the socket's [Close] that follow the first
    [from], those answered with nil. *)
Fixpoint nil_answers (res : nat -> option Error) (from k : nat) : nat :=
  match k with
  | O => 0
  | S k' =>
      nil_answers res from k' +
      match res (from + k') with
      | None => 1
      | Some _ => 0
      end
  end.

(** What holds in every state the callers reach from
    [closing_init w p n], where [sc0] is the connection at the start. *)
Record closing_inv (p : nat) (sc0 : serveconn) (st : Closing) : Prop := mkCInv {
  ci_conn : cl_conn st = p;
  ci_lock : mu_locked (srv (cl_world st)) = false;
  ci_id2Conn : sc_id sc0 = EmptyString \/
               (sc_idx sc0 < length (id2Conn (srv (cl_world st))))%nat;
  ci_active : (sc_idx sc0 < length (activeConn (srv (cl_world st))))%nat;
  ci_sc : exists sc,
      conns (cl_world st) !! p = Some sc /\
      sc_idx sc = sc_idx sc0 /\ sc_id sc = sc_id sc0 /\
      sc_closeNotify sc = sc_closeNotify sc0 /\
      so_close_result (sc_rwc sc) = so_close_result (sc_rwc sc0) /\
      (sc_untrack sc = true -> sc_untrackedCh_closed sc = true) /\
      ((exists i, cl_pcs st !! i = Some CpWait) -> sc_untrack sc = true) /\
      so_close_calls (sc_rwc sc) =
        (so_close_calls (sc_rwc sc0) + tally past_socket (cl_pcs st))%nat /\
      ctx_cancel_calls sc =
        (ctx_cancel_calls sc0 + tally cancelled (cl_pcs st))%nat /\
      length (notified sc) =
        (length (notified sc0) +
         tally (ran (sc_closeNotify sc0)) (cl_pcs st))%nat;
  ci_nil : tally got_nil (cl_pcs st) =
           nil_answers (so_close_result (sc_rwc sc0))
                       (so_close_calls (sc_rwc sc0))
                       (tally past_socket (cl_pcs st));
  ci_rest : forall i rest, cl_pcs st !! i = Some (CpNotify rest) ->
                           (length rest <= length (sc_closeNotify sc0))%nat;
  ci_nopanic : forall i v, cl_pcs st !! i <> Some (CpPanicked v)
}.

(** The worlds [Close] is called in: the connection is registered, the
    server lock is free, and the registries have an entry for its
    binding. *)
Definition closable (w : World) (p : nat) (sc0 : serveconn) : Prop :=
  conns w !! p = Some sc0 /\
  mu_locked (srv w) = false /\
  (sc_id sc0 = EmptyString \/ (sc_idx sc0 < length (id2Conn (srv w)))%nat) /\
  (sc_idx sc0 < length (activeConn (srv w)))%nat /\
  (sc_untrack sc0 = true -> sc_untrackedCh_closed sc0 = true).

(** Callers whose socket call was answered with nil; once all have
    returned, the callers that returned nil. *)
Definition returned_nil (st : Closing) : nat := tally got_nil (cl_pcs st).

(** The value a caller has returned. *)
Definition result (pc : ClosePc) : option (option Error) :=
  match pc with
  | CpDone err => Some err
  | _ => None
  end.

(** The values returned so far, caller by caller. *)
Definition results (st : Closing) : list (option Error) :=
  omap result (cl_pcs st).

(** What the caller's call of [sc.rwc.Close()] was answered with. *)
Definition answer (pc : ClosePc) : option (option Error) :=
  match pc with
  | CpCancel | CpNotify _ => Some None
  | CpDone err => Some err
  | _ => None
  end.

(** The answers of the socket to the [k] calls of its [Close] that
    follow the first [from], in the order of the calls. *)
Definition socket_answers (res : nat -> option Error) (from k : nat)
  : list (option Error) :=
  map res (seq from k).

(** The callbacks a caller has run so far, in the order it ran them. *)
Definition progress (cbs : list nat) (pc : ClosePc) : list nat :=
  match pc with
  | CpNotify rest => take (length cbs - length rest) cbs
  | CpDone None => cbs
  | _ => []
  end.

(** The callbacks a caller has run once it has returned [r]: all of
    [cbs] after a nil from the socket, none after an error. *)
Definition pass (cbs : list nat) (r : option Error) : list nat :=
  match r with
  | None => cbs
  | Some _ => []
  end.

(** [interleaved runs log]: the log is made of the lists [runs], each
    of them kept in its order and used up entirely, the lists taking
    turns in any way. *)
Inductive interleaved {A : Type} : list (list A) -> list A -> Prop :=
| interleaved_nil runs :
    Forall (fun r => r = []) runs -> interleaved runs []
| interleaved_cons runs i x r log :
    runs !! i = Some (x :: r) ->
    interleaved (<[i := r]> runs) log ->
    interleaved runs (x :: log).

(** The order of events among the callers: the answers they got are the
    socket's, one call each; a caller inside the loop over [closeNotify]
    has a tail of the list left; the callbacks logged since the start
    are the callers' passes through the list, interleaved. *)
Record closing_order (sc0 : serveconn) (st : Closing) : Prop := mkCOrd {
  co_answers :
    omap answer (cl_pcs st) ≡ₚ
    socket_answers (so_close_result (sc_rwc sc0)) (so_close_calls (sc_rwc sc0))
                   (tally past_socket (cl_pcs st));
  co_tail : forall i rest, cl_pcs st !! i = Some (CpNotify rest) ->
                           exists done, sc_closeNotify sc0 = done ++ rest;
  co_log : exists sc log,
      conns (cl_world st) !! cl_conn st = Some sc /\
      rev (notified sc) = rev (notified sc0) ++ log /\
      interleaved (map (progress (sc_closeNotify sc0)) (cl_pcs st)) log
}.

(** While at most one caller was answered with nil, the log of
    callbacks is the progress of that caller through [closeNotify]. *)
Definition single_runner (sc0 : serveconn) (st : Closing) : Prop :=
  tally got_nil (cl_pcs st) <= 1 ->
  exists sc,
    conns (cl_world st) !! cl_conn st = Some sc /\
    (tally cancelled (cl_pcs st) = 0 -> notified sc = notified sc0) /\
    (forall i rest, cl_pcs st !! i = Some (CpNotify rest) ->
                    rev (notified sc) ++ rest =
                      rev (notified sc0) ++ sc_closeNotify sc0) /\
    (forall i, cl_pcs st !! i = Some (CpDone None) ->
               rev (notified sc) = rev (notified sc0) ++ sc_closeNotify sc0).

(** Why a goroutine of the connection has left.  What [ReadFrame] has
    returned so far is accounted for: the frames handed to the dispatch
    loop, in order, then the frame the reader holds or the error it
    returned with.  A reader that returned nil did so after the context
    was cancelled, dropping at most the frame it held; so did a dispatch
    loop that returned. *)
Definition left_for_a_reason (input : list (RequestFrame + Error))
           (st : Serving) : Prop :=
  match sv_rd st with
  | RdRead | RdGate => input = map inl (sv_handed st) ++ sv_input st
  | RdSend f => input = map inl (sv_handed st) ++ inl f :: sv_input st
  | RdExit true =>
      exists e, input = map inl (sv_handed st) ++ inr e :: sv_input st
  | RdExit false =>
      sv_ctx_done st = true /\
      (input = map inl (sv_handed st) ++ sv_input st \/
       exists f, input = map inl (sv_handed st) ++ inl f :: sv_input st)
  end /\
  (sv_dp st = DpExit -> sv_ctx_done st = true).

End Invariants.

(** * Properties *)

(** ** ServeMux: registration and dispatch *)

Module MuxFacts.

Import Mux.

Import Samples Invariants.

Lemma RLock_readers mu0 mu1 :
  RLock mu0 = Some mu1 ->
  readers mu1 = S (readers mu0) /\ writer_held mu1 = false.
Proof.
  unfold RLock. destruct (writer_held mu0); [discriminate|].
  intros [= <-]. split; reflexivity.
Qed.

Lemma Lock_free mu0 :
  writer_held mu0 = false -> readers mu0 = 0%nat ->
  Lock mu0 = Some (mkRW true 0).
Proof. unfold Lock. intros -> ->. reflexivity. Qed.

Lemma Handle_keeps_lock_free mux cmd h mux' :
  Handle mux cmd h = HandleOk mux' -> mu mux' = rw_free.
Proof.
  unfold Handle, Lock.
  destruct (writer_held (mu mux)); [discriminate|].
  destruct (readers (mu mux)); [|discriminate].
  destruct h as [h|]; [|discriminate].
  destruct (m_lookup mux cmd); [discriminate|].
  intros [= <-]. reflexivity.
Qed.

Lemma Handle_registers mux cmd h mux' :
  Handle mux cmd (Some h) = HandleOk mux' ->
  m_lookup mux cmd = None /\ m_lookup mux' cmd = Some h.
Proof.
  unfold Handle.
  destruct (Lock (mu mux)); [|discriminate].
  destruct (m_lookup mux cmd) eqn:E; [discriminate|].
  intros [= <-]. split; [reflexivity|].
  unfold m_lookup. simpl. apply lookup_insert_eq.
Qed.

(** C8: on a frame whose cmd has no registered handler, [ServeQRPC]
    returns with no handler called and no frame written; [Handle]
    panics on a nil handler and on a second registration of a cmd.
    The calls are taken where their lock can be acquired. *)
Theorem unknown_cmd_dropped_and_Handle_rejects (mux : ServeMux) :
  (forall w r,
      writer_held (mu mux) = false ->
      m_lookup mux (Cmd r) = None ->
      exists res,
        ServeQRPC mux w r = Some res /\
        s_called res = None /\ s_written res = [] /\ m (s_mux res) = m mux) /\
  (forall cmd,
      writer_held (mu mux) = false -> readers (mu mux) = 0%nat ->
      Handle mux cmd None = HandlePanic PanicNilHandler mux) /\
  (forall cmd h registered,
      writer_held (mu mux) = false -> readers (mu mux) = 0%nat ->
      m_lookup mux cmd = Some registered ->
      Handle mux cmd (Some h) =
        HandlePanic (PanicMultipleRegistrations cmd) mux).
Proof.
  split; [|split].
  - intros w r Hw Hnone. unfold ServeQRPC, RLock. rewrite Hw, Hnone.
    eexists. split; [reflexivity|]. simpl. auto.
  - intros cmd Hw Hr. unfold Handle. rewrite (Lock_free _ Hw Hr).
    destruct mux as [[wh rd] tbl]. simpl in *. subst. reflexivity.
  - intros cmd h reg Hw Hr Hreg. unfold Handle.
    rewrite (Lock_free _ Hw Hr), Hreg.
    destruct mux as [[wh rd] tbl]. simpl in *. subst. reflexivity.
Qed.

Lemma unknown_cmd_dropped_and_Handle_rejects_witness :
  (exists res,
      ServeQRPC NewServeMux (mkWriter 0) ping = Some res /\
      s_called res = None /\ s_written res = [] /\
      m (s_mux res) = m NewServeMux) /\
  Handle NewServeMux 7 None = HandlePanic PanicNilHandler NewServeMux /\
  Handle one_handler 7 (Some quiet) =
    HandlePanic (PanicMultipleRegistrations 7) one_handler.
Proof.
  split; [|split].
  - apply (unknown_cmd_dropped_and_Handle_rejects NewServeMux);
      reflexivity.
  - apply (unknown_cmd_dropped_and_Handle_rejects NewServeMux);
      reflexivity.
  - apply (unknown_cmd_dropped_and_Handle_rejects one_handler)
      with (registered := quiet); reflexivity.
Defined.

(** C10: [ServeQRPC] takes the read lock and gives it back only when
    the cmd has a handler; on the unknown-cmd path it returns with the
    read lock still held, so the lock is not released on every return
    path. *)
Theorem ServeQRPC_keeps_read_lock_on_unknown_cmd
        (mux : ServeMux) (w : FrameWriter) (r : RequestFrame) :
  writer_held (mu mux) = false ->
  exists res,
    ServeQRPC mux w r = Some res /\
    (m_lookup mux (Cmd r) = None ->
     readers (mu (s_mux res)) = S (readers (mu mux))) /\
    (is_Some (m_lookup mux (Cmd r)) ->
     readers (mu (s_mux res)) = readers (mu mux)).
Proof.
  intros Hw. unfold ServeQRPC, RLock. rewrite Hw.
  destruct (m_lookup mux (Cmd r)) as [h|] eqn:E.
  - eexists. split; [reflexivity|]. split.
    + discriminate.
    + intros _. reflexivity.
  - eexists. split; [reflexivity|]. split.
    + intros _. reflexivity.
    + intros [h Hh]. discriminate.
Qed.

Lemma ServeQRPC_keeps_read_lock_on_unknown_cmd_witness :
  exists res,
    ServeQRPC NewServeMux (mkWriter 0) ping = Some res /\
    (m_lookup NewServeMux (Cmd ping) = None ->
     readers (mu (s_mux res)) = S (readers (mu NewServeMux))) /\
    (is_Some (m_lookup NewServeMux (Cmd ping)) ->
     readers (mu (s_mux res)) = readers (mu NewServeMux)).
Proof.
  apply (ServeQRPC_keeps_read_lock_on_unknown_cmd NewServeMux (mkWriter 0) ping).
  reflexivity.
Defined.

(** After one dispatch of an unknown cmd the mutex can no longer be
    taken for writing: every later [Handle] blocks. *)
Lemma Handle_blocks_after_unknown_cmd mux w r res cmd h :
  ServeQRPC mux w r = Some res ->
  m_lookup mux (Cmd r) = None ->
  Handle (s_mux res) cmd h = HandleBlocked.
Proof.
  unfold ServeQRPC. destruct (RLock (mu mux)) as [mu1|] eqn:E; [|discriminate].
  intros Hs Hnone. rewrite Hnone in Hs. injection Hs as <-.
  apply RLock_readers in E as [Hr Hw].
  unfold Handle, Lock. simpl. rewrite Hw, Hr. reflexivity.
Qed.

(** No call leaves the mutex held for writing, so a dispatch never
    blocks in a program that calls the mux from one goroutine at a time;
    and while only registrations have been made the mutex is free. *)
Lemma mux_after_writer_free c mux :
  writer_held (mu mux) = false -> writer_held (mu (mux_after c mux)) = false.
Proof.
  intros Hw. destruct c as [cmd h|w r]; simpl.
  - unfold Handle, Lock. rewrite Hw.
    destruct (readers (mu mux)); [|exact Hw].
    destruct h as [h|]; [|reflexivity].
    destruct (m_lookup mux cmd); reflexivity.
  - unfold ServeQRPC, RLock. rewrite Hw.
    destruct (m_lookup mux (Cmd r)); reflexivity.
Qed.

Lemma mux_history_writer_free calls : forall mux,
  writer_held (mu mux) = false ->
  writer_held (mu (mux_history calls mux)) = false.
Proof.
  unfold mux_history.
  induction calls as [|c rest IH]; intros mux Hw; simpl; [exact Hw|].
  apply IH. apply mux_after_writer_free. exact Hw.
Qed.

Lemma registrations_leave_lock_free calls : forall mux,
  forallb is_registration calls = true ->
  mu mux = rw_free -> mu (mux_history calls mux) = rw_free.
Proof.
  unfold mux_history.
  induction calls as [|c rest IH]; intros mux Hreg Hfree; simpl; [exact Hfree|].
  simpl in Hreg. apply andb_true_iff in Hreg as [Hc Hrest].
  apply IH; [exact Hrest|].
  destruct c as [cmd h|w r]; [|discriminate]. simpl.
  unfold Handle. rewrite Hfree. simpl.
  destruct h as [h|]; [|reflexivity].
  destruct (m_lookup mux cmd); reflexivity.
Qed.

End MuxFacts.

(** ** Server: push, shutdown, accept and the identity registry *)

Module SrvFacts.

Import Net Srv.

Import Samples Invariants.

(** *** PushFrame *)

Lemma land_PushFlag_idem flags :
  Z.land (Z.land flags PushFlag) PushFlag = Z.land flags PushFlag.
Proof. rewrite <- Z.land_assoc, Z.land_diag. reflexivity. Qed.

(** What [PushFrame] hands to the writer: the given cmd and payload
    under the incremented push counter, with the caller's flags masked
    by [PushFlag]. *)
Lemma PushFrame_frame conn cmd flags payload w :
  let '(w', wr, out) := PushFrame conn cmd flags payload w in
  o_cmd out = cmd /\ o_payload out = payload /\
  o_requestID out = (pushID (srv w) + 1) mod uint64_mod /\
  pushID (srv w') = o_requestID out /\
  fw_id wr = next_alloc w /\
  o_flags out = Z.land flags PushFlag /\
  IsPush (o_flags out) = IsPush flags.
Proof.
  unfold PushFrame, GetWriter. simpl.
  repeat split. unfold IsPush. rewrite land_PushFlag_idem. reflexivity.
Qed.

(** C3: [PushFrame] called with a flags argument that lacks
    [PushFlag] (here 0) hands the writer a frame whose [PushFlag] is
    clear, although cmd, payload and the new push id are as given. *)
Theorem PushFrame_clear_flags_not_push conn cmd payload w :
  let '(w', wr, out) := PushFrame conn cmd 0 payload w in
  o_flags out = 0 /\ IsPush (o_flags out) = false /\
  o_cmd out = cmd /\ o_payload out = payload /\
  o_requestID out = (pushID (srv w) + 1) mod uint64_mod.
Proof. unfold PushFrame, GetWriter. simpl. repeat split. Qed.

(** *** Shutdown *)

Lemma close_all_keeps lns e : close_all lns (Some e) = Some e.
Proof.
  induction lns as [|ln rest IH]; simpl; [reflexivity|].
  destruct (ln_close_result ln); exact IH.
Qed.

Lemma close_all_none lns :
  close_all lns None = None <->
  Forall (fun ln => ln_close_result ln = None) lns.
Proof.
  induction lns as [|ln rest IH]; simpl.
  - split; [constructor | reflexivity].
  - destruct (ln_close_result ln) as [e|] eqn:E.
    + rewrite close_all_keeps. split; [discriminate|].
      intros HF. inversion HF; congruence.
    + rewrite IH. split.
      * intros HF. constructor; assumption.
      * intros HF. inversion HF; assumption.
Qed.

(** When no listener fails, [Shutdown] closes them all, unlocks,
    closes [doneChan] and waits. *)
Lemma Shutdown_clean s :
  mu_locked s = false -> doneChan_closed s = false ->
  Forall (fun ln => ln_close_result ln = None) (listeners s) ->
  exists s',
    Shutdown s = ShReturned None s' (map ln_id (listeners s)) true /\
    mu_locked s' = false /\ doneChan_closed s' = true /\ listeners s' = [].
Proof.
  intros Hmu Hdone HF. apply close_all_none in HF.
  unfold Shutdown, closeListenersLocked. rewrite Hmu. simpl.
  rewrite HF. simpl. rewrite Hdone.
  eexists. split; [reflexivity|]. simpl. auto.
Qed.

(** C5: when closing a listener reports an error, [Shutdown] has
    closed every listener but returns the error at once: the server
    lock is still held, [doneChan] is left as it was, and the wait on
    the goroutines is not reached. *)
Theorem Shutdown_listener_error_keeps_lock s e :
  mu_locked s = false ->
  close_all (listeners s) None = Some e ->
  exists s',
    Shutdown s = ShReturned (Some e) s' (map ln_id (listeners s)) false /\
    mu_locked s' = true /\
    doneChan_closed s' = doneChan_closed s /\
    listeners s' = [].
Proof.
  intros Hmu Herr. unfold Shutdown, closeListenersLocked.
  rewrite Hmu. simpl. rewrite Herr.
  eexists. split; [reflexivity|]. simpl. auto.
Qed.

Lemma Shutdown_listener_error_keeps_lock_witness :
  exists s',
    Shutdown server_with_failing_listener =
      ShReturned (Some (ErrNet 1)) s'
                 (map ln_id (listeners server_with_failing_listener)) false /\
    mu_locked s' = true /\
    doneChan_closed s' = doneChan_closed server_with_failing_listener /\
    listeners s' = [].
Proof.
  apply (Shutdown_listener_error_keeps_lock server_with_failing_listener
           (ErrNet 1)); reflexivity.
Defined.

(** After that return every later call that needs the server lock
    blocks, [Shutdown] itself included. *)
Lemma Shutdown_again_blocks s e s' closed waited :
  Shutdown s = ShReturned (Some e) s' closed waited ->
  Shutdown s' = ShBlocked.
Proof.
  unfold Shutdown, closeListenersLocked.
  destruct (mu_locked s); [discriminate|]. simpl.
  destruct (close_all (listeners s) None) as [e'|].
  - intros [= _ <- _ _]. reflexivity.
  - destruct (doneChan_closed s); discriminate.
Qed.

(** *** The accept loop *)

Lemma newConn_spec rw idx w w1 r :
  newConn rw idx w = (w1, r) ->
  next_alloc w1 = S (next_alloc w) /\
  conns w1 = <[next_alloc w := mkConn idx EmptyString false false [] rw 0 []]> (conns w) /\
  (forall p, r = inr p -> p = next_alloc w).
Proof.
  unfold newConn. simpl.
  destruct (activeConn (srv w) !! idx); intros [= <- <-]; simpl;
    (split; [reflexivity|split; [reflexivity|]]); intros p; congruence.
Qed.

Lemma accept_loop_grows idx script : forall d w,
  (next_alloc w <= next_alloc (se_world (accept_loop idx script d w)))%nat /\
  (forall q, (q < next_alloc w)%nat ->
             conns (se_world (accept_loop idx script d w)) !! q = conns w !! q).
Proof.
  induction script as [|st rest IH]; intros d w; simpl.
  - split; [lia | reflexivity].
  - destruct (acc_result st) as [rw| |e|e].
    + destruct (newConn rw idx w) as [w1 [v|c]] eqn:E;
        apply newConn_spec in E as (Hn & Hc & _); simpl.
      * rewrite Hn, Hc. split; [lia|]. intros q Hq.
        apply lookup_insert_ne. lia.
      * destruct (IH 0 w1) as [IH1 IH2]. rewrite Hn in *. split; [lia|].
        intros q Hq. rewrite IH2 by lia. rewrite Hc.
        apply lookup_insert_ne. lia.
    + destruct (acc_done st); simpl; [split; [lia|reflexivity]|]. apply IH.
    + destruct (acc_done st); simpl; [split; [lia|reflexivity]|]. apply IH.
    + destruct (acc_done st); simpl; split; (lia || reflexivity).
Qed.

(** C6: a connection the accept loop hands to [c.serve] carries the
    socket exactly as [l.AcceptTCP()] returned it; the loop sets neither
    the keep-alive option nor its period. *)
Theorem accepted_socket_left_as_accepted idx script d w p :
  p ∈ se_spawned (accept_loop idx script d w) ->
  exists tc done,
    mkStep (Accepted tc) done ∈ script /\
    sc_rwc <$> conns (se_world (accept_loop idx script d w)) !! p = Some tc.
Proof.
  revert d w. induction script as [|st rest IH]; intros d w; simpl.
  - intros Hin. inversion Hin.
  - destruct st as [res done]. simpl. destruct res as [rw| |e|e].
    + destruct (newConn rw idx w) as [w1 [v|c]] eqn:E; simpl.
      * intros Hin. inversion Hin.
      * intros Hin. apply elem_of_cons in Hin as [->|Hin].
        -- exists rw, done. split; [left|].
           apply newConn_spec in E as (Hn & Hc & Hp).
           specialize (Hp c eq_refl). subst c.
           destruct (accept_loop_grows idx rest 0 w1) as [_ Hold].
           rewrite Hold by lia. rewrite Hc, lookup_insert_eq. reflexivity.
        -- destruct (IH 0 w1 Hin) as (tc & dn & Hs & Hl).
           exists tc, dn. split; [right; exact Hs | exact Hl].
    + destruct done; simpl; [intros Hin; inversion Hin|].
      intros Hin. destruct (IH d w Hin) as (tc & dn & Hs & Hl).
      exists tc, dn. split; [right; exact Hs | exact Hl].
    + destruct done; simpl; [intros Hin; inversion Hin|].
      intros Hin. destruct (IH _ w Hin) as (tc & dn & Hs & Hl).
      exists tc, dn. split; [right; exact Hs | exact Hl].
    + destruct done; simpl; intros Hin; inversion Hin.
Qed.

Lemma accepted_socket_left_as_accepted_witness :
  exists tc done,
    mkStep (Accepted tc) done ∈ one_accept /\
    sc_rwc <$> conns (se_world
                        (accept_loop 0 one_accept 0 (fresh_world [binding0])))
               !! 0%nat = Some tc.
Proof.
  apply (accepted_socket_left_as_accepted 0 one_accept 0
           (fresh_world [binding0]) 0%nat).
  vm_compute. left.
Defined.

(** The same on a run of [serve]: the accepted connection has
    keep-alive off, where [tcpKeepAliveListener.Accept] would have
    turned it on with a period of three minutes. *)
Lemma serve_accepts_without_keepalive :
  (exists r,
      serve (mkListener 0 None) 0 one_accept (fresh_world [binding0]) = Some r /\
      se_spawned r = [0%nat] /\
      (so_keepAlive <$> (sc_rwc <$> conns (se_world r) !! 0%nat)) = Some false /\
      (so_keepAlivePeriod <$> (sc_rwc <$> conns (se_world r) !! 0%nat)) = Some 0) /\
  (exists tc,
      tcpKeepAliveListener_Accept (inl (plain_socket 5)) = inl tc /\
      so_keepAlive tc = true /\ so_keepAlivePeriod tc = 3 * Minute).
Proof.
  split.
  - eexists. split; [reflexivity|]. vm_compute. auto.
  - eexists. split; [reflexivity|]. split; reflexivity.
Qed.

(** The backoff of the accept loop is positive and at most 1 s. *)
Lemma next_delay_bounds d :
  0 <= d -> 0 < next_delay d <= 1 * Second.
Proof.
  intros Hd. unfold next_delay, Second, Millisecond.
  destruct (d =? 0) eqn:E0.
  - simpl. lia.
  - apply Z.eqb_neq in E0.
    destruct (1 * (1000 * 1000000) <? d * 2) eqn:E1.
    + lia.
    + apply Z.ltb_ge in E1. lia.
Qed.

(** *** The identity registry *)

Lemma NewServer_lengths bs :
  length (id2Conn (NewServer bs)) = 2%nat /\
  length (activeConn (NewServer bs)) = length bs.
Proof. split; [reflexivity|]. simpl. apply length_replicate. Qed.

(** [untrack] never changes the number of maps in [id2Conn]. *)
Lemma untrack_id2Conn_length p inLock w :
  match untrack p inLock w with
  | Blocked => True
  | Panicked _ w' | Returned _ w' =>
      length (id2Conn (srv w')) = length (id2Conn (srv w))
  end.
Proof.
  unfold untrack. destruct (conns w !! p) as [sc|]; [|reflexivity].
  destruct (negb inLock && mu_locked (srv w)); [exact I|].
  destruct (decide (sc_id sc = EmptyString)) as [Hid|Hid].
  - destruct inLock; simpl;
      destruct (activeConn (srv w) !! sc_idx sc); reflexivity.
  - destruct inLock; simpl;
      destruct (id2Conn (srv w) !! sc_idx sc); simpl; try reflexivity;
      destruct (activeConn (srv w) !! sc_idx sc); simpl;
      rewrite ?length_insert; reflexivity.
Qed.

Lemma bindID_out_of_range p id w sc :
  conns w !! p = Some sc ->
  mu_locked (srv w) = false ->
  (length (id2Conn (srv w)) <= sc_idx sc)%nat ->
  bindID p id w =
    Panicked (PanicIndexOutOfRange (sc_idx sc) (length (id2Conn (srv w))))
             (unlock (with_srv (with_mu true (srv w)) w)).
Proof.
  intros Hc Hmu Hlen. unfold bindID. rewrite Hc, Hmu. simpl.
  rewrite (lookup_ge_None_2 _ _ Hlen). reflexivity.
Qed.

(** C9 (as amended): [NewServer] gives [id2Conn] two maps whatever the
    number of bindings and [activeConn] one set per binding; so on a
    connection whose binding index is 2 or more, [SetID] with a
    non-empty id panics in [bindID] on the index, leaving the id set, and
    [untrack] panics on the index when the connection's id is not
    empty. *)
Theorem id2Conn_two_maps_overrun bs w p sc id :
  length (id2Conn (NewServer bs)) = 2%nat /\
  length (activeConn (NewServer bs)) = length bs /\
  (length (id2Conn (srv w)) = 2%nat ->
   mu_locked (srv w) = false ->
   conns w !! p = Some sc ->
   (2 <= sc_idx sc)%nat ->
   (id <> EmptyString ->
    exists w',
      SetID p id w = Panicked (PanicIndexOutOfRange (sc_idx sc) 2) w' /\
      sc_id <$> conns w' !! p = Some id /\
      mu_locked (srv w') = false) /\
   (sc_id sc <> EmptyString ->
    exists w',
      untrack p false w = Panicked (PanicIndexOutOfRange (sc_idx sc) 2) w' /\
      mu_locked (srv w') = false)).
Proof.
  destruct (NewServer_lengths bs) as [H2 Hact].
  split; [exact H2|]. split; [exact Hact|].
  intros Hlen Hmu Hc Hidx. split.
  - intros Hid. unfold SetID.
    destruct (decide (id = EmptyString)) as [E|_]; [contradiction|].
    rewrite Hc.
    rewrite (bindID_out_of_range p id (with_conn p (set_id id sc) w)
               (set_id id sc)); simpl.
    + rewrite Hlen. eexists. split; [reflexivity|]. simpl.
      rewrite lookup_insert_eq. split; reflexivity.
    + apply lookup_insert_eq.
    + exact Hmu.
    + lia.
  - intros Hid. unfold untrack. rewrite Hc, Hmu. simpl.
    destruct (decide (sc_id sc = EmptyString)) as [E|_]; [contradiction|].
    rewrite (lookup_ge_None_2 (id2Conn (srv w)) (sc_idx sc)) by lia.
    rewrite Hlen. eexists. split; reflexivity.
Qed.

Lemma id2Conn_two_maps_overrun_witness :
  (exists w',
      SetID 0 "alice" world3 = Panicked (PanicIndexOutOfRange 2 2) w' /\
      sc_id <$> conns w' !! 0%nat = Some "alice"%string /\
      mu_locked (srv w') = false) /\
  (exists w',
      untrack 0 false named_world3 = Panicked (PanicIndexOutOfRange 2 2) w' /\
      mu_locked (srv w') = false).
Proof.
  split.
  - apply (id2Conn_two_maps_overrun three_bindings world3 0%nat
             (mkConn 2 EmptyString false false [] (plain_socket 9) 0 []) "alice");
      first [reflexivity | simpl; lia | discriminate].
  - apply (id2Conn_two_maps_overrun three_bindings named_world3 0%nat
             (mkConn 2 "alice" false false [] (plain_socket 9) 0 []) "alice");
      first [reflexivity | simpl; lia | discriminate].
Defined.

(** C9 as first stated fails for [untrack]: on the same server a
    connection of the third binding whose id is still empty is untracked
    without a panic, since [id2Conn] is indexed only under
    the test that [sc.id] is not empty. *)
Lemma untrack_unnamed_conn_returns :
  length (bindings (srv world3)) = 3%nat /\
  (sc_idx <$> conns world3 !! 0%nat) = Some 2%nat /\
  (exists w', untrack 0 false world3 = Returned tt w') /\
  ~ (exists v w', untrack 0 false world3 = Panicked v w').
Proof.
  split; [reflexivity|]. split; [reflexivity|]. split.
  - eexists. vm_compute. reflexivity.
  - intros (v & w' & H). vm_compute in H. discriminate.
Qed.

(** An unnamed connection is untracked without a look at [id2Conn],
    whatever its binding index, as long as [activeConn] has its set. *)
Lemma untrack_unnamed_conn p w sc :
  conns w !! p = Some sc ->
  mu_locked (srv w) = false ->
  sc_id sc = EmptyString ->
  (sc_idx sc < length (activeConn (srv w)))%nat ->
  exists w', untrack p false w = Returned tt w' /\
             id2Conn (srv w') = id2Conn (srv w).
Proof.
  intros Hc Hmu Hid Hidx. unfold untrack. rewrite Hc, Hmu. simpl.
  destruct (decide (sc_id sc = EmptyString)) as [_|E]; [|contradiction].
  simpl. destruct (lookup_lt_is_Some_2 _ _ Hidx) as [act Hact].
  rewrite Hact. eexists. split; reflexivity.
Qed.

(** Identity takeover: when a second connection binds an id that the
    first one holds, the first is untracked and torn down and the id
    maps to the second. *)
Example identity_takeover :
  exists wa wb,
    SetID 0 "x" two_conn_world = Returned tt wa /\
    SetID 1 "x" wa = Returned tt wb /\
    (id2Conn (srv wb) !! 0%nat ≫= (fun tbl => tbl !! "x"%string)) = Some 1%nat /\
    (elements <$> activeConn (srv wb) !! 0%nat) = Some [1%nat] /\
    (sc_untrack <$> conns wb !! 0%nat) = Some true /\
    (so_close_calls <$> (sc_rwc <$> conns wb !! 0%nat)) = Some 1%nat /\
    mu_locked (srv wb) = false.
Proof.
  eexists. eexists. split; [vm_compute; reflexivity|].
  split; [vm_compute; reflexivity|]. vm_compute. repeat split.
Qed.

(** Binding the same id again on the same connection changes nothing
    and releases the lock. *)
Lemma bindID_same_conn p id w sc tbl :
  conns w !! p = Some sc ->
  mu_locked (srv w) = false ->
  id2Conn (srv w) !! sc_idx sc = Some tbl ->
  tbl !! id = Some p ->
  bindID p id w = Returned tt (unlock (with_srv (with_mu true (srv w)) w)).
Proof.
  intros Hc Hmu Ht Hid. unfold bindID. rewrite Hc, Hmu. simpl.
  rewrite Ht, Hid. destruct (decide (p = p)) as [_|Hne]; [reflexivity|].
  contradiction.
Qed.

End SrvFacts.

(** ** The serving connection: handler failure and the writer loop *)

Module ConnFacts.

Import Net Srv Conn.

Import Samples Invariants.

(** C2 as first stated fails: a handler that returned normally on a
    stream it left open is followed by the Rst frame all the same, and
    on a binding without a latency metric no sample is recorded. *)
Lemma rst_sent_without_failure :
  ~ rst_iff_failed metered open_frame 5 None (fresh_world [metered]) /\
  ~ rst_iff_failed binding0 open_frame 5 (Some (PanicUser "boom"))
      (fresh_world [binding0]).
Proof.
  split.
  - intros [[Hfwd _] _]. simpl in Hfwd.
    destruct Hfwd as [Herr _]; [discriminate|]. apply Herr. reflexivity.
  - intros [_ Hobs]. simpl in Hobs. discriminate.
Qed.

(** C2 (as amended): after a handler call, whether it panicked or not,
    [handleRequestPanic] submits one frame with [StreamRstFlag], cmd 0
    and the request id of the frame on a new writer exactly when the
    stream is not self-closed; the latency sample, tagged with the cmd
    and the recovered value, is recorded when the binding has a latency
    metric and not otherwise; a panic is logged. *)
Theorem rst_iff_stream_not_self_closed
        binding endWrite frame elapsed err w :
  let r := handleRequestPanic binding endWrite frame elapsed err w in
  (IsSelfClosed (FStream frame) = false ->
   hp_submitted r =
     [(mkWriter (next_alloc w), mkOut (RequestID frame) 0 StreamRstFlag [])]) /\
  (IsSelfClosed (FStream frame) = true -> hp_submitted r = []) /\
  (forall metric, LatencyMetric binding = Some metric ->
                  hp_observed r = [mkObs metric (Cmd frame) err elapsed]) /\
  (LatencyMetric binding = None -> hp_observed r = []) /\
  (forall v, err = Some v -> LogHandlerPanic v ∈ hp_logged r).
Proof.
  unfold handleRequestPanic, instrument, GetWriter. simpl.
  destruct (IsSelfClosed (FStream frame)); simpl.
  - split; [discriminate|]. split; [reflexivity|].
    split; [intros metric ->; reflexivity|].
    split; [intros ->; reflexivity|].
    intros v ->. left.
  - split; [reflexivity|]. split; [discriminate|].
    split; [intros metric ->; reflexivity|].
    split; [intros ->; reflexivity|].
    intros v ->. left.
Qed.

Lemma rst_iff_stream_not_self_closed_witness :
  hp_submitted (handleRequestPanic metered always_ok open_frame 5 None
                  (fresh_world [metered])) =
    [(mkWriter 0, mkOut 42 0 StreamRstFlag [])] /\
  hp_observed (handleRequestPanic metered always_ok open_frame 5 None
                 (fresh_world [metered])) =
    [mkObs 3 7 None 5].
Proof.
  split.
  - apply (rst_iff_stream_not_self_closed metered always_ok open_frame 5 None
             (fresh_world [metered])).
    reflexivity.
  - apply (rst_iff_stream_not_self_closed metered always_ok open_frame 5 None
             (fresh_world [metered])).
    reflexivity.
Defined.

(** *** The writer loop *)

Section WriterLoop.

Context {CS SRef : Type} `{StreamTable CS SRef}.

Lemma write_out_result (cs : CS) calls dfw werr :
  wr_result (write_out cs calls dfw werr) = werr /\
  wr_written (write_out cs calls dfw werr) = Some dfw /\
  wr_calls (write_out cs calls dfw werr) = calls /\
  wr_cs (write_out cs calls dfw werr) = cs /\
  wr_closed (write_out cs calls dfw werr) = bool_decide (werr <> None).
Proof. destruct werr; simpl; repeat split. Qed.

(** C7: the writer loop treats each submitted frame by the chain
    "if Rst ... else if not Push ... (else Push)", in this order.  A Rst
    frame on an id without a stream is answered with
    [ErrRstNonExistingStream]; a Rst frame whose [AddOutFrame] returns
    false is not written and answered with nil; otherwise, a frame
    without [PushFlag] whose [AddOutFrame] returns false is answered
    with [ErrWriteAfterCloseSelf]; otherwise, a frame with [PushFlag]
    makes no call on the stream table and is written. *)
Theorem writeFrames_round_cases (cs : CS) (dfw : OutFrame) (werr : option Error) :
  let r := writeFrames_round cs dfw werr in
  let flags := o_flags dfw in
  let requestID := o_requestID dfw in
  (IsRst flags = true -> GetStream cs requestID flags = None ->
   wr_result r = Some ErrRstNonExistingStream /\ wr_written r = None /\
   wr_closed r = false) /\
  (forall s cs1,
      IsRst flags = true -> GetStream cs requestID flags = Some s ->
      AddOutFrame cs s requestID flags = (cs1, false) ->
      wr_result r = None /\ wr_written r = None /\ wr_closed r = false) /\
  (forall s cs1 cs2,
      IsRst flags = false -> IsPush flags = false ->
      CreateOrGetStream cs requestID flags = (cs1, s) ->
      AddOutFrame cs1 s requestID flags = (cs2, false) ->
      wr_result r = Some ErrWriteAfterCloseSelf /\ wr_written r = None /\
      wr_closed r = false) /\
  (IsPush flags = true -> IsRst flags = false ->
   wr_calls r = [] /\ wr_cs r = cs /\ wr_written r = Some dfw /\
   wr_result r = werr).
Proof.
  unfold writeFrames_round. simpl. split; [|split; [|split]].
  - intros HR HG. rewrite HR, HG. simpl. auto.
  - intros s cs1 HR HG HA. rewrite HR, HG, HA. simpl. auto.
  - intros s cs1 cs2 HR HP HC HA. rewrite HR, HP, HC, HA. simpl. auto.
  - intros HP HR. rewrite HR, HP. simpl.
    destruct (write_out_result cs [] dfw werr) as (H1 & H2 & H3 & H4 & _).
    auto.
Qed.

End WriterLoop.

Lemma writeFrames_round_cases_witness :
  (wr_result (writeFrames_round (∅ : gmap Z Stream)
                (mkOut 9 1 StreamRstFlag []) None)
   = Some ErrRstNonExistingStream) /\
  (wr_result (writeFrames_round closed_stream_table
                (mkOut 9 1 StreamRstFlag []) None) = None /\
   wr_written (writeFrames_round closed_stream_table
                 (mkOut 9 1 StreamRstFlag []) None) = None) /\
  (wr_result (writeFrames_round closed_stream_table (mkOut 9 1 0 []) None)
   = Some ErrWriteAfterCloseSelf) /\
  (wr_calls (writeFrames_round closed_stream_table (mkOut 9 1 PushFlag []) None)
   = []).
Proof.
  split; [|split; [|split]].
  - apply (writeFrames_round_cases (∅ : gmap Z Stream)
             (mkOut 9 1 StreamRstFlag []) None); reflexivity.
  - pose proof (writeFrames_round_cases closed_stream_table
                  (mkOut 9 1 StreamRstFlag []) None) as (_ & Hb & _).
    destruct (Hb 9 closed_stream_table) as (H1 & H2 & _);
      [reflexivity | reflexivity | reflexivity |].
    split; assumption.
  - pose proof (writeFrames_round_cases closed_stream_table
                  (mkOut 9 1 0 []) None) as (_ & _ & Hc & _).
    destruct (Hc 9 closed_stream_table closed_stream_table) as (H1 & _);
      [reflexivity | reflexivity | reflexivity | reflexivity |].
    exact H1.
  - apply (writeFrames_round_cases closed_stream_table
             (mkOut 9 1 PushFlag []) None); reflexivity.
Defined.

(** The Rst test comes first in the chain: a frame that carries the Rst
    flag together with [PushFlag] is treated as a Rst frame. *)
Lemma push_frame_with_rst_meets_stream_table :
  IsPush (o_flags push_rst_frame) = true /\
  wr_calls (writeFrames_round (∅ : gmap Z Stream) push_rst_frame None)
  = [CallGetStream 9 20] /\
  wr_written (writeFrames_round (∅ : gmap Z Stream) push_rst_frame None) = None /\
  wr_result (writeFrames_round (∅ : gmap Z Stream) push_rst_frame None)
  = Some ErrRstNonExistingStream.
Proof. repeat split. Qed.

(** A frame pushed with clear flags is an ordinary stream frame for the
    writer loop: a stream is created under the push id. *)
Lemma PushFrame_clear_flags_enters_stream_table conn cmd payload w :
  let '(_, _, out) := PushFrame conn cmd 0 payload w in
  wr_calls (writeFrames_round (∅ : gmap Z Stream) out None) =
    [CallCreateOrGetStream (o_requestID out) 0;
     CallAddOutFrame (o_requestID out) 0].
Proof.
  unfold PushFrame, GetWriter. simpl.
  unfold writeFrames_round. simpl.
  rewrite lookup_empty. simpl. unfold spec_AddOutFrame.
  rewrite lookup_insert_eq. reflexivity.
Qed.

(** Every request taken from [writeFrameCh] gets one answer. *)
Lemma writeFrames_answers_each (cs : gmap Z Stream) reqs :
  length (writeFrames cs reqs) = length reqs.
Proof.
  revert cs. induction reqs as [|[dfw werr] rest IH]; intros cs; simpl;
    [reflexivity|].
  rewrite IH. reflexivity.
Qed.

(** A socket write that fails closes the connection and is reported to
    the caller. *)
Lemma writeFrames_round_write_error (cs : gmap Z Stream) dfw e :
  IsRst (o_flags dfw) = false -> IsPush (o_flags dfw) = true ->
  wr_closed (writeFrames_round cs dfw (Some e)) = true /\
  wr_result (writeFrames_round cs dfw (Some e)) = Some e.
Proof.
  intros HR HP. unfold writeFrames_round. rewrite HR, HP. simpl.
  split; reflexivity.
Qed.

End ConnFacts.

(** ** The dispatch loop, the reader and the gate *)

Module ServingFacts.

Import Conn.

Import Samples Invariants.

Lemma serving_init_inv input n0 : serving_inv input n0 (serving_init input n0).
Proof.
  constructor; simpl; try reflexivity; try discriminate; try lia.
  exists input. split; reflexivity.
Qed.

Ltac inv_start Hinv Hstep :=
  match type of Hinv with
  | serving_inv _ _ ?st =>
      destruct st as [inp rd gate dp done wr nxt tasks handed inl_calls sig];
      destruct Hinv as [Hwr Hnext [tl [Hord Htl]] Hinl Htasks Hbusy Hidle
                          Hgate Hcur Hflag Hfresh Hdist];
      simpl in *
  end.

Ltac same := first [assumption | reflexivity | discriminate | eauto; fail | lia].

Lemma not_busy_when_reading dp gate rd sig (handed : list RequestFrame) :
  (busy dp = true ->
   gate = false /\ reader_held rd = true /\ S sig = length handed) ->
  reader_held rd = false -> busy dp = false.
Proof.
  intros Hbusy Hrd. destruct (busy dp); [|reflexivity].
  destruct (Hbusy eq_refl) as (_ & Hh & _). congruence.
Qed.

Lemma readFrames_step_inv input n0 st st' :
  serving_inv input n0 st -> readFrames_step st = Some st' ->
  serving_inv input n0 st'.
Proof.
  intros Hinv Hstep. inv_start Hinv Hstep. unfold readFrames_step in Hstep.
  simpl in Hstep. destruct rd as [|f| |c]; try discriminate.
  - pose proof (not_busy_when_reading _ _ _ _ _ Hbusy eq_refl) as Hnb.
    assert (Hg : gate = false).
    { destruct gate; [|reflexivity]. specialize (Hgate eq_refl). discriminate. }
    specialize (Htl eq_refl). subst tl gate.
    destruct inp as [|[f|e] rest]; try discriminate;
      injection Hstep as <-; constructor; simpl; try same.
    + exists rest. split; [exact Hord | reflexivity].
    + exists (inr e :: rest). split; [exact Hord | discriminate].
    + rewrite Hnb. discriminate.
  - destruct gate; [|discriminate]. injection Hstep as <-.
    assert (Hnb : busy dp = false).
    { destruct (busy dp) eqn:E; [|reflexivity].
      destruct (Hbusy eq_refl) as (Hg & _). discriminate. }
    constructor; simpl; try same.
    rewrite Hnb. discriminate.
Qed.

Lemma readFrames_quit_inv input n0 st st' :
  serving_inv input n0 st -> readFrames_quit st = Some st' ->
  serving_inv input n0 st'.
Proof.
  intros Hinv Hstep. inv_start Hinv Hstep. unfold readFrames_quit in Hstep.
  simpl in Hstep.
  destruct rd as [|f| |c]; try discriminate;
    (destruct done; [|discriminate]); injection Hstep as <-;
    constructor; simpl; try same.
  - exists (inl f :: tl). split; [exact Hord | discriminate].
  - intros Hb. destruct (Hbusy Hb) as (Hg & _ & Hs). auto.
Qed.

Lemma handoff_inv input n0 st st' :
  serving_inv input n0 st -> handoff st = Some st' ->
  serving_inv input n0 st'.
Proof.
  intros Hinv Hstep. inv_start Hinv Hstep. unfold handoff in Hstep.
  simpl in Hstep.
  destruct rd as [|f| |c]; try discriminate.
  destruct dp; try discriminate.
  assert (Hg : gate = false).
  { destruct gate; [|reflexivity]. specialize (Hgate eq_refl). discriminate. }
  specialize (Hidle eq_refl). specialize (Htl eq_refl). subst gate sig tl wr.
  assert (Hex : input = (map inl handed ++ [inl f]) ++ inp).
  { rewrite <- app_assoc. exact Hord. }
  simpl in Htasks. rewrite app_nil_r in Htasks.
  destruct (IsNonBlock (Flags f)) eqn:Enb; simpl in Hstep;
    injection Hstep as <-; constructor; simpl;
    rewrite ?List.filter_app, ?map_app, ?length_app; simpl;
    unfold blocking, nonblocking in *; rewrite ?Enb; simpl;
    rewrite ?app_nil_r; try same;
    try (exists inp; split; [exact Hex | reflexivity]);
    try (intros f0 [= <-]; apply last_snoc).
  - rewrite Htasks. reflexivity.
  - rewrite Hinl. reflexivity.
Qed.

Lemma serve_loop_step_inv input n0 st st' :
  serving_inv input n0 st -> serve_loop_step st = Some st' ->
  serving_inv input n0 st'.
Proof.
  intros Hinv Hstep. inv_start Hinv Hstep.
  unfold serve_loop_step, readMore in Hstep. simpl in Hstep.
  destruct dp as [|f|f|f|f|]; try discriminate.
  - injection Hstep as <-. constructor; simpl; try same.
  - destruct (Hbusy eq_refl) as (Hg & Hh & Hs). subst gate.
    injection Hstep as <-. constructor; simpl; try same.
  - destruct (Hbusy eq_refl) as (Hg & Hh & Hs). subst gate.
    injection Hstep as <-. constructor; simpl; try same.
  - injection Hstep as <-. constructor; simpl; try same.
    + rewrite map_app, app_nil_r. exact Htasks.
    + intros i f0 t w Hl Hw. apply lookup_snoc_Some in Hl as [[_ Hl]|[_ E]].
      * eapply Hfresh; eassumption.
      * injection E as <- <-. discriminate.
    + intros i j fi ti fj tj w Hi Hj Hwi Hwj.
      apply lookup_snoc_Some in Hi as [[_ Hi]|[_ E]];
        [|injection E as <- <-; discriminate].
      apply lookup_snoc_Some in Hj as [[_ Hj]|[_ E]];
        [|injection E as <- <-; discriminate].
      eapply Hdist; eassumption.
Qed.

Lemma serve_loop_quit_inv input n0 st st' :
  serving_inv input n0 st -> serve_loop_quit st = Some st' ->
  serving_inv input n0 st'.
Proof.
  intros Hinv Hstep. inv_start Hinv Hstep. unfold serve_loop_quit in Hstep.
  simpl in Hstep. destruct dp; try discriminate.
  destruct done; [|discriminate]. injection Hstep as <-.
  constructor; simpl; try same.
Qed.

Lemma cancel_ctx_inv input n0 st :
  serving_inv input n0 st -> serving_inv input n0 (cancel_ctx st).
Proof.
  intros Hinv. destruct Hinv. constructor; simpl; try same.
Qed.

Lemma map_fst_insert_same (tasks : list (RequestFrame * TaskPc)) i f t t' :
  tasks !! i = Some (f, t) ->
  map fst (<[i := (f, t')]> tasks) = map fst tasks.
Proof.
  intros Hl. change (fst <$> <[i := (f, t')]> tasks = fst <$> tasks).
  rewrite list_fmap_insert. apply list_insert_id.
  rewrite list_lookup_fmap, Hl. reflexivity.
Qed.

Lemma task_step_inv input n0 i st st' :
  serving_inv input n0 st -> task_step i st = Some st' ->
  serving_inv input n0 st'.
Proof.
  intros Hinv Hstep. inv_start Hinv Hstep. unfold task_step in Hstep.
  simpl in Hstep.
  destruct (tasks !! i) as [[f [|w|w]]|] eqn:Hi; try discriminate;
    injection Hstep as <-; constructor; simpl; try same;
    rewrite ?(map_fst_insert_same _ _ _ _ _ Hi); try same.
  - intros j fj tj wj Hj Hwj.
    apply list_lookup_insert_Some in Hj as [(<- & E & _)|(Hne & Hj)].
    + injection E as <- <-. injection Hwj as <-. simpl. lia.
    + specialize (Hfresh j fj tj wj Hj Hwj). lia.
  - intros j k fj tj fk tk w Hj Hk Hwj Hwk.
    apply list_lookup_insert_Some in Hj as [(<- & Ej & _)|(Hnj & Hj)];
      apply list_lookup_insert_Some in Hk as [(<- & Ek & _)|(Hnk & Hk)].
    + reflexivity.
    + injection Ej as <- <-. injection Hwj as <-.
      specialize (Hfresh k fk tk _ Hk Hwk). simpl in Hfresh. lia.
    + injection Ek as <- <-. injection Hwk as <-.
      specialize (Hfresh j fj tj _ Hj Hwj). simpl in Hfresh. lia.
    + eapply Hdist; eassumption.
  - intros j fj tj wj Hj Hwj.
    apply list_lookup_insert_Some in Hj as [(<- & E & _)|(Hne & Hj)].
    + injection E as <- <-. injection Hwj as <-.
      apply (Hfresh i f (TkRunning w) w Hi eq_refl).
    + apply (Hfresh j fj tj wj Hj Hwj).
  - intros j k fj tj fk tk w' Hj Hk Hwj Hwk.
    apply list_lookup_insert_Some in Hj as [(<- & Ej & _)|(Hnj & Hj)];
      apply list_lookup_insert_Some in Hk as [(<- & Ek & _)|(Hnk & Hk)].
    + reflexivity.
    + injection Ej as <- <-. injection Hwj as <-.
      apply (Hdist i k f (TkRunning w) fk tk w Hi Hk eq_refl Hwk).
    + injection Ek as <- <-. injection Hwk as <-.
      apply (Hdist j i fj tj f (TkRunning w) w Hj Hi Hwj eq_refl).
    + eapply Hdist; eassumption.
Qed.

Lemma serving_step_inv input n0 a st st' :
  serving_inv input n0 st -> serving_step a st = Some st' ->
  serving_inv input n0 st'.
Proof.
  intros Hinv Hstep. destruct a; simpl in Hstep.
  - eapply readFrames_step_inv; eassumption.
  - eapply readFrames_quit_inv; eassumption.
  - eapply handoff_inv; eassumption.
  - eapply serve_loop_step_inv; eassumption.
  - eapply serve_loop_quit_inv; eassumption.
  - eapply task_step_inv; eassumption.
  - injection Hstep as <-. apply cancel_ctx_inv. exact Hinv.
Qed.

Lemma serving_run_inv input n0 sched : forall st,
  serving_inv input n0 st -> serving_inv input n0 (serving_run sched st).
Proof.
  induction sched as [|a rest IH]; intros st Hinv; simpl; [exact Hinv|].
  apply IH. destruct (serving_step a st) as [st'|] eqn:E; [|exact Hinv].
  eapply serving_step_inv; eassumption.
Qed.

Lemma filter_all_true {A} (p : A -> bool) l x :
  In x (List.filter p l) -> p x = true.
Proof. intros Hin. apply List.filter_In in Hin as [_ Hp]. exact Hp. Qed.

(** C4: in every state the goroutines of a connection reach, under any
    schedule: the inline handler calls are the frames without
    [NonBlockFlag] in arrival order, each with [sc.writer]; while such a
    call runs (and until [readMore]) the gate holds no token, the signal
    for the frame has not been given and the reader cannot parse; a frame
    with [NonBlockFlag] is spawned only once its signal has been given;
    tasks run only such frames, each with a writer handle that is not
    [sc.writer] and not that of another task. *)
Theorem dispatch_order input n0 sched :
  let st := serving_run sched (serving_init input n0) in
  sv_inline st =
    map (fun f => (f, sv_writer st)) (List.filter blocking (sv_handed st)) /\
  map inl (sv_handed st) `prefix_of` input /\
  (forall f, sv_dp st = DpInline f \/ sv_dp st = DpReadMore f ->
             IsNonBlock (Flags f) = false /\ last (sv_handed st) = Some f /\
             sv_gate st = false /\ reader_held (sv_rd st) = true /\
             S (sv_signals st) = length (sv_handed st)) /\
  (forall f, sv_dp st = DpNonBlock f ->
             IsNonBlock (Flags f) = true /\ last (sv_handed st) = Some f /\
             S (sv_signals st) = length (sv_handed st)) /\
  (forall f, sv_dp st = DpSpawn f ->
             IsNonBlock (Flags f) = true /\ last (sv_handed st) = Some f /\
             sv_signals st = length (sv_handed st)) /\
  (forall i f t, sv_tasks st !! i = Some (f, t) ->
                 IsNonBlock (Flags f) = true) /\
  (forall i f t w, sv_tasks st !! i = Some (f, t) -> task_writer t = Some w ->
                   w <> sv_writer st /\
                   forall j fj tj, sv_tasks st !! j = Some (fj, tj) ->
                                   task_writer tj = Some w -> i = j).
Proof.
  intros st.
  pose proof (serving_run_inv input n0 sched _ (serving_init_inv input n0))
    as Hinv.
  fold st in Hinv.
  destruct Hinv as [Hwr Hnext [tl [Hord Htl]] Hinl Htasks Hbusy Hidle
                      Hgate Hcur Hflag Hfresh Hdist].
  split; [rewrite Hwr; exact Hinl|].
  split; [exists (pending (sv_rd st) ++ tl); exact Hord|].
  split.
  { intros f [E|E]; rewrite E in *; simpl in *;
      destruct (Hbusy eq_refl) as (Hg & Hh & Hs);
      unfold blocking in Hflag; apply negb_true_iff in Hflag; auto. }
  split.
  { intros f E. rewrite E in *. simpl in *.
    destruct (Hbusy eq_refl) as (Hg & Hh & Hs). auto. }
  split.
  { intros f E. rewrite E in *. simpl in *. auto. }
  split.
  { intros i f t Hl. apply (filter_all_true nonblocking (sv_handed st)).
    rewrite <- Htasks. apply in_or_app. left.
    apply (in_map fst _ (f, t)). apply list_elem_of_In.
    apply list_elem_of_lookup. exists i. exact Hl. }
  intros i f t w Hl Hw. split.
  - intros ->. specialize (Hfresh i f t _ Hl Hw). rewrite Hwr in Hfresh.
    simpl in Hfresh. lia.
  - intros j fj tj Hj Hwj. eapply Hdist; eassumption.
Qed.

(** X20: [readMore] never blocks the dispatch loop: whenever the loop
    is about to signal the gate, after an inline handler or before
    spawning, the gate is empty, under every schedule. *)
Lemma readMore_never_blocks input n0 sched f :
  let st := serving_run sched (serving_init input n0) in
  sv_dp st = DpReadMore f \/ sv_dp st = DpNonBlock f ->
  is_Some (serve_loop_step st).
Proof.
  intros st Hdp.
  pose proof (serving_run_inv input n0 sched _ (serving_init_inv input n0))
    as Hinv.
  fold st in Hinv. destruct Hinv as [_ _ _ _ _ Hbusy _ _ _ _ _ _].
  unfold serve_loop_step, readMore.
  destruct Hdp as [E|E]; rewrite E in *; simpl in *;
    destruct (Hbusy eq_refl) as (-> & _); eexists; reflexivity.
Qed.

(** A run over three frames: the first and third are served inline in
    that order with [sc.writer], the second in a task with its own
    writer. *)
Example dispatch_three_frames :
  let st := serving_run
              [Reader; Handoff; Reader; Dispatcher; Reader; Dispatcher; Reader;
               Reader; Handoff; Dispatcher; Dispatcher; Task 0; Reader; Reader;
               Handoff; Task 0; Dispatcher; Dispatcher]
              (serving_init three_frames 0) in
  sv_inline st = [(frame_a, mkWriter 0); (frame_c, mkWriter 0)] /\
  sv_tasks st = [(frame_b, TkDone (mkWriter 1))] /\
  sv_signals st = 3%nat /\ sv_dp st = DpSelect /\ sv_rd st = RdGate.
Proof. vm_compute. repeat split. Qed.

Lemma dispatch_order_witness :
  IsNonBlock (Flags frame_a) = false /\
  last (sv_handed (serving_run [Reader; Handoff; Reader; Reader]
                     (serving_init three_frames 0))) = Some frame_a /\
  sv_gate (serving_run [Reader; Handoff; Reader; Reader]
             (serving_init three_frames 0)) = false /\
  reader_held (sv_rd (serving_run [Reader; Handoff; Reader; Reader]
                        (serving_init three_frames 0))) = true /\
  S (sv_signals (serving_run [Reader; Handoff; Reader; Reader]
                   (serving_init three_frames 0))) =
    length (sv_handed (serving_run [Reader; Handoff; Reader; Reader]
                         (serving_init three_frames 0))).
Proof.
  apply (dispatch_order three_frames 0 [Reader; Handoff; Reader; Reader]).
  left. reflexivity.
Defined.

End ServingFacts.

(** ** Close from several callers *)

Module ClosingFacts.

Import Net Srv Conn.

Import Samples Invariants.

Local Open Scope nat_scope.

Lemma tally_replicate g n pc : tally g (replicate n pc) = (n * g pc)%nat.
Proof.
  unfold tally. induction n as [|n IH]; simpl; [reflexivity|].
  rewrite IH. reflexivity.
Qed.

Lemma tally_insert g pcs i x y :
  pcs !! i = Some x ->
  (tally g (<[i := y]> pcs) + g x = tally g pcs + g y)%nat.
Proof.
  unfold tally. revert i. induction pcs as [|a rest IH]; intros i Hl.
  - rewrite lookup_nil in Hl. discriminate.
  - destruct i as [|i]; simpl in *.
    + injection Hl as ->. lia.
    + specialize (IH i Hl). lia.
Qed.

Lemma closing_init_inv w p n sc0 :
  closable w p sc0 -> closing_inv p sc0 (closing_init w p n).
Proof.
  intros (Hc & Hmu & Hid & Hact & Hch).
  constructor; simpl; auto.
  - exists sc0. rewrite !tally_replicate. simpl.
    repeat split; auto; try lia.
    intros [i Hi]. apply lookup_replicate in Hi as [Hi _]. discriminate.
  - rewrite !tally_replicate. simpl. rewrite Nat.mul_0_r. reflexivity.
  - intros i rest Hi. apply lookup_replicate in Hi as [Hi _]. discriminate.
  - intros i v Hi. apply lookup_replicate in Hi as [Hi _]. discriminate.
Qed.

(** With the lock free and the registries long enough [untrack] returns
    and changes the server only. *)
Lemma untrack_returns p w sc :
  conns w !! p = Some sc ->
  mu_locked (srv w) = false ->
  sc_id sc = EmptyString \/ (sc_idx sc < length (id2Conn (srv w)))%nat ->
  (sc_idx sc < length (activeConn (srv w)))%nat ->
  exists s',
    untrack p false w = Returned tt (mkWorld s' (conns w) (next_alloc w)) /\
    mu_locked s' = false /\
    length (id2Conn s') = length (id2Conn (srv w)) /\
    length (activeConn s') = length (activeConn (srv w)).
Proof.
  intros Hc Hmu Hid Hact. unfold untrack. rewrite Hc, Hmu. simpl.
  destruct (lookup_lt_is_Some_2 _ _ Hact) as [act Hl].
  destruct (decide (sc_id sc = EmptyString)) as [E|E]; simpl.
  - rewrite Hl. eexists. split; [reflexivity|]. simpl.
    rewrite length_insert. auto.
  - destruct Hid as [Hid|Hid]; [contradiction|].
    destruct (lookup_lt_is_Some_2 _ _ Hid) as [tbl Ht]. rewrite Ht. simpl.
    rewrite Hl. eexists. split; [reflexivity|]. simpl.
    rewrite !length_insert. auto.
Qed.

Lemma insert_rest_bound (cbs : list nat) (pcs : list ClosePc) i y :
  (forall j rest, pcs !! j = Some (CpNotify rest) -> length rest <= length cbs) ->
  (forall rest, y = CpNotify rest -> length rest <= length cbs) ->
  forall j rest, <[i := y]> pcs !! j = Some (CpNotify rest) ->
                 length rest <= length cbs.
Proof.
  intros Hold Hy j rest Hj.
  apply list_lookup_insert_Some in Hj as [(_ & E & _)|(_ & Hj)].
  - apply Hy. exact E.
  - eapply Hold. exact Hj.
Qed.

Lemma insert_nopanic (pcs : list ClosePc) i y :
  (forall j v, pcs !! j <> Some (CpPanicked v)) ->
  (forall v, y <> CpPanicked v) ->
  forall j v, <[i := y]> pcs !! j <> Some (CpPanicked v).
Proof.
  intros Hold Hy j v Hj.
  apply list_lookup_insert_Some in Hj as [(_ & E & _)|(_ & Hj)].
  - exact (Hy v E).
  - exact (Hold j v Hj).
Qed.

Lemma insert_wait (pcs : list ClosePc) i y :
  (exists j, <[i := y]> pcs !! j = Some CpWait) ->
  y = CpWait \/ exists j, pcs !! j = Some CpWait.
Proof.
  intros [j Hj].
  apply list_lookup_insert_Some in Hj as [(_ & E & _)|(_ & Hj)].
  - left. exact E.
  - right. exists j. exact Hj.
Qed.

Ltac tallies Hi y :=
  match type of Hi with
  | ?pcs !! ?i = Some ?x =>
      pose proof (tally_insert past_socket pcs i x y Hi);
      pose proof (tally_insert got_nil pcs i x y Hi);
      pose proof (tally_insert cancelled pcs i x y Hi)
  end.

Ltac retally :=
  repeat match goal with
         | H : tally ?g (<[?i := ?y]> ?pcs) + _ = _ |- _ =>
             first
               [ assert (tally g (<[i := y]> pcs) = tally g pcs) as -> by lia
               | assert (tally g (<[i := y]> pcs) = S (tally g pcs)) as ->
                   by lia ];
             clear H
         end.

Ltac list_side Hrest Hnp :=
  first
    [ apply insert_rest_bound;
      [exact Hrest | intros ? E; first [discriminate E | injection E as <-]]
    | apply insert_nopanic; [exact Hnp | intros ?; discriminate] ].

Lemma close_step_inv p sc0 i st st' :
  closing_inv p sc0 st -> close_step i st = Some st' ->
  closing_inv p sc0 st'.
Proof.
  intros Hinv Hstep. destruct st as [w q pcs].
  destruct Hinv as [Hq Hmu Hid Hact
                      (sc & Hc & Hidx & Hsid & Hcbs & Hres & Hch & Hwait &
                       Hcalls & Hcan & Hlog) Hnil Hrest Hnp].
  simpl in *. subst q. unfold close_step in Hstep. simpl in Hstep.
  destruct (pcs !! i) as [pc|] eqn:Hi; [|discriminate].
  rewrite Hc in Hstep.
  pose proof (fun y => tally_insert (ran (sc_closeNotify sc0)) pcs i pc y Hi)
    as Hran.
  destruct pc as [| | | |rest|err|v].
  - (* untrack *)
    unfold untrack_once in Hstep. rewrite Hc in Hstep.
    destruct (sc_untrack sc) eqn:Hflag.
    + injection Hstep as <-. tallies Hi CpWait. specialize (Hran CpWait).
      simpl in *.
      constructor; simpl; auto; try list_side Hrest Hnp.
      * exists sc. repeat split; auto; lia.
      * retally. exact Hnil.
    + destruct (untrack_returns p w sc Hc Hmu) as (s' & Hu & Hmu' & Hl1 & Hl2);
        [rewrite Hidx, Hsid; exact Hid | rewrite Hidx; exact Hact |].
      rewrite Hu in Hstep. injection Hstep as <-.
      tallies Hi CpSocket. specialize (Hran CpSocket). simpl in *.
      constructor; simpl; auto; try list_side Hrest Hnp.
      * rewrite Hl1. exact Hid.
      * rewrite Hl2. exact Hact.
      * exists (set_untracked sc). rewrite lookup_insert_eq. simpl.
        repeat split; auto; lia.
      * retally. exact Hnil.
  - (* <-ch *)
    destruct (sc_untrackedCh_closed sc) eqn:Hclosed; [|discriminate].
    injection Hstep as <-. tallies Hi CpSocket. specialize (Hran CpSocket).
    simpl in *.
    constructor; simpl; auto; try list_side Hrest Hnp.
    + exists sc. repeat split; auto; try lia.
      intros Hw. apply insert_wait in Hw as [E|Hw]; [discriminate|].
      apply Hwait. exact Hw.
    + retally. exact Hnil.
  - (* sc.rwc.Close() *)
    unfold Net.Close in Hstep. simpl in Hstep.
    destruct (so_close_result (sc_rwc sc) (so_close_calls (sc_rwc sc)))
      as [e|] eqn:Hans; injection Hstep as <-.
    + tallies Hi (CpDone (Some e)). specialize (Hran (CpDone (Some e))).
      simpl in *.
      constructor; simpl; auto; try list_side Hrest Hnp.
      * exists (set_rwc (mkTCP (so_id (sc_rwc sc)) (so_keepAlive (sc_rwc sc))
                           (so_keepAlivePeriod (sc_rwc sc))
                           (so_close_result (sc_rwc sc))
                           (S (so_close_calls (sc_rwc sc)))) sc).
        rewrite lookup_insert_eq. simpl. repeat split; auto; try lia.
        intros Hw. apply insert_wait in Hw as [E|Hw]; [discriminate|].
        apply Hwait. exact Hw.
      * retally. simpl. rewrite <- Hnil, <- Hcalls, <- Hres, Hans. lia.
    + tallies Hi CpCancel. specialize (Hran CpCancel). simpl in *.
      constructor; simpl; auto; try list_side Hrest Hnp.
      * exists (set_rwc (mkTCP (so_id (sc_rwc sc)) (so_keepAlive (sc_rwc sc))
                           (so_keepAlivePeriod (sc_rwc sc))
                           (so_close_result (sc_rwc sc))
                           (S (so_close_calls (sc_rwc sc)))) sc).
        rewrite lookup_insert_eq. simpl. repeat split; auto; try lia.
        intros Hw. apply insert_wait in Hw as [E|Hw]; [discriminate|].
        apply Hwait. exact Hw.
      * retally. simpl. rewrite <- Hnil, <- Hcalls, <- Hres, Hans. lia.
  - (* sc.cancelCtx() *)
    injection Hstep as <-.
    tallies Hi (CpNotify (sc_closeNotify sc)).
    specialize (Hran (CpNotify (sc_closeNotify sc))). simpl in *.
    rewrite Hcbs in *.
    constructor; simpl; auto; try list_side Hrest Hnp; try lia.
    + exists (cancel sc). rewrite lookup_insert_eq. simpl.
      repeat split; auto; try lia.
      intros Hw. apply insert_wait in Hw as [E|Hw]; [discriminate|].
      apply Hwait. exact Hw.
    + retally. exact Hnil.
  - (* the loop over closeNotify *)
    pose proof (Hrest i rest Hi) as Hbound.
    destruct rest as [|f rest]; injection Hstep as <-.
    + tallies Hi (CpDone None). specialize (Hran (CpDone None)). simpl in *.
      constructor; simpl; auto; try list_side Hrest Hnp.
      * exists sc. repeat split; auto; try lia.
        intros Hw. apply insert_wait in Hw as [E|Hw]; [discriminate|].
        apply Hwait. exact Hw.
      * retally. exact Hnil.
    + tallies Hi (CpNotify rest). specialize (Hran (CpNotify rest)).
      simpl in *.
      constructor; simpl; auto; try list_side Hrest Hnp; try lia.
      * exists (notify f sc). rewrite lookup_insert_eq. simpl.
        repeat split; auto; try lia.
        intros Hw. apply insert_wait in Hw as [E|Hw]; [discriminate|].
        apply Hwait. exact Hw.
      * retally. exact Hnil.
  - discriminate.
  - discriminate.
Qed.

Lemma close_run_inv p sc0 sched : forall st,
  closing_inv p sc0 st -> closing_inv p sc0 (close_run sched st).
Proof.
  induction sched as [|i rest IH]; intros st Hinv; simpl; [exact Hinv|].
  apply IH. destruct (close_step i st) as [st'|] eqn:E; [|exact Hinv].
  eapply close_step_inv; eassumption.
Qed.

(** A caller that has not returned can always move: nobody waits for
    ever on [untrackedCh]. *)
Lemma close_step_progress p sc0 st i pc :
  closing_inv p sc0 st ->
  cl_pcs st !! i = Some pc -> returned pc = false ->
  is_Some (close_step i st).
Proof.
  intros Hinv Hi Hret. destruct st as [w q pcs].
  destruct Hinv as [Hq Hmu Hid Hact
                      (sc & Hc & Hidx & Hsid & Hcbs & Hres & Hch & Hwait & _)
                      _ _ Hnp].
  simpl in *. subst q. unfold close_step. simpl. rewrite Hi, Hc.
  destruct pc as [| | | |rest|err|v].
  - unfold untrack_once. rewrite Hc. destruct (sc_untrack sc); [eexists; reflexivity|].
    destruct (untrack_returns p w sc Hc Hmu) as (s' & Hu & _);
      [rewrite Hidx, Hsid; exact Hid | rewrite Hidx; exact Hact |].
    rewrite Hu. eexists. reflexivity.
  - rewrite Hch; [eexists; reflexivity|]. apply Hwait. exists i. exact Hi.
  - unfold Net.Close.
    destruct (so_close_result (sc_rwc sc) (so_close_calls (sc_rwc sc)));
      eexists; reflexivity.
  - eexists. reflexivity.
  - destruct rest; eexists; reflexivity.
  - discriminate.
  - destruct (Hnp i v Hi).
Qed.

(** Every move uses up one of the caller's remaining steps. *)
Lemma close_step_decreases p sc0 st i st' :
  closing_inv p sc0 st -> close_step i st = Some st' ->
  tally (steps_left (sc_closeNotify sc0)) (cl_pcs st') <
  tally (steps_left (sc_closeNotify sc0)) (cl_pcs st).
Proof.
  intros Hinv Hstep. destruct st as [w q pcs].
  destruct Hinv as [Hq _ _ _ (sc & Hc & _ & _ & Hcbs & _) _ Hrest _].
  simpl in *. subst q. unfold close_step in Hstep. simpl in Hstep.
  destruct (pcs !! i) as [pc|] eqn:Hi; [|discriminate].
  rewrite Hc in Hstep.
  pose proof (fun y => tally_insert (steps_left (sc_closeNotify sc0)) pcs i pc y Hi)
    as Hm.
  destruct pc as [| | | |rest|err|v]; try discriminate.
  - destruct (untrack_once p false w) as [|v w'|[|] w']; try discriminate;
      injection Hstep as <-; simpl.
    + specialize (Hm (CpPanicked v)). simpl in Hm. lia.
    + specialize (Hm CpSocket). simpl in Hm. lia.
    + specialize (Hm CpWait). simpl in Hm. lia.
  - destruct (sc_untrackedCh_closed sc); [|discriminate].
    injection Hstep as <-. simpl. specialize (Hm CpSocket). simpl in Hm. lia.
  - unfold Net.Close in Hstep. simpl in Hstep.
    destruct (so_close_result (sc_rwc sc) (so_close_calls (sc_rwc sc)))
      as [e|]; injection Hstep as <-; simpl.
    + specialize (Hm (CpDone (Some e))). simpl in Hm. lia.
    + specialize (Hm CpCancel). simpl in Hm. lia.
  - injection Hstep as <-. simpl.
    specialize (Hm (CpNotify (sc_closeNotify sc))). simpl in Hm.
    rewrite Hcbs in *. lia.
  - destruct rest as [|f rest]; injection Hstep as <-; simpl.
    + specialize (Hm (CpDone None)). simpl in Hm. lia.
    + specialize (Hm (CpNotify rest)). simpl in Hm. lia.
Qed.

Lemma forallb_false_lookup {A} (g : A -> bool) (l : list A) :
  forallb g l = false -> exists i x, l !! i = Some x /\ g x = false.
Proof.
  induction l as [|a rest IH]; simpl; [discriminate|].
  destruct (g a) eqn:E; simpl.
  - intros Hf. destruct (IH Hf) as (i & x & Hl & Hx).
    exists (S i), x. split; assumption.
  - intros _. exists 0, a. split; [reflexivity | exact E].
Qed.

(** From every reachable state some schedule lets all callers return. *)
Lemma close_completes p sc0 : forall m st,
  closing_inv p sc0 st ->
  tally (steps_left (sc_closeNotify sc0)) (cl_pcs st) <= m ->
  exists sched, all_returned (close_run sched st) = true.
Proof.
  induction m as [|m IH]; intros st Hinv Hm;
    destruct (all_returned st) eqn:Hall;
    try (exists []; exact Hall);
    destruct (forallb_false_lookup _ _ Hall) as (i & pc & Hi & Hret);
    destruct (close_step_progress p sc0 st i pc Hinv Hi Hret) as [st' Hstep];
    pose proof (close_step_decreases p sc0 st i st' Hinv Hstep) as Hdec.
  - lia.
  - destruct (IH st') as [sched Hs].
    + eapply close_step_inv; eassumption.
    + lia.
    + exists (i :: sched). simpl. rewrite Hstep. exact Hs.
Qed.

Lemma close_step_length i st st' :
  close_step i st = Some st' ->
  length (cl_pcs st') = length (cl_pcs st) /\ cl_conn st' = cl_conn st.
Proof.
  unfold close_step.
  destruct (cl_pcs st !! i) as [pc|]; [|discriminate].
  destruct pc as [| | | |rest|err|v];
    repeat match goal with
           | |- context [match ?x with _ => _ end] => destruct x
           end;
    try discriminate; intros [= <-]; simpl;
    rewrite length_insert; split; reflexivity.
Qed.

Lemma close_run_length sched : forall st,
  length (cl_pcs (close_run sched st)) = length (cl_pcs st).
Proof.
  induction sched as [|i rest IH]; intros st; simpl; [reflexivity|].
  rewrite IH. destruct (close_step i st) as [st'|] eqn:E; [|reflexivity].
  apply close_step_length in E as [E _]. exact E.
Qed.

(** Once all callers have returned, each has made its socket call, and
    those answered with nil are the ones that cancelled and ran all the
    callbacks. *)
Lemma tally_all_returned (cbs : list nat) pcs :
  forallb returned pcs = true ->
  tally past_socket pcs = length pcs /\
  tally cancelled pcs = tally got_nil pcs /\
  tally (ran cbs) pcs = length cbs * tally got_nil pcs.
Proof.
  unfold tally. induction pcs as [|pc rest IH]; simpl.
  - intros _. repeat split. lia.
  - intros Hall. apply andb_true_iff in Hall as [Hpc Hrest].
    destruct (IH Hrest) as (H1 & H2 & H3).
    destruct pc as [| | | |r|[e|]|v]; try discriminate; simpl; lia.
Qed.

(** A second call of [untrack] finds the flag set and does nothing. *)
Lemma untrack_once_first_only p w w' :
  untrack_once p false w = Returned true w' ->
  untrack_once p false w' = Returned false w'.
Proof.
  unfold untrack_once. destruct (conns w !! p) as [sc|]; [|discriminate].
  destruct (sc_untrack sc); [discriminate|].
  destruct (untrack p false w) as [|v w1|u w1]; try discriminate.
  intros [= <-]. simpl. rewrite lookup_insert_eq. reflexivity.
Qed.

(** The counts once all callers have returned. *)
Lemma close_counts w p n sc0 sched :
  closable w p sc0 ->
  let st := close_run sched (closing_init w p n) in
  all_returned st = true ->
  socket_closes st = so_close_calls (sc_rwc sc0) + n /\
  returned_nil st =
    nil_answers (so_close_result (sc_rwc sc0))
                (so_close_calls (sc_rwc sc0)) n /\
  cancels st = ctx_cancel_calls sc0 + returned_nil st /\
  length (callbacks_run st) =
    length (notified sc0) + length (sc_closeNotify sc0) * returned_nil st.
Proof.
  intros Hclosable st Hall.
  pose proof (closing_init_inv w p n sc0 Hclosable) as Hinit.
  pose proof (close_run_inv p sc0 sched _ Hinit) as Hinv. fold st in Hinv.
  pose proof (close_run_length sched (closing_init w p n)) as Hlen.
  fold st in Hlen. simpl in Hlen. rewrite length_replicate in Hlen.
  destruct Hinv as [Hq _ _ _
                      (sc & Hc & _ & _ & _ & _ & _ & _ & Hcalls & Hcan & Hlog)
                      Hnil _ _].
  destruct (tally_all_returned (sc_closeNotify sc0) (cl_pcs st) Hall)
    as (H1 & H2 & H3).
  unfold socket_closes, cancels, callbacks_run, returned_nil.
  rewrite Hq, Hc, length_rev. rewrite H1, Hlen in *. rewrite H2 in Hcan.
  rewrite H3 in Hlog. auto.
Qed.

(** *** The order of events among the callers *)

Lemma interleaved_snoc {A} (runs : list (list A)) log :
  interleaved runs log ->
  forall i r x, runs !! i = Some r ->
                interleaved (<[i := r ++ [x]]> runs) (log ++ [x]).
Proof.
  induction 1 as [runs Hall|runs j y r0 log Hj Hrest IH]; intros i r x Hi.
  - assert (r = []) as -> by exact (Forall_lookup_1 _ _ _ _ Hall Hi).
    simpl. apply (interleaved_cons _ i x [] []).
    + apply list_lookup_insert_eq. eapply lookup_lt_Some. exact Hi.
    + rewrite list_insert_insert_eq. constructor.
      apply Forall_insert; [exact Hall | reflexivity].
  - simpl. destruct (decide (i = j)) as [->|Hne].
    + rewrite Hj in Hi. injection Hi as <-.
      apply (interleaved_cons _ j y (r0 ++ [x])).
      * apply list_lookup_insert_eq. eapply lookup_lt_Some. exact Hj.
      * rewrite list_insert_insert_eq.
        specialize (IH j r0 x). rewrite list_insert_insert_eq in IH.
        apply IH. apply list_lookup_insert_eq. eapply lookup_lt_Some. exact Hj.
    + apply (interleaved_cons _ j y r0).
      * rewrite list_lookup_insert_ne by exact Hne. exact Hj.
      * rewrite list_insert_insert_ne by congruence.
        apply IH. rewrite list_lookup_insert_ne by congruence. exact Hi.
Qed.

Lemma concat_insert_cons {A} (runs : list (list A)) i x r :
  runs !! i = Some (x :: r) ->
  concat runs ≡ₚ x :: concat (<[i := r]> runs).
Proof.
  revert i. induction runs as [|a rest IH]; intros i Hi.
  - rewrite lookup_nil in Hi. discriminate.
  - destruct i as [|i]; simpl in *.
    + injection Hi as ->. reflexivity.
    + rewrite (IH i Hi). symmetry. apply Permutation_middle.
Qed.

(** An interleaving of lists has the elements of all of them, as often
    as they have them. *)
Lemma interleaved_concat {A} (runs : list (list A)) log :
  interleaved runs log -> log ≡ₚ concat runs.
Proof.
  induction 1 as [runs Hall|runs j y r0 log Hj Hrest IH].
  - induction Hall as [|r rest -> _ IH]; [reflexivity | exact IH].
  - rewrite (concat_insert_cons runs j y r0 Hj). apply Permutation_skip.
    exact IH.
Qed.

(** Two passes through the callbacks 1, 2 cannot show as four runs of
    callback 1. *)
Example interleaved_tells_callbacks_apart :
  ~ interleaved [[1; 2]; [1; 2]] [1; 1; 1; 1].
Proof.
  intros H. apply interleaved_concat in H. simpl in H.
  assert (Hin : 2 ∈ [1; 1; 1; 1]).
  { rewrite H. apply (bool_decide_unpack _). vm_compute. exact I. }
  revert Hin. apply (bool_decide_unpack _). vm_compute. exact I.
Qed.

Lemma map_insert_lookup {A B} (g : A -> B) (l : list A) i x y :
  l !! i = Some x ->
  map g l !! i = Some (g x) /\ map g (<[i := y]> l) = <[i := g y]> (map g l).
Proof.
  revert i. induction l as [|a rest IH]; intros i Hi.
  - rewrite lookup_nil in Hi. discriminate.
  - destruct i as [|i]; simpl in *.
    + injection Hi as ->. split; reflexivity.
    + destruct (IH i Hi) as [H1 H2]. split; [exact H1|].
      rewrite H2. reflexivity.
Qed.

Lemma map_insert_same {A B} (g : A -> B) (l : list A) i x y :
  l !! i = Some x -> g y = g x -> map g (<[i := y]> l) = map g l.
Proof.
  intros Hi Hg. destruct (map_insert_lookup g l i x y Hi) as [H1 H2].
  rewrite H2, Hg. apply list_insert_id. exact H1.
Qed.

Lemma omap_insert_same {A B} (g : A -> option B) (l : list A) i x y :
  l !! i = Some x -> g y = g x -> omap g (<[i := y]> l) = omap g l.
Proof.
  revert i. induction l as [|a rest IH]; intros i Hi Hg.
  - rewrite lookup_nil in Hi. discriminate.
  - destruct i as [|i]; simpl in *.
    + injection Hi as ->. rewrite Hg. reflexivity.
    + destruct (g a); [f_equal|]; exact (IH i Hi Hg).
Qed.

Lemma omap_insert_new {A B} (g : A -> option B) (l : list A) i x y b :
  l !! i = Some x -> g x = None -> g y = Some b ->
  omap g (<[i := y]> l) ≡ₚ omap g l ++ [b].
Proof.
  revert i. induction l as [|a rest IH]; intros i Hi Hx Hy.
  - rewrite lookup_nil in Hi. discriminate.
  - destruct i as [|i]; simpl in *.
    + injection Hi as ->. rewrite Hx, Hy. apply Permutation_cons_append.
    + specialize (IH i Hi Hx Hy). destruct (g a) as [c|]; [|exact IH].
      simpl. apply Permutation_skip. exact IH.
Qed.

Lemma socket_answers_S res from k :
  socket_answers res from (S k) = socket_answers res from k ++ [res (from + k)].
Proof.
  unfold socket_answers. rewrite seq_S, map_app. reflexivity.
Qed.

Lemma progress_tail (cbs done rest : list nat) :
  cbs = done ++ rest -> take (length cbs - length rest) cbs = done.
Proof.
  intros ->. rewrite length_app.
  replace (length done + length rest - length rest) with (length done) by lia.
  apply take_app_length.
Qed.

Lemma closing_order_init w p n sc0 :
  conns w !! p = Some sc0 -> closing_order sc0 (closing_init w p n).
Proof.
  intros Hc. constructor; simpl.
  - rewrite tally_replicate. simpl. rewrite Nat.mul_0_r.
    induction n as [|n IH]; [reflexivity | exact IH].
  - intros i rest Hi. apply lookup_replicate in Hi as [Hi _]. discriminate.
  - exists sc0, []. split; [exact Hc|]. split; [rewrite app_nil_r; reflexivity|].
    constructor. induction n as [|n IH]; simpl; constructor; auto.
Qed.

(** A move that changes neither the caller's answer nor the callbacks
    it has run, and leaves the log alone. *)
Lemma closing_order_quiet sc0 w w' p pcs i x y sc sc' :
  closing_order sc0 (mkClosing w p pcs) ->
  pcs !! i = Some x ->
  conns w !! p = Some sc -> conns w' !! p = Some sc' ->
  notified sc' = notified sc ->
  answer y = answer x -> past_socket y = past_socket x ->
  progress (sc_closeNotify sc0) y = progress (sc_closeNotify sc0) x ->
  (forall rest, y = CpNotify rest ->
                exists done, sc_closeNotify sc0 = done ++ rest) ->
  closing_order sc0 (mkClosing w' p (<[i := y]> pcs)).
Proof.
  intros [Hans Htail (sc1 & log & Hc1 & Hlog & Hil)] Hi Hc Hc' Hn Ha Hp Hg Hy.
  simpl in *. rewrite Hc in Hc1. injection Hc1 as <-.
  pose proof (tally_insert past_socket pcs i x y Hi) as Ht.
  constructor; simpl.
  - rewrite (omap_insert_same answer pcs i x y Hi Ha).
    replace (tally past_socket (<[i := y]> pcs)) with (tally past_socket pcs)
      by lia.
    exact Hans.
  - intros j rest Hj.
    apply list_lookup_insert_Some in Hj as [(_ & E & _)|(_ & Hj)].
    + apply Hy. exact E.
    + eapply Htail. exact Hj.
  - exists sc', log. split; [exact Hc'|]. split; [rewrite Hn; exact Hlog|].
    rewrite (map_insert_same _ pcs i x y Hi Hg). exact Hil.
Qed.

Lemma closing_order_step p sc0 i st st' :
  closing_inv p sc0 st -> closing_order sc0 st ->
  close_step i st = Some st' -> closing_order sc0 st'.
Proof.
  intros Hinv Hord Hstep. destruct st as [w q pcs].
  destruct Hinv as [Hq Hmu Hid Hact
                      (sc & Hc & Hidx & Hsid & Hcbs & Hres & _ & _ & Hcalls & _)
                      _ _ _].
  simpl in *. subst q. unfold close_step in Hstep. simpl in Hstep.
  destruct (pcs !! i) as [pc|] eqn:Hi; [|discriminate].
  rewrite Hc in Hstep.
  destruct pc as [| | | |rest|err|v]; try discriminate.
  - (* untrack *)
    unfold untrack_once in Hstep. rewrite Hc in Hstep.
    destruct (sc_untrack sc).
    + injection Hstep as <-. unfold set_pc. simpl.
      eapply closing_order_quiet; eauto. intros rest E. discriminate E.
    + destruct (untrack_returns p w sc Hc Hmu) as (s' & Hu & _);
        [rewrite Hidx, Hsid; exact Hid | rewrite Hidx; exact Hact |].
      rewrite Hu in Hstep. injection Hstep as <-. unfold set_pc. simpl.
      eapply (closing_order_quiet sc0 w _ p pcs i CpStart CpSocket sc
                (set_untracked sc)); eauto.
      * simpl. apply lookup_insert_eq.
      * intros rest E. discriminate E.
  - (* <-ch *)
    destruct (sc_untrackedCh_closed sc); [|discriminate].
    injection Hstep as <-. unfold set_pc. simpl.
    eapply closing_order_quiet; eauto. intros rest E. discriminate E.
  - (* sc.rwc.Close() *)
    destruct Hord as [Hans Htail (sc1 & log & Hc1 & Hlog & Hil)].
    simpl in *. rewrite Hc in Hc1. injection Hc1 as <-.
    unfold Net.Close in Hstep. simpl in Hstep.
    assert (Hnew : forall y,
               answer y = Some (so_close_result (sc_rwc sc)
                                  (so_close_calls (sc_rwc sc))) ->
               past_socket y = 1 ->
               omap answer (<[i := y]> pcs) ≡ₚ
               socket_answers (so_close_result (sc_rwc sc0))
                 (so_close_calls (sc_rwc sc0))
                 (tally past_socket (<[i := y]> pcs))).
    { intros y Hy Hp.
      pose proof (tally_insert past_socket pcs i CpSocket y Hi) as Ht.
      simpl in Ht.
      replace (tally past_socket (<[i := y]> pcs))
        with (S (tally past_socket pcs)) by lia.
      rewrite Hres, Hcalls in Hy. rewrite socket_answers_S.
      rewrite (omap_insert_new answer pcs i CpSocket y _ Hi eq_refl Hy).
      apply Permutation_app_tail. exact Hans. }
    destruct (so_close_result (sc_rwc sc) (so_close_calls (sc_rwc sc)))
      as [e|] eqn:Hanswer; injection Hstep as <-; unfold set_pc; simpl;
      (constructor; simpl;
       [ apply Hnew; reflexivity
       | intros j rest Hj;
         apply list_lookup_insert_Some in Hj as [(_ & E & _)|(_ & Hj)];
         [discriminate E | eapply Htail; exact Hj]
       | eexists; exists log; rewrite lookup_insert_eq;
         split; [reflexivity|]; split; [exact Hlog|];
         match goal with
         | |- context [<[i := ?y]> pcs] =>
             rewrite (map_insert_same (progress (sc_closeNotify sc0))
                        pcs i CpSocket y Hi eq_refl)
         end; exact Hil ]).
  - (* sc.cancelCtx() *)
    injection Hstep as <-. unfold set_pc. simpl.
    eapply (closing_order_quiet sc0 w _ p pcs i CpCancel _ sc (cancel sc));
      eauto.
    + simpl. apply lookup_insert_eq.
    + simpl. rewrite Hcbs, Nat.sub_diag. reflexivity.
    + intros rest E. injection E as <-. exists []. rewrite Hcbs. reflexivity.
  - (* the loop over closeNotify *)
    destruct rest as [|f rest]; injection Hstep as <-; unfold set_pc; simpl.
    + eapply closing_order_quiet; eauto.
      * simpl. rewrite Nat.sub_0_r. symmetry. apply take_ge. lia.
      * intros rest E. discriminate E.
    + destruct Hord as [Hans Htail (sc1 & log & Hc1 & Hlog & Hil)].
      simpl in *. rewrite Hc in Hc1. injection Hc1 as <-.
      destruct (Htail i (f :: rest) Hi) as [done Hdone].
      pose proof (tally_insert past_socket pcs i _ (CpNotify rest) Hi) as Ht.
      simpl in Ht.
      destruct (map_insert_lookup (progress (sc_closeNotify sc0)) pcs i
                  (CpNotify (f :: rest)) (CpNotify rest) Hi) as [Hl Hm].
      cbn [progress] in Hl, Hm.
      rewrite (progress_tail _ done (f :: rest) Hdone) in Hl.
      assert (Hdone' : sc_closeNotify sc0 = (done ++ [f]) ++ rest)
        by (rewrite <- app_assoc; exact Hdone).
      rewrite (progress_tail _ (done ++ [f]) rest Hdone') in Hm.
      constructor; simpl.
      * rewrite (omap_insert_same answer pcs i _ (CpNotify rest) Hi eq_refl).
        replace (tally past_socket (<[i := CpNotify rest]> pcs))
          with (tally past_socket pcs) by lia.
        exact Hans.
      * intros j r Hj.
        apply list_lookup_insert_Some in Hj as [(_ & E & _)|(_ & Hj)].
        -- injection E as <-. exists (done ++ [f]). exact Hdone'.
        -- eapply Htail. exact Hj.
      * exists (notify f sc), (log ++ [f]). rewrite lookup_insert_eq.
        split; [reflexivity|]. simpl. split.
        -- rewrite Hlog, app_assoc. reflexivity.
        -- rewrite Hm. apply interleaved_snoc; assumption.
Qed.

Lemma closing_order_run p sc0 sched : forall st,
  closing_inv p sc0 st -> closing_order sc0 st ->
  closing_order sc0 (close_run sched st).
Proof.
  induction sched as [|i rest IH]; intros st Hinv Hord; simpl; [exact Hord|].
  destruct (close_step i st) as [st'|] eqn:E.
  - apply IH.
    + eapply close_step_inv; eassumption.
    + eapply closing_order_step; eassumption.
  - apply IH; assumption.
Qed.

(** Once all callers have returned, the answers they got are the values
    they returned, and each has run all the callbacks or none. *)
Lemma all_returned_order (cbs : list nat) pcs :
  forallb returned pcs = true ->
  omap answer pcs = omap result pcs /\
  map (progress cbs) pcs = map (pass cbs) (omap result pcs) /\
  length (omap result pcs) = length pcs /\
  tally got_nil pcs =
    length (filter (fun r => r = None) (omap result pcs)).
Proof.
  unfold tally. induction pcs as [|pc rest IH]; simpl.
  - intros _. repeat split.
  - intros Hall. apply andb_true_iff in Hall as [Hpc Hrest].
    destruct (IH Hrest) as (H1 & H2 & H3 & H4).
    unfold omap in H1, H2, H3, H4.
    destruct pc as [| | | |r|[e|]|v]; try discriminate; simpl.
    + rewrite filter_cons_False by discriminate.
      rewrite H1, H2, H3, H4. repeat split.
    + rewrite H1, H2, H3, H4. repeat split.
Qed.

(** The order of events once all callers have returned. *)
Lemma close_order w p n sc0 sched :
  closable w p sc0 ->
  let st := close_run sched (closing_init w p n) in
  all_returned st = true ->
  length (results st) = n /\
  results st ≡ₚ
    socket_answers (so_close_result (sc_rwc sc0)) (so_close_calls (sc_rwc sc0))
                   n /\
  returned_nil st = length (filter (fun r => r = None) (results st)) /\
  exists log,
    callbacks_run st = rev (notified sc0) ++ log /\
    interleaved (map (pass (sc_closeNotify sc0)) (results st)) log.
Proof.
  intros Hclosable st Hall.
  pose proof (closing_init_inv w p n sc0 Hclosable) as Hinit.
  pose proof (close_run_inv p sc0 sched _ Hinit) as Hinv. fold st in Hinv.
  destruct Hclosable as (Hc0 & _).
  pose proof (closing_order_run p sc0 sched _ Hinit
                (closing_order_init w p n sc0 Hc0)) as Hord.
  fold st in Hord.
  pose proof (close_run_length sched (closing_init w p n)) as Hlen.
  fold st in Hlen. simpl in Hlen. rewrite length_replicate in Hlen.
  destruct Hord as [Hans _ (sc & log & Hc & Hlog & Hil)].
  destruct (all_returned_order (sc_closeNotify sc0) (cl_pcs st) Hall)
    as (H1 & H2 & H3 & H4).
  destruct (tally_all_returned (sc_closeNotify sc0) (cl_pcs st) Hall)
    as (Hps & _).
  unfold results, returned_nil, callbacks_run.
  rewrite Hc.
  split; [rewrite H3; exact Hlen|].
  split; [rewrite <- H1; rewrite Hps, Hlen in Hans; exact Hans|].
  split; [exact H4|].
  exists log. split; [exact Hlog|]. rewrite <- H2. exact Hil.
Qed.

(** C1 (as amended): when [Close] is called by [n] goroutines on a
    registered connection, every caller runs the teardown itself.  All
    of them can return, and once they have: the socket's [Close] has
    been called [n] times, once by each caller; the [n] values returned
    are, one for each caller, the answers of the socket to these [n]
    calls; the context has been cancelled once for each caller that
    returned nil, and the callbacks that ran since the start are those
    callers' passes through the [closeNotify] list, one whole pass in
    the order of the list for each, the passes interleaved. *)
Theorem Close_tears_down_per_caller w p n sc0 :
  closable w p sc0 ->
  (exists sched, all_returned (close_run sched (closing_init w p n)) = true) /\
  (forall sched,
      let st := close_run sched (closing_init w p n) in
      all_returned st = true ->
      socket_closes st = so_close_calls (sc_rwc sc0) + n /\
      length (results st) = n /\
      results st ≡ₚ
        socket_answers (so_close_result (sc_rwc sc0))
                       (so_close_calls (sc_rwc sc0)) n /\
      returned_nil st = length (filter (fun r => r = None) (results st)) /\
      returned_nil st =
        nil_answers (so_close_result (sc_rwc sc0))
                    (so_close_calls (sc_rwc sc0)) n /\
      cancels st = ctx_cancel_calls sc0 + returned_nil st /\
      length (callbacks_run st) =
        length (notified sc0) + length (sc_closeNotify sc0) * returned_nil st /\
      exists log,
        callbacks_run st = rev (notified sc0) ++ log /\
        interleaved (map (pass (sc_closeNotify sc0)) (results st)) log).
Proof.
  intros Hclosable. split.
  - eapply close_completes;
      [exact (closing_init_inv w p n sc0 Hclosable) | reflexivity].
  - intros sched st Hall.
    destruct (close_counts w p n sc0 sched Hclosable Hall)
      as (Hs & Hn & Hc & Hl).
    destruct (close_order w p n sc0 sched Hclosable Hall)
      as (Hr & Hp & Hk & Hlog).
    repeat (split; [assumption|]). exact Hlog.
Qed.

Lemma listening_world_closable : closable listening_world 0 conn0.
Proof.
  repeat split; try discriminate; try (right; simpl; lia); simpl; auto.
Defined.

Lemma notifying_world_closable :
  closable notifying_world 0 conn_with_callbacks.
Proof.
  repeat split; try discriminate; try (right; simpl; lia); simpl; auto.
Defined.

Lemma Close_tears_down_per_caller_witness :
  let st := close_run [0; 0; 0; 0; 1; 1; 1; 1; 1; 0; 0; 1; 1]
              (closing_init notifying_world 0 2) in
  socket_closes st = 0 + 2 /\
  length (results st) = 2 /\
  results st ≡ₚ socket_answers (fun _ => None) 0 2 /\
  returned_nil st = length (filter (fun r => r = None) (results st)) /\
  returned_nil st = nil_answers (fun _ => None) 0 2 /\
  cancels st = 0 + returned_nil st /\
  length (callbacks_run st) = 0 + 2 * returned_nil st /\
  exists log,
    callbacks_run st = [] ++ log /\
    interleaved (map (pass [1; 2]) (results st)) log.
Proof.
  destruct (Close_tears_down_per_caller notifying_world 0 2
              conn_with_callbacks notifying_world_closable) as [_ Hall].
  exact (Hall [0; 0; 0; 0; 1; 1; 1; 1; 1; 0; 0; 1; 1] eq_refl).
Defined.

(** C1 as first stated fails: two callers of [Close] on one connection,
    run one after the other, both call the socket's [Close], and with a
    socket that accepts only the first call they return different
    values. *)
Lemma Close_twice_closes_socket_twice :
  ~ teardown_exactly_once listening_world 0 2.
Proof.
  intros Hclaim.
  destruct (Hclaim [0; 0; 0; 0; 1; 1; 1] eq_refl) as (Hcount & _).
  vm_compute in Hcount. discriminate.
Qed.

(** *** A socket that accepts only the first Close *)

Lemma tally_lookup_le g (pcs : list ClosePc) i x :
  pcs !! i = Some x -> g x <= tally g pcs.
Proof.
  unfold tally. revert i. induction pcs as [|a rest IH]; intros i Hl.
  - rewrite lookup_nil in Hl. discriminate.
  - destruct i as [|i]; simpl in *.
    + injection Hl as ->. lia.
    + specialize (IH i Hl). lia.
Qed.

Lemma tally_lookup2_le g (pcs : list ClosePc) i j x y :
  i <> j -> pcs !! i = Some x -> pcs !! j = Some y ->
  g x + g y <= tally g pcs.
Proof.
  unfold tally. revert i j. induction pcs as [|a rest IH]; intros i j Hne Hi Hj.
  - rewrite lookup_nil in Hi. discriminate.
  - destruct i as [|i], j as [|j]; simpl in *.
    + contradiction.
    + injection Hi as ->. pose proof (tally_lookup_le g rest j y Hj) as H.
      unfold tally in H. lia.
    + injection Hj as ->. pose proof (tally_lookup_le g rest i x Hi) as H.
      unfold tally in H. lia.
    + assert (Hne' : i <> j) by congruence.
      specialize (IH i j Hne' Hi Hj). lia.
Qed.

Lemma tally_le g h (pcs : list ClosePc) :
  (forall pc, g pc <= h pc) -> tally g pcs <= tally h pcs.
Proof.
  intros Hle. unfold tally. induction pcs as [|a rest IH]; simpl; [lia|].
  specialize (Hle a). lia.
Qed.

Lemma tally_positive g (pcs : list ClosePc) :
  1 <= tally g pcs -> exists i x, pcs !! i = Some x /\ 1 <= g x.
Proof.
  unfold tally. induction pcs as [|a rest IH]; simpl; [lia|].
  intros Hpos. destruct (g a) as [|k] eqn:E.
  - destruct (IH Hpos) as (i & x & Hl & Hx). exists (S i), x. auto.
  - exists 0, a. split; [reflexivity | lia].
Qed.

Lemma cancelled_le_got_nil pc : cancelled pc <= got_nil pc.
Proof. destruct pc as [| | | |r|[e|]|v]; simpl; lia. Qed.

Lemma single_runner_init w p n sc0 :
  conns w !! p = Some sc0 -> single_runner sc0 (closing_init w p n).
Proof.
  intros Hc _. exists sc0. simpl. split; [exact Hc|]. split; [reflexivity|].
  split.
  - intros i rest Hi. apply lookup_replicate in Hi as [Hi _]. discriminate.
  - intros i Hi. apply lookup_replicate in Hi as [Hi _]. discriminate.
Qed.

Ltac old_entry Hj Hold :=
  apply list_lookup_insert_Some in Hj as [(_ & E & _)|(_ & Hj)];
  [discriminate E | eapply Hold; exact Hj].

Lemma single_runner_step p sc0 i st st' :
  closing_inv p sc0 st -> single_runner sc0 st ->
  close_step i st = Some st' -> single_runner sc0 st'.
Proof.
  intros Hinv HJ Hstep. destruct st as [w q pcs].
  destruct Hinv as [Hq _ _ _ (sc & Hc & _ & _ & Hcbs & _) _ _ _].
  unfold single_runner in *. simpl in *. subst q.
  unfold close_step in Hstep. simpl in Hstep.
  destruct (pcs !! i) as [pc|] eqn:Hi; [|discriminate].
  rewrite Hc in Hstep, HJ.
  pose proof (fun y => tally_insert got_nil pcs i pc y Hi) as Hg.
  pose proof (fun y => tally_insert cancelled pcs i pc y Hi) as Hk.
  destruct pc as [| | | |rest|err|v]; try discriminate.
  - (* untrack *)
    unfold untrack_once in Hstep. rewrite Hc in Hstep.
    destruct (sc_untrack sc).
    + injection Hstep as <-. simpl. specialize (Hg CpWait).
      specialize (Hk CpWait). simpl in *. intros Hle.
      destruct HJ as (sc1 & [= <-] & Hlog0 & Hnot & Hdone); [lia|].
      exists sc. split; [exact Hc|]. split; [intros; apply Hlog0; lia|].
      split; [intros j r Hj; old_entry Hj Hnot | intros j Hj; old_entry Hj Hdone].
    + destruct (untrack p false w) as [|v w1|u w1] eqn:Hu; try discriminate;
        injection Hstep as <-; simpl.
      * specialize (Hg (CpPanicked v)). specialize (Hk (CpPanicked v)).
        simpl in *. intros Hle.
        destruct HJ as (sc1 & [= <-] & Hlog0 & Hnot & Hdone); [lia|].
        eexists. rewrite lookup_insert_eq. split; [reflexivity|]. simpl.
        split; [intros; apply Hlog0; lia|].
        split; [intros j r Hj; old_entry Hj Hnot
               | intros j Hj; old_entry Hj Hdone].
      * specialize (Hg CpSocket). specialize (Hk CpSocket).
        simpl in *. intros Hle.
        destruct HJ as (sc1 & [= <-] & Hlog0 & Hnot & Hdone); [lia|].
        eexists. rewrite lookup_insert_eq. split; [reflexivity|]. simpl.
        split; [intros; apply Hlog0; lia|].
        split; [intros j r Hj; old_entry Hj Hnot
               | intros j Hj; old_entry Hj Hdone].
  - (* <-ch *)
    destruct (sc_untrackedCh_closed sc); [|discriminate].
    injection Hstep as <-. simpl. specialize (Hg CpSocket).
    specialize (Hk CpSocket). simpl in *. intros Hle.
    destruct HJ as (sc1 & [= <-] & Hlog0 & Hnot & Hdone); [lia|].
    exists sc. split; [exact Hc|]. split; [intros; apply Hlog0; lia|].
    split; [intros j r Hj; old_entry Hj Hnot | intros j Hj; old_entry Hj Hdone].
  - (* sc.rwc.Close() *)
    unfold Net.Close in Hstep. simpl in Hstep.
    destruct (so_close_result (sc_rwc sc) (so_close_calls (sc_rwc sc)))
      as [e|]; injection Hstep as <-; simpl.
    + specialize (Hg (CpDone (Some e))). specialize (Hk (CpDone (Some e))).
      simpl in *. intros Hle.
      destruct HJ as (sc1 & [= <-] & Hlog0 & Hnot & Hdone); [lia|].
      eexists. rewrite lookup_insert_eq. split; [reflexivity|]. simpl.
      split; [intros; apply Hlog0; lia|].
      split; [intros j r Hj; old_entry Hj Hnot
             | intros j Hj; old_entry Hj Hdone].
    + specialize (Hg CpCancel). specialize (Hk CpCancel).
      simpl in *. intros Hle.
      destruct HJ as (sc1 & [= <-] & Hlog0 & Hnot & Hdone); [lia|].
      eexists. rewrite lookup_insert_eq. split; [reflexivity|]. simpl.
      split; [intros; apply Hlog0; lia|].
      split; [intros j r Hj; old_entry Hj Hnot
             | intros j Hj; old_entry Hj Hdone].
  - (* sc.cancelCtx() *)
    injection Hstep as <-. simpl.
    pose proof (Hg CpStart) as Hg0. pose proof (Hk CpStart) as Hk0.
    pose proof (tally_le cancelled got_nil (<[i := CpStart]> pcs)
                  cancelled_le_got_nil) as Hle0.
    specialize (Hg (CpNotify (sc_closeNotify sc))).
    specialize (Hk (CpNotify (sc_closeNotify sc))).
    simpl in *. intros Hle.
    destruct HJ as (sc1 & [= <-] & Hlog0 & Hnot & Hdone); [lia|].
    eexists. rewrite lookup_insert_eq. split; [reflexivity|]. simpl.
    split; [intros; lia|].
    split.
    + intros j r Hj.
      apply list_lookup_insert_Some in Hj as [(_ & E & _)|(_ & Hj)].
      * injection E as <-. rewrite Hlog0 by lia. rewrite Hcbs. reflexivity.
      * eapply Hnot. exact Hj.
    + intros j Hj. old_entry Hj Hdone.
  - (* the loop over closeNotify *)
    pose proof (tally_lookup_le cancelled pcs i _ Hi) as Hone. simpl in Hone.
    destruct rest as [|f rest]; injection Hstep as <-; simpl.
    + specialize (Hg (CpDone None)). specialize (Hk (CpDone None)).
      simpl in *. intros Hle.
      destruct HJ as (sc1 & [= <-] & Hlog0 & Hnot & Hdone); [lia|].
      exists sc. split; [exact Hc|]. split; [intros; lia|].
      split.
      * intros j r Hj. old_entry Hj Hnot.
      * intros j Hj.
        apply list_lookup_insert_Some in Hj as [(_ & _ & _)|(_ & Hj)].
        -- rewrite <- (Hnot i [] Hi). rewrite app_nil_r. reflexivity.
        -- eapply Hdone. exact Hj.
    + specialize (Hg (CpNotify rest)). specialize (Hk (CpNotify rest)).
      simpl in *. intros Hle.
      destruct HJ as (sc1 & [= <-] & Hlog0 & Hnot & Hdone); [lia|].
      eexists. rewrite lookup_insert_eq. split; [reflexivity|]. simpl.
      split; [intros; lia|].
      split.
      * intros j r Hj.
        apply list_lookup_insert_Some in Hj as [(_ & E & _)|(Hne & Hj)].
        -- injection E as <-. rewrite <- app_assoc. simpl.
           apply (Hnot i (f :: rest) Hi).
        -- pose proof (tally_lookup2_le got_nil pcs i j _ _ Hne Hi Hj) as H2.
           simpl in H2. lia.
      * intros j Hj.
        apply list_lookup_insert_Some in Hj as [(_ & E & _)|(Hne & Hj)];
          [discriminate E|].
        pose proof (tally_lookup2_le got_nil pcs i j _ _ Hne Hi Hj) as H2.
        simpl in H2. lia.
Qed.

Lemma single_runner_run p sc0 sched : forall st,
  closing_inv p sc0 st -> single_runner sc0 st ->
  single_runner sc0 (close_run sched st).
Proof.
  induction sched as [|i rest IH]; intros st Hinv HJ; simpl; [exact HJ|].
  destruct (close_step i st) as [st'|] eqn:E.
  - apply IH.
    + eapply close_step_inv; eassumption.
    + eapply single_runner_step; eassumption.
  - apply IH; assumption.
Qed.

Lemma nil_answers_close_once n :
  nil_answers close_once_result 0 (S n) = 1.
Proof.
  induction n as [|n IH]; [reflexivity|].
  change (nil_answers close_once_result 0 (S (S n)))
    with (nil_answers close_once_result 0 (S n) +
          match close_once_result (0 + S n) with
          | None => 1
          | Some _ => 0
          end).
  rewrite IH. reflexivity.
Qed.

Lemma all_returned_lookup pcs i pc :
  forallb returned pcs = true -> pcs !! i = Some pc -> returned pc = true.
Proof.
  intros Hall Hi. rewrite forallb_forall in Hall. apply Hall.
  apply list_elem_of_In. apply list_elem_of_lookup. exists i. exact Hi.
Qed.

(** X26: on a socket whose [Close] succeeds once and then reports an
    error (as Go's TCP connections do), [n >= 1] callers of [Close] call the
    socket [n] times, one of them is answered with nil, and that one
    cancels the context and runs the callbacks, once each and in the
    order of registration; with two or more callers the return values
    differ. *)
Theorem Close_on_close_once_socket w p n sc0 sched :
  closable w p sc0 ->
  so_close_result (sc_rwc sc0) = close_once_result ->
  so_close_calls (sc_rwc sc0) = 0 ->
  let st := close_run sched (closing_init w p (S n)) in
  all_returned st = true ->
  socket_closes st = S n /\
  returned_nil st = 1 /\
  cancels st = ctx_cancel_calls sc0 + 1 /\
  callbacks_run st = rev (notified sc0) ++ sc_closeNotify sc0 /\
  (1 <= n -> exists i j e, cl_pcs st !! i = Some (CpDone None) /\
                           cl_pcs st !! j = Some (CpDone (Some e))).
Proof.
  intros Hclosable Hres Hcalls st Hall.
  destruct (close_counts w p (S n) sc0 sched Hclosable Hall)
    as (Hs & Hn & Hc & _).
  fold st in Hs, Hn, Hc.
  rewrite Hres, Hcalls, nil_answers_close_once in Hn.
  rewrite Hcalls in Hs. rewrite Hn in Hc.
  split; [exact Hs|]. split; [exact Hn|]. split; [exact Hc|].
  pose proof (closing_init_inv w p (S n) sc0 Hclosable) as Hinit.
  destruct Hclosable as (Hc0 & _).
  pose proof (single_runner_run p sc0 sched _ Hinit
                (single_runner_init w p (S n) sc0 Hc0)) as HJ.
  fold st in HJ. unfold returned_nil in Hn.
  destruct HJ as (sc & Hsc & _ & _ & Hdone); [lia|].
  destruct (tally_positive got_nil (cl_pcs st)) as (i & x & Hi & Hx); [lia|].
  pose proof (all_returned_lookup _ _ _ Hall Hi) as Hret.
  destruct x as [| | | |r|[e|]|v]; try discriminate; simpl in Hx; try lia.
  split.
  - unfold callbacks_run. rewrite Hsc. apply (Hdone i Hi).
  - intros Hn1.
    pose proof (close_run_length sched (closing_init w p (S n))) as Hlen.
    fold st in Hlen. simpl in Hlen. rewrite length_replicate in Hlen.
    assert (Hother : exists j y, j <> i /\ cl_pcs st !! j = Some y).
    { destruct i as [|i].
      - destruct (lookup_lt_is_Some_2 (cl_pcs st) 1) as [y Hy]; [lia|].
        exists 1, y. split; [lia | exact Hy].
      - destruct (lookup_lt_is_Some_2 (cl_pcs st) 0) as [y Hy]; [lia|].
        exists 0, y. split; [lia | exact Hy]. }
    destruct Hother as (j & y & Hne & Hj).
    pose proof (all_returned_lookup _ _ _ Hall Hj) as Hrj.
    pose proof (tally_lookup2_le got_nil (cl_pcs st) i j _ _
                  (not_eq_sym Hne) Hi Hj) as H2.
    destruct y as [| | | |r|[e|]|v]; try discriminate; simpl in H2; try lia.
    exists i, j, e. split; assumption.
Qed.

Lemma Close_on_close_once_socket_witness :
  socket_closes (close_run [0; 0; 0; 0; 1; 1; 1]
                   (closing_init listening_world 0 2)) = 2 /\
  returned_nil (close_run [0; 0; 0; 0; 1; 1; 1]
                  (closing_init listening_world 0 2)) = 1.
Proof.
  destruct (Close_on_close_once_socket listening_world 0 1 conn0
              [0; 0; 0; 0; 1; 1; 1] listening_world_closable
              eq_refl eq_refl eq_refl) as (H1 & H2 & _).
  split; assumption.
Defined.

(** The same on [Close] run by one caller after the other: the second
    call closes the socket again and returns its error. *)
Example Close_twice_in_sequence :
  exists w1 w2,
    Close 0 listening_world = Returned None w1 /\
    Close 0 w1 = Returned (Some (ErrNet 0)) w2 /\
    (so_close_calls <$> (sc_rwc <$> conns w2 !! 0)) = Some 2 /\
    (ctx_cancel_calls <$> conns w2 !! 0) = Some 1.
Proof.
  eexists. eexists. split; [vm_compute; reflexivity|].
  split; [vm_compute; reflexivity|]. vm_compute. split; reflexivity.
Qed.

Lemma notify_all_log cbs : forall sc,
  notified (fold_left (fun c f => notify f c) cbs sc) = rev cbs ++ notified sc /\
  ctx_cancel_calls (fold_left (fun c f => notify f c) cbs sc) =
    ctx_cancel_calls sc.
Proof.
  induction cbs as [|f rest IH]; intros sc; simpl; [split; reflexivity|].
  destruct (IH (notify f sc)) as [H1 H2]. rewrite H1, H2. simpl.
  rewrite <- app_assoc. split; reflexivity.
Qed.

(** X25: [closeUntracked] on its own: when the socket closes without an
    error the context is cancelled once and the callbacks run in the
    order [NotifyWhenClose] registered them; on an error neither
    happens. *)
Lemma closeUntracked_in_order sc :
  match closeUntracked sc with
  | (sc', None) =>
      ctx_cancel_calls sc' = S (ctx_cancel_calls sc) /\
      rev (notified sc') = rev (notified sc) ++ sc_closeNotify sc
  | (sc', Some _) =>
      ctx_cancel_calls sc' = ctx_cancel_calls sc /\ notified sc' = notified sc
  end.
Proof.
  unfold closeUntracked, Net.Close.
  destruct (so_close_result (sc_rwc sc) (so_close_calls (sc_rwc sc))); simpl.
  - split; reflexivity.
  - destruct (notify_all_log (sc_closeNotify sc)
                (cancel (set_rwc (mkTCP (so_id (sc_rwc sc))
                                    (so_keepAlive (sc_rwc sc))
                                    (so_keepAlivePeriod (sc_rwc sc))
                                    (so_close_result (sc_rwc sc))
                                    (S (so_close_calls (sc_rwc sc)))) sc)))
      as [H1 H2].
    rewrite H1, H2. simpl. rewrite rev_app_distr, rev_involutive.
    split; reflexivity.
Qed.

Lemma NotifyWhenClose_appends f sc :
  sc_closeNotify (NotifyWhenClose f sc) = sc_closeNotify sc ++ [f].
Proof. reflexivity. Qed.

End ClosingFacts.

(** * Further properties of the code *)

(** ** ServeMux over a history of calls *)

Module MuxMore.

Import Mux.

Import Samples Invariants MuxFacts.

(** X1: a handler registered with [Handle] is the one [ServeQRPC] calls
    for a frame of that cmd, with the writer and frame it was given, and
    the dispatch leaves the mux as it was, read lock released. *)
Theorem Handle_then_ServeQRPC mux cmd h mux' w r :
  Handle mux cmd (Some h) = HandleOk mux' ->
  Cmd r = cmd ->
  exists res,
    ServeQRPC mux' w r = Some res /\
    s_called res = Some (h w r) /\ s_written res = [] /\ s_mux res = mux'.
Proof.
  intros HH Hcmd.
  pose proof (Handle_keeps_lock_free _ _ _ _ HH) as Hfree.
  apply Handle_registers in HH as [_ Hreg].
  unfold ServeQRPC, RLock. rewrite Hfree. simpl. rewrite Hcmd, Hreg.
  eexists. split; [reflexivity|]. simpl. repeat split.
  destruct mux' as [mu' tbl]. simpl in *. subst mu'. reflexivity.
Qed.

Lemma Handle_then_ServeQRPC_witness :
  exists res,
    ServeQRPC one_handler (mkWriter 0) ping = Some res /\
    s_called res = Some (quiet (mkWriter 0) ping) /\ s_written res = [] /\
    s_mux res = one_handler.
Proof.
  apply (Handle_then_ServeQRPC NewServeMux 7 quiet one_handler (mkWriter 0) ping);
    reflexivity.
Defined.

Lemma mux_after_keeps_handler c mux cmd h :
  m_lookup mux cmd = Some h -> m_lookup (mux_after c mux) cmd = Some h.
Proof.
  intros Hreg. destruct c as [cmd' h'|w r]; simpl.
  - unfold Handle. destruct (Lock (mu mux)); [|exact Hreg].
    destruct h' as [h'|]; [|exact Hreg].
    destruct (m_lookup mux cmd') eqn:E; [exact Hreg|].
    unfold m_lookup in *. simpl.
    destruct (m mux) as [tbl|]; [|discriminate].
    rewrite lookup_insert_ne; [exact Hreg|]. intros ->. congruence.
  - unfold ServeQRPC. destruct (RLock (mu mux)); [|exact Hreg].
    destruct (m_lookup mux (Cmd r)); exact Hreg.
Qed.

(** X2: a registration is for good: whatever registrations and
    dispatches follow, the cmd keeps the handler it was first given;
    nothing removes or replaces it. *)
Theorem registration_is_permanent calls mux cmd h :
  m_lookup mux cmd = Some h ->
  m_lookup (mux_history calls mux) cmd = Some h.
Proof.
  unfold mux_history. revert mux.
  induction calls as [|c rest IH]; intros mux Hreg; simpl; [exact Hreg|].
  apply IH. apply mux_after_keeps_handler. exact Hreg.
Qed.

Lemma registration_is_permanent_witness :
  m_lookup (mux_history [CallHandle 7 (Some loud); CallHandle 8 (Some loud);
                         CallServe (mkWriter 0) ping]
              one_handler) 7 = Some quiet.
Proof.
  apply (registration_is_permanent
           [CallHandle 7 (Some loud); CallHandle 8 (Some loud);
            CallServe (mkWriter 0) ping] one_handler 7 quiet).
  reflexivity.
Defined.

Lemma mux_after_keeps_readers c mux :
  writer_held (mu mux) = false -> (1 <= readers (mu mux))%nat ->
  writer_held (mu (mux_after c mux)) = false /\
  (1 <= readers (mu (mux_after c mux)))%nat.
Proof.
  intros Hw Hr. destruct c as [cmd h|w r]; simpl.
  - unfold Handle, Lock. rewrite Hw.
    destruct (readers (mu mux)) eqn:E; [lia|]. rewrite E. split; [exact Hw|lia].
  - unfold ServeQRPC, RLock. rewrite Hw.
    destruct (m_lookup mux (Cmd r)); simpl; split; try reflexivity; lia.
Qed.

(** X3: one dispatch of a cmd without handler wedges registration for
    good: the read lock it keeps is never given back, so after any
    further calls every [Handle] still blocks. *)
Theorem unknown_cmd_wedges_registration mux w r res calls cmd h :
  ServeQRPC mux w r = Some res ->
  m_lookup mux (Cmd r) = None ->
  Handle (mux_history calls (s_mux res)) cmd h = HandleBlocked.
Proof.
  intros Hs Hnone.
  assert (Hinv : writer_held (mu (s_mux res)) = false /\
                 (1 <= readers (mu (s_mux res)))%nat).
  { unfold ServeQRPC in Hs.
    destruct (RLock (mu mux)) as [mu1|] eqn:E; [|discriminate].
    rewrite Hnone in Hs. injection Hs as <-. simpl.
    apply RLock_readers in E as [Hr Hw]. split; [exact Hw | lia]. }
  clear Hs Hnone. unfold mux_history.
  generalize dependent (s_mux res). clear res mux.
  induction calls as [|c rest IH]; intros mux0 [Hw Hr]; simpl.
  - unfold Handle, Lock. rewrite Hw.
    destruct (readers (mu mux0)); [lia | reflexivity].
  - apply IH. apply mux_after_keeps_readers; assumption.
Qed.

Lemma unknown_cmd_wedges_registration_witness :
  Handle (mux_history [CallHandle 7 (Some quiet)]
            (mkMux (mkRW false 1) None)) 9 (Some loud) = HandleBlocked.
Proof.
  apply (unknown_cmd_wedges_registration NewServeMux (mkWriter 0) ping
           (mkServed (mkMux (mkRW false 1) None) None [])
           [CallHandle 7 (Some quiet)] 9 (Some loud));
    reflexivity.
Defined.

(** X4: in a program that calls the mux from one goroutine at a time,
    a dispatch never blocks: no call leaves the mutex held for writing,
    not even a registration that panics. *)
Theorem dispatch_never_blocks calls w r :
  is_Some (ServeQRPC (mux_history calls NewServeMux) w r).
Proof.
  pose proof (mux_history_writer_free calls NewServeMux eq_refl) as Hw.
  unfold ServeQRPC, RLock. rewrite Hw.
  destruct (m_lookup (mux_history calls NewServeMux) (Cmd r));
    eexists; reflexivity.
Qed.

End MuxMore.

(** ** Server: listeners, shutdown, accept loop, registries *)

Module SrvMore.

Import Net Srv.

Import Samples Invariants SrvFacts.

Lemma ids_of_filter (P : Listener -> Prop) `{forall l, Decision (P l)}
      (lns : list Listener) :
  NoDup (map ln_id lns) -> NoDup (map ln_id (filter P lns)).
Proof.
  induction lns as [|l rest IH]; simpl; [intros _; constructor|].
  intros Hnd. apply NoDup_cons in Hnd as [Hnotin Hnd].
  rewrite filter_cons. destruct (decide (P l)); simpl; [|apply IH; exact Hnd].
  apply NoDup_cons. split; [|apply IH; exact Hnd].
  intros Hin. apply Hnotin.
  change (ln_id l ∈ ln_id <$> filter P rest) in Hin.
  apply list_elem_of_fmap in Hin as (x & Hx & Hin).
  apply list_elem_of_filter in Hin as [_ Hin].
  change (ln_id l ∈ ln_id <$> rest). apply list_elem_of_fmap.
  exists x. split; assumption.
Qed.

Lemma trackListener_no_duplicates ln add s :
  NoDup (map ln_id (listeners s)) ->
  NoDup (map ln_id (listeners (trackListener ln add s))).
Proof.
  intros Hnd. unfold trackListener. destruct add.
  - destruct (decide (ln_id ln ∈ map ln_id (listeners s))) as [Hin|Hnotin];
      [exact Hnd|].
    simpl. rewrite map_app. simpl.
    apply NoDup_app. split; [exact Hnd|]. split.
    + intros x Hx Hx'. apply list_elem_of_singleton in Hx'. subst x.
      contradiction.
    + apply NoDup_singleton.
  - simpl. apply ids_of_filter. exact Hnd.
Qed.

Lemma filter_other_twice (ln : Listener) (lns : list Listener) :
  filter (fun l => ln_id l ≠ ln_id ln)
         (filter (fun l => ln_id l ≠ ln_id ln) lns) =
  filter (fun l => ln_id l ≠ ln_id ln) lns.
Proof.
  induction lns as [|l rest IH]; [reflexivity|].
  rewrite (filter_cons _ l rest).
  destruct (decide (ln_id l ≠ ln_id ln)) as [Hne|He]; [|exact IH].
  rewrite filter_cons. destruct (decide (ln_id l ≠ ln_id ln)); [|contradiction].
  rewrite IH. reflexivity.
Qed.

(** X5: [trackListener] updates the listener set as a map keyed by the
    listener does.  The listener is a member after the call exactly when
    [add] was true; every other listener is a member after the call
    exactly when it was before; tracking a listener that is tracked
    already leaves the server as it is; and doing the same call a second
    time changes nothing. *)
Theorem trackListener_updates_the_set ln add s :
  (ln_id ln ∈ map ln_id (listeners (trackListener ln add s)) <-> add = true) /\
  (forall l, ln_id l ≠ ln_id ln ->
             (l ∈ listeners (trackListener ln add s) <-> l ∈ listeners s)) /\
  (ln_id ln ∈ map ln_id (listeners s) -> trackListener ln true s = s) /\
  trackListener ln add (trackListener ln add s) = trackListener ln add s.
Proof.
  split; [|split; [|split]].
  - unfold trackListener. destruct add.
    + destruct (decide (ln_id ln ∈ map ln_id (listeners s))) as [Hin|Hnotin].
      * split; auto.
      * simpl. rewrite map_app. simpl. split; [reflexivity|]. intros _.
        apply elem_of_app. right. apply list_elem_of_singleton. reflexivity.
    + simpl. split; [|discriminate]. intros Hin.
      change (ln_id ln ∈ ln_id <$>
                filter (fun l => ln_id l ≠ ln_id ln) (listeners s)) in Hin.
      apply list_elem_of_fmap in Hin as (x & Hx & Hin).
      apply list_elem_of_filter in Hin as [Hne _]. congruence.
  - intros l Hne. unfold trackListener. destruct add.
    + destruct (decide (ln_id ln ∈ map ln_id (listeners s))); [reflexivity|].
      simpl. rewrite elem_of_app, list_elem_of_singleton. split.
      * intros [Hin|E]; [exact Hin | subst l; contradiction].
      * intros Hin. left. exact Hin.
    + simpl. rewrite list_elem_of_filter. split.
      * intros [_ Hin]. exact Hin.
      * intros Hin. split; assumption.
  - intros Hin. unfold trackListener.
    destruct (decide (ln_id ln ∈ map ln_id (listeners s))); [reflexivity|].
    contradiction.
  - destruct add.
    + assert (Hin : ln_id ln ∈ map ln_id (listeners (trackListener ln true s))).
      { unfold trackListener.
        destruct (decide (ln_id ln ∈ map ln_id (listeners s))) as [Hin|_];
          [exact Hin|].
        simpl. rewrite map_app. apply elem_of_app. right.
        simpl. apply list_elem_of_singleton. reflexivity. }
      generalize dependent (trackListener ln true s). intros s1 Hin.
      unfold trackListener.
      destruct (decide (ln_id ln ∈ map ln_id (listeners s1)));
        [reflexivity | contradiction].
    + unfold trackListener. destruct s; simpl.
      rewrite filter_other_twice. reflexivity.
Qed.

(** X6: when every listener closes without an error, [Shutdown] closes
    all tracked listeners, empties the set, releases the server lock,
    closes [doneChan] and returns nil after the wait on the goroutines. *)
Theorem Shutdown_graceful s :
  mu_locked s = false -> doneChan_closed s = false ->
  Forall (fun ln => ln_close_result ln = None) (listeners s) ->
  exists s',
    Shutdown s = ShReturned None s' (map ln_id (listeners s)) true /\
    mu_locked s' = false /\ doneChan_closed s' = true /\ listeners s' = [] /\
    id2Conn s' = id2Conn s /\ activeConn s' = activeConn s /\
    pushID s' = pushID s.
Proof.
  intros Hmu Hdone HF. apply close_all_none in HF.
  unfold Shutdown, closeListenersLocked. rewrite Hmu. simpl.
  rewrite HF. simpl. rewrite Hdone.
  eexists. split; [reflexivity|]. simpl. repeat split.
Qed.

Lemma Shutdown_graceful_witness :
  exists s',
    Shutdown two_listeners =
      ShReturned None s' (map ln_id (listeners two_listeners)) true /\
    mu_locked s' = false /\ doneChan_closed s' = true /\ listeners s' = [] /\
    id2Conn s' = id2Conn two_listeners /\
    activeConn s' = activeConn two_listeners /\
    pushID s' = pushID two_listeners.
Proof.
  apply (Shutdown_graceful two_listeners);
    [reflexivity | reflexivity | repeat constructor].
Defined.

(** X7: [Shutdown] is not repeatable: after a call that returned nil a
    second call closes [doneChan] again and panics, with the lock
    released and before the wait. *)
Theorem Shutdown_twice_panics s s' closed waited :
  Shutdown s = ShReturned None s' closed waited ->
  Shutdown s' = ShPanicked PanicCloseOfClosedChannel s' [].
Proof.
  unfold Shutdown, closeListenersLocked.
  destruct (mu_locked s) eqn:Hmu; [discriminate|]. simpl.
  destruct (close_all (listeners s) None) as [e|]; [discriminate|].
  destruct (doneChan_closed s) eqn:Hd; [discriminate|].
  intros [= <- _ _]. simpl. reflexivity.
Qed.

Lemma Shutdown_twice_panics_witness :
  Shutdown (with_done true (with_mu false
              (with_listeners [] (with_mu true (NewServer [binding0]))))) =
    ShPanicked PanicCloseOfClosedChannel
      (with_done true (with_mu false
         (with_listeners [] (with_mu true (NewServer [binding0]))))) [].
Proof.
  apply (Shutdown_twice_panics (NewServer [binding0]) _ [] true).
  reflexivity.
Defined.

Lemma close_all_app l1 l2 err :
  close_all (l1 ++ l2) err = close_all l2 (close_all l1 err).
Proof.
  revert err. induction l1 as [|ln rest IH]; intros err; simpl; [reflexivity|].
  apply IH.
Qed.

(** X8: [closeListenersLocked] closes and deletes every listener even
    when one of them fails, and the error it returns is that of the
    first listener that failed, in the order the map was visited. *)
Theorem closeListenersLocked_first_error s l1 ln l2 e :
  listeners s = l1 ++ ln :: l2 ->
  Forall (fun l => ln_close_result l = None) l1 ->
  ln_close_result ln = Some e ->
  closeListenersLocked s =
    (with_listeners [] s, map ln_id l1 ++ ln_id ln :: map ln_id l2, Some e).
Proof.
  intros Hl HF He. unfold closeListenersLocked. rewrite Hl.
  rewrite map_app. simpl. f_equal.
  rewrite close_all_app. apply close_all_none in HF. rewrite HF. simpl.
  rewrite He. apply close_all_keeps.
Qed.

Lemma closeListenersLocked_first_error_witness :
  closeListenersLocked mixed_listeners =
    (with_listeners [] mixed_listeners,
     map ln_id [good_listener 1] ++
       ln_id failing_listener :: map ln_id [good_listener 2],
     Some (ErrNet 1)).
Proof.
  apply (closeListenersLocked_first_error mixed_listeners
           [good_listener 1] failing_listener [good_listener 2] (ErrNet 1));
    [reflexivity | repeat constructor | reflexivity].
Defined.

(** *** The accept loop *)

Lemma next_delay_in_range d :
  d = 0 \/ 5 * Millisecond <= d <= 1 * Second ->
  5 * Millisecond <= next_delay d <= 1 * Second.
Proof.
  unfold next_delay, Second, Millisecond. intros [->|Hd]; [simpl; lia|].
  destruct (d =? 0) eqn:E0; [apply Z.eqb_eq in E0; lia|].
  destruct (1 * (1000 * 1000000) <? d * 2) eqn:E1; [lia|].
  apply Z.ltb_ge in E1. lia.
Qed.

(** X9: every pause the accept loop takes after a temporary accept
    error lies between 5 ms and 1 s, whatever the sequence of accepts,
    timeouts and errors. *)
Theorem accept_backoff_in_range idx script d w :
  d = 0 \/ 5 * Millisecond <= d <= 1 * Second ->
  Forall (fun x => 5 * Millisecond <= x <= 1 * Second)
         (se_sleeps (accept_loop idx script d w)).
Proof.
  revert d w. induction script as [|st rest IH]; intros d w Hd; simpl.
  - constructor.
  - destruct (acc_result st) as [rw| |e|e].
    + destruct (newConn rw idx w) as [w1 [v|c]]; simpl; [constructor|].
      apply IH. left. reflexivity.
    + destruct (acc_done st); simpl; [constructor|]. apply IH. exact Hd.
    + destruct (acc_done st); simpl; [constructor|].
      pose proof (next_delay_in_range d Hd) as Hn.
      constructor; [exact Hn|]. apply IH. right. exact Hn.
    + destruct (acc_done st); simpl; constructor.
Qed.

Lemma accept_backoff_in_range_witness :
  Forall (fun x => 5 * Millisecond <= x <= 1 * Second)
         (se_sleeps (accept_loop 0 flaky_accepts 0 (fresh_world [binding0]))).
Proof.
  apply (accept_backoff_in_range 0 flaky_accepts 0 (fresh_world [binding0])).
  left. reflexivity.
Defined.

(** The pauses double from 5 ms while temporary errors follow one
    another and start again at 5 ms after a connection was accepted. *)
Example accept_backoff_doubles :
  se_sleeps (accept_loop 0 flaky_accepts 0 (fresh_world [binding0])) =
    [5 * Millisecond; 10 * Millisecond; 5 * Millisecond].
Proof. reflexivity. Qed.

Lemma newConn_active rw idx w w1 c :
  newConn rw idx w = (w1, inr c) ->
  exists act0,
    activeConn (srv w) !! idx = Some act0 /\
    activeConn (srv w1) = <[idx := {[c]} ∪ act0]> (activeConn (srv w)) /\
    c = next_alloc w /\
    listeners (srv w1) = listeners (srv w) /\
    mu_locked (srv w1) = mu_locked (srv w).
Proof.
  unfold newConn. simpl.
  destruct (activeConn (srv w) !! idx) as [act0|] eqn:E; [|discriminate].
  intros [= <- <-]. exists act0. simpl. repeat split.
Qed.

Lemma newConn_panic_keeps rw idx w w1 v :
  newConn rw idx w = (w1, inl v) ->
  srv w1 = srv w /\ activeConn (srv w) !! idx = None.
Proof.
  unfold newConn. simpl.
  destruct (activeConn (srv w) !! idx) as [act0|] eqn:E; [discriminate|].
  intros [= <- _]. split; reflexivity.
Qed.

(** X10: the accept loop leaves only for a reason: the error it
    returns is [ErrServerClosed], seen on an accept error after
    [doneChan] was closed, or the error of an accept that failed for
    good; timeouts and temporary errors never end it, and as long as it
    sees nothing else it keeps accepting. *)
Theorem accept_loop_leaves_for_a_reason idx script d w :
  (forall e,
      se_ret (accept_loop idx script d w) = Some (inr e) ->
      (e = ErrServerClosed /\ exists st, st ∈ script /\ acc_done st = true) \/
      mkStep (AcceptFailed e) false ∈ script) /\
  ((idx < length (activeConn (srv w)))%nat ->
   Forall (fun st => acc_done st = false /\
                     forall e, acc_result st <> AcceptFailed e) script ->
   se_ret (accept_loop idx script d w) = None).
Proof.
  split.
  - revert d w. induction script as [|st rest IH]; intros d w e; simpl;
      [discriminate|].
    destruct st as [res done]. simpl.
    assert (Hrest : forall d' w',
               se_ret (accept_loop idx rest d' w') = Some (inr e) ->
               (e = ErrServerClosed /\
                exists st, st ∈ {| acc_result := res; acc_done := done |} :: rest /\
                           acc_done st = true) \/
               mkStep (AcceptFailed e) false ∈
                 {| acc_result := res; acc_done := done |} :: rest).
    { intros d' w' Hr. destruct (IH d' w' e Hr) as [[He (st & Hin & Hd)]|Hin].
      - left. split; [exact He|]. exists st. split; [right; exact Hin|exact Hd].
      - right. right. exact Hin. }
    destruct res as [rw| |e'|e'].
    + destruct (newConn rw idx w) as [w1 [v|c]]; simpl; [discriminate|].
      apply Hrest.
    + destruct done; simpl; [|apply Hrest].
      intros [= <-]. left. split; [reflexivity|].
      eexists. split; [left|reflexivity].
    + destruct done; simpl; [|apply Hrest].
      intros [= <-]. left. split; [reflexivity|].
      eexists. split; [left|reflexivity].
    + destruct done; simpl; intros [= <-].
      * left. split; [reflexivity|]. eexists. split; [left|reflexivity].
      * right. left.
  - revert d w. induction script as [|st rest IH]; intros d w Hidx HF; simpl;
      [reflexivity|].
    apply Forall_cons in HF as [[Hdone Hnf] HF]. rewrite Hdone.
    destruct (acc_result st) as [rw| |e|e] eqn:Hres.
    + destruct (newConn rw idx w) as [w1 [v|c]] eqn:E; simpl.
      * apply newConn_panic_keeps in E as [_ Hnone].
        apply lookup_ge_None_1 in Hnone. lia.
      * apply IH; [|exact HF].
        apply newConn_active in E as (act0 & _ & Hact & _). rewrite Hact.
        rewrite length_insert. exact Hidx.
    + apply IH; assumption.
    + simpl. apply IH; assumption.
    + destruct (Hnf e eq_refl).
Qed.

Lemma accept_loop_leaves_for_a_reason_witness :
  (ErrServerClosed = ErrServerClosed /\
   exists st, st ∈ flaky_accepts /\ acc_done st = true) \/
  mkStep (AcceptFailed ErrServerClosed) false ∈ flaky_accepts.
Proof.
  apply (accept_loop_leaves_for_a_reason 0 flaky_accepts 0
           (fresh_world [binding0])).
  reflexivity.
Defined.

Lemma accept_loop_active_grows idx script : forall d w act,
  activeConn (srv w) !! idx = Some act ->
  exists act',
    activeConn (srv (se_world (accept_loop idx script d w))) !! idx = Some act' /\
    act ⊆ act'.
Proof.
  induction script as [|st rest IH]; intros d w act Hact; simpl.
  - exists act. split; [exact Hact | reflexivity].
  - destruct (acc_result st) as [rw| |e|e].
    + destruct (newConn rw idx w) as [w1 [v|c]] eqn:E; simpl.
      * apply newConn_panic_keeps in E as [_ Hnone]. congruence.
      * apply newConn_active in E as (act0 & H0 & H1 & _).
        rewrite Hact in H0. injection H0 as <-.
        destruct (IH 0 w1 ({[c]} ∪ act)) as (act' & Hl & Hsub).
        { rewrite H1. apply list_lookup_insert_eq.
          apply lookup_lt_is_Some_1. eexists. exact Hact. }
        exists act'. split; [exact Hl | set_solver].
    + destruct (acc_done st); simpl; [exists act; split; [exact Hact|reflexivity]|].
      apply IH. exact Hact.
    + destruct (acc_done st); simpl; [exists act; split; [exact Hact|reflexivity]|].
      apply IH. exact Hact.
    + destruct (acc_done st); simpl; exists act; (split; [exact Hact|reflexivity]).
Qed.

Lemma accept_loop_spawned_range idx script : forall d w p,
  p ∈ se_spawned (accept_loop idx script d w) ->
  (next_alloc w <= p < next_alloc (se_world (accept_loop idx script d w)))%nat.
Proof.
  induction script as [|st rest IH]; intros d w p; simpl.
  - intros Hin. inversion Hin.
  - destruct (acc_result st) as [rw| |e|e].
    + destruct (newConn rw idx w) as [w1 [v|c]] eqn:E; simpl.
      * intros Hin. inversion Hin.
      * pose proof (accept_loop_grows idx rest 0 w1) as [Hle _].
        apply newConn_spec in E as (Hn & _ & Hp). specialize (Hp c eq_refl).
        intros Hin. apply elem_of_cons in Hin as [->|Hin]; [lia|].
        specialize (IH 0 w1 p Hin). lia.
    + destruct (acc_done st); simpl; [intros Hin; inversion Hin|]. apply IH.
    + destruct (acc_done st); simpl; [intros Hin; inversion Hin|]. apply IH.
    + destruct (acc_done st); simpl; intros Hin; inversion Hin.
Qed.

Lemma accept_loop_spawned_NoDup idx script : forall d w,
  NoDup (se_spawned (accept_loop idx script d w)).
Proof.
  induction script as [|st rest IH]; intros d w; simpl; [constructor|].
  destruct (acc_result st) as [rw| |e|e].
  - destruct (newConn rw idx w) as [w1 [v|c]] eqn:E; simpl; [constructor|].
    apply NoDup_cons. split; [|apply IH].
    intros Hin. apply accept_loop_spawned_range in Hin.
    apply newConn_spec in E as (Hn & _ & Hp). specialize (Hp c eq_refl). lia.
  - destruct (acc_done st); simpl; [constructor | apply IH].
  - destruct (acc_done st); simpl; [constructor | apply IH].
  - destruct (acc_done st); simpl; constructor.
Qed.

(** X11: the connections the accept loop hands to [c.serve] are all
    different, each was newly allocated by the loop, and each is listed
    in [activeConn] of the loop's binding when the loop stands. *)
Theorem accepted_conns_are_active idx script d w :
  NoDup (se_spawned (accept_loop idx script d w)) /\
  forall p,
    p ∈ se_spawned (accept_loop idx script d w) ->
    (next_alloc w <= p)%nat /\
    exists act,
      activeConn (srv (se_world (accept_loop idx script d w))) !! idx
        = Some act /\ p ∈ act.
Proof.
  split; [apply accept_loop_spawned_NoDup|].
  intros p Hin. split; [apply accept_loop_spawned_range in Hin; lia|].
  revert d w Hin. induction script as [|st rest IH]; intros d w; simpl.
  - intros Hin. inversion Hin.
  - destruct (acc_result st) as [rw| |e|e].
    + destruct (newConn rw idx w) as [w1 [v|c]] eqn:E; simpl.
      * intros Hin. inversion Hin.
      * intros Hin. apply elem_of_cons in Hin as [->|Hin]; [|apply IH; exact Hin].
        apply newConn_active in E as (act0 & H0 & H1 & _).
        destruct (accept_loop_active_grows idx rest 0 w1 ({[c]} ∪ act0))
          as (act' & Hl & Hsub).
        { rewrite H1. apply list_lookup_insert_eq.
          apply lookup_lt_is_Some_1. eexists. exact H0. }
        exists act'. split; [exact Hl | set_solver].
    + destruct (acc_done st); simpl; [intros Hin; inversion Hin|]. apply IH.
    + destruct (acc_done st); simpl; [intros Hin; inversion Hin|]. apply IH.
    + destruct (acc_done st); simpl; intros Hin; inversion Hin.
Qed.

Lemma accepted_conns_are_active_witness :
  (next_alloc (fresh_world [binding0]) <= 0)%nat /\
  exists act,
    activeConn (srv (se_world (accept_loop 0 flaky_accepts 0
                                 (fresh_world [binding0])))) !! 0%nat
      = Some act /\ 0%nat ∈ act.
Proof.
  apply (accepted_conns_are_active 0 flaky_accepts 0 (fresh_world [binding0])).
  vm_compute. left.
Defined.

Lemma accept_loop_keeps_listeners idx script : forall d w,
  listeners (srv (se_world (accept_loop idx script d w))) = listeners (srv w) /\
  mu_locked (srv (se_world (accept_loop idx script d w))) = mu_locked (srv w).
Proof.
  induction script as [|st rest IH]; intros d w; simpl; [split; reflexivity|].
  destruct (acc_result st) as [rw| |e|e].
  - destruct (newConn rw idx w) as [w1 [v|c]] eqn:E; simpl.
    + apply newConn_panic_keeps in E as [-> _]. split; reflexivity.
    + apply newConn_active in E as (_ & _ & _ & _ & Hl & Hm).
      destruct (IH 0 w1) as [H1 H2]. rewrite H1, H2. split; assumption.
  - destruct (acc_done st); simpl; [split; reflexivity | apply IH].
  - destruct (acc_done st); simpl; [split; reflexivity | apply IH].
  - destruct (acc_done st); simpl; split; reflexivity.
Qed.

Lemma trackListener_member ln add s :
  ln_id ln ∈ map ln_id (listeners (trackListener ln add s)) <-> add = true.
Proof.
  unfold trackListener. destruct add.
  - destruct (decide (ln_id ln ∈ map ln_id (listeners s))) as [Hin|Hnotin].
    + split; auto.
    + simpl. rewrite map_app. simpl. split; [reflexivity|]. intros _.
      apply elem_of_app. right. apply list_elem_of_singleton. reflexivity.
  - simpl. split; [|discriminate]. intros Hin.
    change (ln_id ln ∈ ln_id <$>
              filter (fun l => ln_id l ≠ ln_id ln) (listeners s)) in Hin.
    apply list_elem_of_fmap in Hin as (x & Hx & Hin).
    apply list_elem_of_filter in Hin as [Hne _]. congruence.
Qed.

(** X12: [Server.serve] keeps its listener in the server's listener set
    exactly while its accept loop runs: the listener is tracked as long
    as the loop stands and is untracked when [serve] has returned,
    whatever the reason, and the server lock is free again. *)
Theorem serve_tracks_listener_while_running l idx script w r :
  serve l idx script w = Some r ->
  (ln_id l ∈ map ln_id (listeners (srv (se_world r))) <-> se_ret r = None) /\
  mu_locked (srv (se_world r)) = false.
Proof.
  unfold serve. destruct (mu_locked (srv w)) eqn:Hmu; [discriminate|].
  destruct (accept_loop_keeps_listeners idx script 0
              (with_srv (trackListener l true (srv w)) w)) as [Hl Hm].
  set (r0 := accept_loop idx script 0
               (with_srv (trackListener l true (srv w)) w)) in *.
  destruct (se_ret r0) as [ret|] eqn:Hret.
  - destruct (mu_locked (srv (se_world r0))) eqn:Hmu2; [discriminate|].
    intros [= <-].
    pose proof (trackListener_member l false (srv (se_world r0))) as Hmem.
    cbn [se_world se_ret srv with_srv]. split.
    + split; [|discriminate]. intros Hin. apply Hmem in Hin. discriminate.
    + unfold trackListener. exact Hmu2.
  - intros [= <-]. rewrite Hret, Hl, Hm. cbn [srv with_srv]. split.
    + split; [reflexivity|]. intros _. apply trackListener_member. reflexivity.
    + unfold trackListener.
      destruct (decide (ln_id l ∈ map ln_id (listeners (srv w)))); exact Hmu.
Qed.

Lemma serve_tracks_listener_while_running_witness :
  exists r,
    serve (good_listener 4) 0 flaky_accepts (fresh_world [binding0]) = Some r /\
    (ln_id (good_listener 4) ∈ map ln_id (listeners (srv (se_world r))) <->
     se_ret r = None) /\
    mu_locked (srv (se_world r)) = false.
Proof.
  eexists. split; [reflexivity|].
  apply (serve_tracks_listener_while_running (good_listener 4) 0 flaky_accepts
           (fresh_world [binding0])).
  reflexivity.
Defined.

(** *** PushFrame *)

Lemma land_PushFlag_cases flags :
  Z.land flags PushFlag = 0 \/ Z.land flags PushFlag = PushFlag.
Proof.
  change PushFlag with (2 ^ 4).
  destruct (Z.testbit flags 4) eqn:E; [right | left];
    apply Z.bits_inj'; intros n Hn;
    rewrite Z.land_spec, Z.pow2_bits_eqb by lia.
  - destruct (4 =? n) eqn:En; [|apply andb_false_r].
    apply Z.eqb_eq in En. subst n. rewrite E. reflexivity.
  - rewrite Z.bits_0. destruct (4 =? n) eqn:En; [|apply andb_false_r].
    apply Z.eqb_eq in En. subst n. rewrite E. reflexivity.
Qed.

Lemma PushFlag_masks_others flags :
  IsRst (Z.land flags PushFlag) = false /\
  IsNonBlock (Z.land flags PushFlag) = false.
Proof.
  destruct (land_PushFlag_cases flags) as [-> | ->]; split; reflexivity.
Qed.

(** X13: whatever flags the caller passes, the frame [PushFrame] hands
    to the writer carries the given cmd and payload and no flag other
    than [PushFlag]: its flags are 0 or [PushFlag], so it is never taken
    for a Rst or NonBlock frame; the connections are left untouched. *)
Theorem PushFrame_strips_other_flags conn cmd flags payload w :
  let '(w', wr, out) := PushFrame conn cmd flags payload w in
  o_cmd out = cmd /\ o_payload out = payload /\
  (o_flags out = 0 \/ o_flags out = PushFlag) /\
  IsRst (o_flags out) = false /\ IsNonBlock (o_flags out) = false /\
  conns w' = conns w /\ fw_id wr = next_alloc w.
Proof.
  unfold PushFrame, GetWriter. simpl.
  pose proof (land_PushFlag_cases flags).
  pose proof (PushFlag_masks_others flags) as [H1 H2].
  repeat split; assumption.
Qed.

(** X14: the push counter gives consecutive pushes consecutive request
    ids modulo 2^64, always inside the uint64 range; two pushes in a row
    never carry the same id, and they use different writer handles. *)
Theorem PushFrame_consecutive_ids c1 cmd1 f1 p1 c2 cmd2 f2 p2 w :
  let '(w1, wr1, out1) := PushFrame c1 cmd1 f1 p1 w in
  let '(w2, wr2, out2) := PushFrame c2 cmd2 f2 p2 w1 in
  0 <= o_requestID out1 < uint64_mod /\
  o_requestID out2 = (o_requestID out1 + 1) mod uint64_mod /\
  o_requestID out1 <> o_requestID out2 /\
  wr1 <> wr2.
Proof.
  unfold PushFrame, GetWriter. simpl.
  assert (HM : 0 < uint64_mod) by reflexivity.
  pose proof (Z.mod_pos_bound (pushID (srv w) + 1) uint64_mod HM) as Hb.
  split; [exact Hb|]. split; [reflexivity|]. split.
  - set (y := (pushID (srv w) + 1) mod uint64_mod) in *.
    destruct (Z.eq_dec y (uint64_mod - 1)) as [E|E].
    + rewrite E. replace (uint64_mod - 1 + 1) with uint64_mod by lia.
      rewrite Z.mod_same by lia. unfold uint64_mod. lia.
    + rewrite Z.mod_small by lia. lia.
  - intros [= E]. lia.
Qed.

(** *** The registries *)

Lemma removed_is_gone (act : gset nat) p : p ∉ act ∖ {[p]}.
Proof.
  intros Hin. apply elem_of_difference in Hin as [_ Hn]. apply Hn.
  apply elem_of_singleton. reflexivity.
Qed.

Lemma untrack_keeps_conns p inLock w :
  match untrack p inLock w with
  | Blocked => True
  | Panicked _ w' | Returned _ w' =>
      conns w' = conns w /\ next_alloc w' = next_alloc w
  end.
Proof.
  unfold untrack. destruct (conns w !! p) as [sc|]; [|split; reflexivity].
  destruct (negb inLock && mu_locked (srv w)); [exact I|].
  destruct (decide (sc_id sc = EmptyString)) as [Hid|Hid].
  - destruct inLock; simpl;
      destruct (activeConn (srv w) !! sc_idx sc); split; reflexivity.
  - destruct inLock; simpl;
      destruct (id2Conn (srv w) !! sc_idx sc); simpl; try (split; reflexivity);
      destruct (activeConn (srv w) !! sc_idx sc); simpl; split; reflexivity.
Qed.

(** X15: when [untrack] returns, the connection is no longer in
    [activeConn] of its binding, its id (if it has one) is bound to
    nobody in [id2Conn] of its binding, the connections themselves are
    untouched, and the server lock is as the caller holds it: still held
    when called with [inLock], released otherwise. *)
Theorem untrack_unregisters p inLock w w' sc :
  conns w !! p = Some sc ->
  untrack p inLock w = Returned tt w' ->
  (exists act, activeConn (srv w') !! sc_idx sc = Some act /\ p ∉ act) /\
  (sc_id sc <> EmptyString ->
   exists tbl, id2Conn (srv w') !! sc_idx sc = Some tbl /\
               tbl !! sc_id sc = None) /\
  conns w' = conns w /\
  mu_locked (srv w') = (if inLock then mu_locked (srv w) else false).
Proof.
  intros Hc. unfold untrack. rewrite Hc.
  destruct inLock; simpl.
  all: try (destruct (mu_locked (srv w)); [discriminate|]).
  all: destruct (decide (sc_id sc = EmptyString)) as [Hid|Hid]; simpl.
  all: try (destruct (id2Conn (srv w) !! sc_idx sc) as [tbl|] eqn:Ht;
            [|discriminate]; simpl).
  all: destruct (activeConn (srv w) !! sc_idx sc) as [act|] eqn:Ha;
    [|discriminate].
  all: intros [= <-]; simpl.
  all: split;
    [exists (act ∖ {[p]}); split; [|apply removed_is_gone];
     apply list_lookup_insert_eq; apply lookup_lt_is_Some_1;
     eexists; exact Ha|].
  all: split; [|split; reflexivity].
  all: try contradiction.
  all: intros _; exists (delete (sc_id sc) tbl);
    (split; [apply list_lookup_insert_eq; apply lookup_lt_is_Some_1;
             eexists; exact Ht | apply lookup_delete_eq]).
Qed.

Lemma untrack_unregisters_witness :
  exists w',
    untrack 0 false named_listening_world = Returned tt w' /\
    (exists act, activeConn (srv w') !! 0%nat = Some act /\ 0%nat ∉ act) /\
    (exists tbl, id2Conn (srv w') !! 0%nat = Some tbl /\
                 tbl !! "bob"%string = None).
Proof.
  eexists. split; [reflexivity|].
  destruct (untrack_unregisters 0 false named_listening_world _
              (mkConn 0 "bob" false false [] (plain_socket 9) 0 [])
              eq_refl eq_refl) as (Ha & Hi & _).
  split; [exact Ha|]. apply Hi. discriminate.
Defined.

Lemma untrack_once_other v inLock w b w1 q :
  untrack_once v inLock w = Returned b w1 -> q <> v ->
  conns w1 !! q = conns w !! q.
Proof.
  unfold untrack_once. destruct (conns w !! v) as [sc|]; [|discriminate].
  destruct (sc_untrack sc); [intros [= _ <-]; reflexivity|].
  pose proof (untrack_keeps_conns v inLock w) as Hk.
  destruct (untrack v inLock w) as [|pv w'|u w']; try discriminate.
  destruct Hk as [Hk _]. intros [= _ <-] Hne. simpl.
  rewrite lookup_insert_ne by congruence. rewrite Hk. reflexivity.
Qed.

Lemma closeLocked_other v inLock w b w1 q :
  closeLocked v inLock w = Returned b w1 -> q <> v ->
  conns w1 !! q = conns w !! q.
Proof.
  unfold closeLocked.
  destruct (untrack_once v inLock w) as [|pv w'|ok w'] eqn:E; try discriminate.
  destruct (conns w' !! v) as [sc|]; [|discriminate].
  intros Hr Hne. pose proof (untrack_once_other _ _ _ _ _ q E Hne) as Ho.
  destruct ok.
  - destruct (closeUntracked sc) as [sc' err]. injection Hr as _ <-. simpl.
    rewrite lookup_insert_ne by congruence. exact Ho.
  - injection Hr as _ <-. exact Ho.
Qed.

(** When [bindID] returns, the id is bound to the calling connection in
    [id2Conn] of its binding and the server lock is released, on each of
    its paths: the id was free, was already bound to this connection, or
    was taken over from another one; the calling connection itself is
    left as it was. *)
Lemma bindID_binds p id w w' :
  bindID p id w = Returned tt w' ->
  exists sc tbl,
    conns w !! p = Some sc /\
    id2Conn (srv w') !! sc_idx sc = Some tbl /\ tbl !! id = Some p /\
    mu_locked (srv w') = false /\
    conns w' !! p = Some sc.
Proof.
  unfold bindID. destruct (conns w !! p) as [sc|] eqn:Hc; [|discriminate].
  destruct (mu_locked (srv w)); [discriminate|]. cbv zeta. simpl.
  destruct (id2Conn (srv w) !! sc_idx sc) as [tbl|] eqn:Ht; [|discriminate].
  destruct (tbl !! id) as [v|] eqn:Hv.
  - destruct (decide (v = p)) as [->|Hne].
    + intros [= <-]. exists sc, tbl. simpl. auto.
    + destruct (closeLocked v true (with_srv (with_mu true (srv w)) w))
        as [|pv w1|[|] w1] eqn:Hcl; try discriminate.
      destruct (id2Conn (srv w1) !! sc_idx sc) as [tbl1|] eqn:Ht1;
        [|discriminate].
      intros [= <-]. exists sc, (<[id := p]> tbl1). simpl.
      split; [reflexivity|]. split.
      { apply list_lookup_insert_eq. apply lookup_lt_is_Some_1.
        eexists. exact Ht1. }
      split; [apply lookup_insert_eq|]. split; [reflexivity|].
      rewrite (closeLocked_other _ _ _ _ _ p Hcl) by congruence. exact Hc.
  - intros [= <-]. exists sc, (<[id := p]> tbl). simpl.
    split; [reflexivity|]. split.
    { apply list_lookup_insert_eq. apply lookup_lt_is_Some_1.
      eexists. exact Ht. }
    split; [apply lookup_insert_eq|]. split; [reflexivity | exact Hc].
Qed.

(** X16: a [SetID] that returns has given the connection that id:
    [GetID] answers it afterwards, the id is bound to the connection in
    the registry of its binding and the lock is free; the empty id is
    refused with a panic that changes nothing. *)
Theorem SetID_then_GetID p id w :
  (forall w', SetID p id w = Returned tt w' ->
              id <> EmptyString /\ GetID p w' = Some id /\
              mu_locked (srv w') = false /\
              exists sc tbl, conns w' !! p = Some sc /\
                             id2Conn (srv w') !! sc_idx sc = Some tbl /\
                             tbl !! id = Some p) /\
  SetID p EmptyString w = Panicked PanicEmptyID w.
Proof.
  split; [|reflexivity].
  intros w'. unfold SetID.
  destruct (decide (id = EmptyString)) as [E|E]; [discriminate|].
  destruct (conns w !! p) as [sc|] eqn:Hc; [|discriminate].
  intros Hb. apply bindID_binds in Hb as (sc1 & tbl & H1 & H2 & H3 & H4 & H5).
  simpl in H1. rewrite lookup_insert_eq in H1. injection H1 as <-.
  split; [exact E|]. split; [unfold GetID; rewrite H5; reflexivity|].
  split; [exact H4|]. exists (set_id id sc), tbl. auto.
Qed.

Lemma SetID_then_GetID_witness :
  exists w', SetID 0 "x" two_conn_world = Returned tt w' /\
             GetID 0 w' = Some "x"%string.
Proof.
  eexists. split; [reflexivity|].
  apply (SetID_then_GetID 0 "x" two_conn_world). reflexivity.
Defined.

(** *** ListenAndServe *)

Lemma listen_loop_prefix listen bs1 : forall idx b bs2 e,
  Forall (fun b' => exists ln, listen (Addr b') = inl ln) bs1 ->
  listen (Addr b) = inr e ->
  exists started,
    listen_loop listen (bs1 ++ b :: bs2) idx = (started, Some e) /\
    map fst started = seq idx (length bs1) /\
    Forall (fun il => exists b', (bs1 ++ b :: bs2) !! (fst il - idx)%nat = Some b' /\
                                 listen (Addr b') = inl (snd il)) started.
Proof.
  induction bs1 as [|b1 rest IH]; intros idx b bs2 e HF He; simpl.
  - rewrite He. exists []. repeat split. constructor.
  - apply Forall_cons in HF as [[ln Hln] HF]. rewrite Hln.
    destruct (IH (S idx) b bs2 e HF He) as (started & Hl & Hfst & Hall).
    rewrite Hl. exists ((idx, ln) :: started). split; [reflexivity|].
    split; [simpl; rewrite Hfst; reflexivity|].
    constructor.
    + simpl. exists b1. rewrite Nat.sub_diag. split; [reflexivity | exact Hln].
    + assert (Hge : Forall (fun il => (S idx <= fst il)%nat) started).
      { apply Forall_forall. intros il Hin.
        assert (Hi : fst il ∈ map fst started)
          by (change (fst il ∈ fst <$> started);
              apply list_elem_of_fmap_2; exact Hin).
        rewrite Hfst in Hi. apply list_elem_of_In, in_seq in Hi. lia. }
      rewrite Forall_forall in Hall, Hge. apply Forall_forall.
      intros il Hin. destruct (Hall il Hin) as (b' & Hb' & Hlb').
      specialize (Hge il Hin). exists b'. split; [|exact Hlb'].
      replace (fst il - idx)%nat with (S (fst il - S idx)) by lia.
      exact Hb'.
Qed.

Lemma listen_loop_all listen bs : forall idx,
  Forall (fun b' => exists ln, listen (Addr b') = inl ln) bs ->
  exists started,
    listen_loop listen bs idx = (started, None) /\
    map fst started = seq idx (length bs).
Proof.
  induction bs as [|b1 rest IH]; intros idx HF; simpl.
  - exists []. split; reflexivity.
  - apply Forall_cons in HF as [[ln Hln] HF]. rewrite Hln.
    destruct (IH (S idx) HF) as (started & Hl & Hfst). rewrite Hl.
    exists ((idx, ln) :: started). split; [reflexivity|].
    simpl. rewrite Hfst. reflexivity.
Qed.

(** With the lock free and [doneChan] open, [Shutdown] returns. *)
Lemma Shutdown_returns s :
  mu_locked s = false -> doneChan_closed s = false ->
  exists err s' closed waited, Shutdown s = ShReturned err s' closed waited.
Proof.
  intros Hmu Hdone. unfold Shutdown, closeListenersLocked. rewrite Hmu. simpl.
  destruct (close_all (listeners s) None) as [e|]; simpl.
  - repeat eexists.
  - rewrite Hdone. repeat eexists.
Qed.

(** X24: [ListenAndServe] stops at the first binding whose [Listen]
    fails: a serve goroutine has been started for each earlier binding,
    in order, with that binding's own index and listener; no later
    binding is listened on; [Shutdown] is called, and the final wait is
    not reached.  What the caller sees then depends on that [Shutdown]:
    the [Listen] error is returned exactly when [Shutdown] returns
    (its own return value being dropped), which it does when the lock
    is free and [doneChan] open; when [Shutdown] blocks on the server
    lock so does [ListenAndServe], and when it panics (on [doneChan]
    closed before) the panic goes through.  When every [Listen]
    succeeds there is one goroutine per binding, [Shutdown] is not
    called, and the call returns nil after the wait. *)
Theorem ListenAndServe_stops_at_first_failure listen s :
  (forall bs1 b bs2 e,
      bindings s = bs1 ++ b :: bs2 ->
      Forall (fun b' => exists ln, listen (Addr b') = inl ln) bs1 ->
      listen (Addr b) = inr e ->
      le_shutdown (ListenAndServe listen s) = Some (Shutdown s) /\
      le_waited (ListenAndServe listen s) = false /\
      map fst (le_started (ListenAndServe listen s)) = seq 0 (length bs1) /\
      Forall (fun il => exists b', bindings s !! fst il = Some b' /\
                                   listen (Addr b') = inl (snd il))
             (le_started (ListenAndServe listen s)) /\
      (le_ret (ListenAndServe listen s) = LsReturned (Some e) <->
       exists err s' closed waited,
         Shutdown s = ShReturned err s' closed waited) /\
      (mu_locked s = false -> doneChan_closed s = false ->
       le_ret (ListenAndServe listen s) = LsReturned (Some e)) /\
      (mu_locked s = true -> le_ret (ListenAndServe listen s) = LsBlocked) /\
      (mu_locked s = false -> doneChan_closed s = true ->
       Forall (fun ln => ln_close_result ln = None) (listeners s) ->
       le_ret (ListenAndServe listen s) =
         LsPanicked PanicCloseOfClosedChannel)) /\
  (Forall (fun b' => exists ln, listen (Addr b') = inl ln) (bindings s) ->
   le_ret (ListenAndServe listen s) = LsReturned None /\
   le_shutdown (ListenAndServe listen s) = None /\
   le_waited (ListenAndServe listen s) = true /\
   map fst (le_started (ListenAndServe listen s)) =
     seq 0 (length (bindings s))).
Proof.
  split.
  - intros bs1 b bs2 e Hb HF He. unfold ListenAndServe. rewrite Hb.
    destruct (listen_loop_prefix listen bs1 0 b bs2 e HF He)
      as (started & Hl & Hfst & Hall).
    rewrite Hl. simpl.
    split; [reflexivity|]. split; [reflexivity|]. split; [exact Hfst|].
    split.
    { eapply Forall_impl; [exact Hall|]. intros il (b' & Hb' & Hlb').
      simpl in *. exists b'. rewrite Nat.sub_0_r in Hb'. split; assumption. }
    split.
    { destruct (Shutdown s) as [|v s1 c|err s1 c wt]; split.
      - discriminate.
      - intros (err & s' & c & wt & E). discriminate.
      - discriminate.
      - intros (err & s' & c' & wt & E). discriminate.
      - intros _. repeat eexists.
      - reflexivity. }
    split.
    { intros Hmu Hdone.
      destruct (Shutdown_returns s Hmu Hdone) as (err & s' & c & wt & E).
      rewrite E. reflexivity. }
    split.
    { intros Hmu. unfold Shutdown. rewrite Hmu. reflexivity. }
    intros Hmu Hdone Hok. apply close_all_none in Hok.
    unfold Shutdown, closeListenersLocked. rewrite Hmu. simpl.
    rewrite Hok. simpl. rewrite Hdone. reflexivity.
  - intros HF. unfold ListenAndServe.
    destruct (listen_loop_all listen (bindings s) 0 HF) as (started & Hl & Hfst).
    rewrite Hl. simpl. repeat split. exact Hfst.
Qed.

Lemma ListenAndServe_stops_at_first_failure_witness :
  le_ret (ListenAndServe port_8081_taken
            (NewServer [binding0; second_binding; binding0]))
    = LsReturned (Some (ErrNet 98)) /\
  map fst (le_started (ListenAndServe port_8081_taken
                         (NewServer [binding0; second_binding; binding0])))
    = seq 0 (length [binding0]).
Proof.
  destruct (ListenAndServe_stops_at_first_failure port_8081_taken
              (NewServer [binding0; second_binding; binding0])) as [Hfail _].
  destruct (Hfail [binding0] second_binding [binding0] (ErrNet 98))
    as (_ & _ & H2 & _ & _ & H1 & _).
  - reflexivity.
  - constructor; [|constructor]. exists (good_listener 1). reflexivity.
  - reflexivity.
  - split; [apply H1; reflexivity | exact H2].
Defined.

End SrvMore.

(** ** The serving connection: writer loop and handler failure *)

Module ConnMore.

Import Net Srv Conn.

Import Samples Invariants.

Section WriterRounds.

Context {CS SRef : Type} `{StreamTable CS SRef}.

(** X17: a frame with the Rst flag never creates a stream: the writer
    loop only looks its stream up, and the frame reaches the socket only
    when that stream exists and [AddOutFrame] accepts the frame. *)
Theorem Rst_frame_never_creates_stream (cs : CS) (dfw : OutFrame)
        (werr : option Error) :
  IsRst (o_flags dfw) = true ->
  let r := writeFrames_round cs dfw werr in
  (forall requestID flags,
      CallCreateOrGetStream requestID flags ∉ wr_calls r) /\
  (wr_written r <> None ->
   exists s cs1,
     GetStream cs (o_requestID dfw) (o_flags dfw) = Some s /\
     AddOutFrame cs s (o_requestID dfw) (o_flags dfw) = (cs1, true) /\
     wr_cs r = cs1).
Proof.
  intros HR. unfold writeFrames_round. rewrite HR.
  destruct (GetStream cs (o_requestID dfw) (o_flags dfw)) as [s|] eqn:HG.
  - destruct (AddOutFrame cs s (o_requestID dfw) (o_flags dfw)) as [cs1 ok]
      eqn:HA.
    destruct ok; simpl.
    + destruct werr; simpl; (split; [|intros _; exists s, cs1; auto]);
        intros id fl Hin;
        repeat (apply elem_of_cons in Hin as [Hin|Hin]; [discriminate|]);
        inversion Hin.
    + split; [|intros Hw; contradiction].
      intros id fl Hin.
      repeat (apply elem_of_cons in Hin as [Hin|Hin]; [discriminate|]).
      inversion Hin.
  - simpl. split; [|intros Hw; contradiction].
    intros id fl Hin.
    repeat (apply elem_of_cons in Hin as [Hin|Hin]; [discriminate|]).
    inversion Hin.
Qed.

(** X18: what a round of the writer loop can do.  It writes the
    submitted frame or nothing; when it writes, the caller gets the
    answer of the socket, and the connection is closed exactly when that
    answer is an error; when it does not write, nothing is logged, the
    connection is not closed, and the caller gets nil (a suppressed
    Rst), [ErrRstNonExistingStream] or [ErrWriteAfterCloseSelf]. *)
Theorem writeFrames_round_outcomes (cs : CS) (dfw : OutFrame)
        (werr : option Error) :
  let r := writeFrames_round cs dfw werr in
  (wr_written r = Some dfw /\ wr_result r = werr /\
   wr_closed r = bool_decide (werr <> None)) \/
  (wr_written r = None /\ wr_closed r = false /\ wr_logged r = [] /\
   (wr_result r = None /\ IsRst (o_flags dfw) = true \/
    wr_result r = Some ErrRstNonExistingStream /\ IsRst (o_flags dfw) = true \/
    wr_result r = Some ErrWriteAfterCloseSelf /\
    IsRst (o_flags dfw) = false /\ IsPush (o_flags dfw) = false)).
Proof.
  unfold writeFrames_round.
  destruct (IsRst (o_flags dfw)) eqn:HR.
  - destruct (GetStream cs (o_requestID dfw) (o_flags dfw)) as [s|].
    + destruct (AddOutFrame cs s (o_requestID dfw) (o_flags dfw)) as [cs1 ok].
      destruct ok; simpl.
      * left. destruct werr; simpl; auto.
      * right. auto 10.
    + simpl. right. auto 10.
  - destruct (IsPush (o_flags dfw)) eqn:HP; simpl.
    + left. destruct werr; simpl; auto.
    + destruct (CreateOrGetStream cs (o_requestID dfw) (o_flags dfw))
        as [cs1 s].
      destruct (AddOutFrame cs1 s (o_requestID dfw) (o_flags dfw)) as [cs2 ok].
      destruct ok; simpl.
      * left. destruct werr; simpl; auto.
      * right. auto 10.
Qed.

(** X19: the automatic Rst frame of [handleRequestPanic], answered by a
    round of the writer loop: when the table has no stream for the
    request id, nothing is written, the table is not changed by a
    creation, and the refusal [ErrRstNonExistingStream] is only logged
    as a failed error frame. *)
Theorem automatic_Rst_on_unknown_stream
        (cs : CS) binding frame elapsed err w :
  IsSelfClosed (FStream frame) = false ->
  GetStream cs (RequestID frame) StreamRstFlag = None ->
  let answer := fun out => wr_result (writeFrames_round cs out None) in
  let r := handleRequestPanic binding answer frame elapsed err w in
  LogSendErrorFrame ErrRstNonExistingStream (RequestID frame) ∈ hp_logged r /\
  (forall wr out, (wr, out) ∈ hp_submitted r ->
                  wr_written (writeFrames_round cs out None) = None /\
                  wr_closed (writeFrames_round cs out None) = false).
Proof.
  intros Hopen HG. unfold handleRequestPanic, GetWriter. rewrite Hopen. simpl.
  unfold writeFrames_round. simpl.
  change (IsRst StreamRstFlag) with true. simpl. rewrite HG. simpl. split.
  - apply elem_of_app. right. left.
  - intros wr out Hin. apply list_elem_of_singleton in Hin. injection Hin as _ ->.
    simpl. change (IsRst StreamRstFlag) with true. simpl. rewrite HG.
    split; reflexivity.
Qed.

End WriterRounds.

Lemma Rst_frame_never_creates_stream_witness :
  (forall requestID flags,
      CallCreateOrGetStream requestID flags ∉
        wr_calls (writeFrames_round closed_stream_table
                    (mkOut 9 1 StreamRstFlag []) None)) /\
  (wr_written (writeFrames_round closed_stream_table
                 (mkOut 9 1 StreamRstFlag []) None) <> None ->
   exists s cs1,
     GetStream closed_stream_table 9 StreamRstFlag = Some s /\
     AddOutFrame closed_stream_table s 9 StreamRstFlag = (cs1, true) /\
     wr_cs (writeFrames_round closed_stream_table
              (mkOut 9 1 StreamRstFlag []) None) = cs1).
Proof.
  apply (Rst_frame_never_creates_stream closed_stream_table
           (mkOut 9 1 StreamRstFlag []) None).
  reflexivity.
Defined.

Lemma automatic_Rst_on_unknown_stream_witness :
  LogSendErrorFrame ErrRstNonExistingStream (RequestID open_frame) ∈
    hp_logged (handleRequestPanic metered
                 (fun out => wr_result (writeFrames_round
                                          (∅ : gmap Z Stream) out None))
                 open_frame 5 None (fresh_world [metered])) /\
  (forall wr out,
      (wr, out) ∈
        hp_submitted (handleRequestPanic metered
                        (fun out => wr_result (writeFrames_round
                                                 (∅ : gmap Z Stream) out None))
                        open_frame 5 None (fresh_world [metered])) ->
      wr_written (writeFrames_round (∅ : gmap Z Stream) out None) = None /\
      wr_closed (writeFrames_round (∅ : gmap Z Stream) out None) = false).
Proof.
  apply (automatic_Rst_on_unknown_stream (∅ : gmap Z Stream) metered open_frame
           5 None (fresh_world [metered])); reflexivity.
Defined.

End ConnMore.

(** ** Reader and dispatch loop: backpressure and leaving *)

Module ServingMore.

Import Conn.

Import Samples Invariants ServingFacts.

Lemma readMore_never_blocks_witness :
  is_Some (serve_loop_step (serving_run [Reader; Handoff; Dispatcher]
                              (serving_init three_frames 0))).
Proof.
  apply (readMore_never_blocks three_frames 0 [Reader; Handoff; Dispatcher]
           frame_a).
  left. reflexivity.
Defined.

(** X21: backpressure.  Under every schedule the reader is at most one
    frame ahead of the gate signals: the frames handed to the dispatch
    loop are as many as the calls of [readMore] or one more, and a
    reader that has not returned has taken from the input exactly the
    frames handed over plus the one it is about to hand over, never more
    than one beyond the signals. *)
Theorem reader_at_most_one_frame_ahead input n0 sched :
  let st := serving_run sched (serving_init input n0) in
  (sv_signals st <= length (sv_handed st) <= S (sv_signals st))%nat /\
  (exited (sv_rd st) = false ->
   length input =
     (length (sv_handed st) + length (pending (sv_rd st)) +
      length (sv_input st))%nat /\
   (length (sv_handed st) + length (pending (sv_rd st))
    <= S (sv_signals st))%nat).
Proof.
  intros st.
  pose proof (serving_run_inv input n0 sched _ (serving_init_inv input n0))
    as Hinv.
  fold st in Hinv.
  destruct Hinv as [_ _ [tl [Hord Htl]] _ _ Hbusy Hidle _ _ _ _ _].
  assert (Hcount : (sv_signals st <= length (sv_handed st) <= S (sv_signals st))%nat).
  { destruct (busy (sv_dp st)) eqn:Eb.
    - destruct (Hbusy eq_refl) as (_ & _ & Hs). lia.
    - specialize (Hidle eq_refl). lia. }
  split; [exact Hcount|]. intros Hex. specialize (Htl Hex). subst tl.
  split.
  - rewrite Hord at 1. rewrite !length_app, length_map. lia.
  - destruct (busy (sv_dp st)) eqn:Eb.
    + destruct (Hbusy eq_refl) as (_ & Hheld & Hs).
      destruct (sv_rd st); try discriminate; simpl; lia.
    + specialize (Hidle eq_refl). destruct (sv_rd st); simpl; lia.
Qed.

Lemma reader_at_most_one_frame_ahead_witness :
  length three_frames =
    (length (sv_handed (serving_run [Reader; Handoff; Dispatcher; Dispatcher;
                                     Reader; Reader]
                          (serving_init three_frames 0))) +
     length (pending (sv_rd (serving_run [Reader; Handoff; Dispatcher;
                                          Dispatcher; Reader; Reader]
                               (serving_init three_frames 0)))) +
     length (sv_input (serving_run [Reader; Handoff; Dispatcher; Dispatcher;
                                    Reader; Reader]
                         (serving_init three_frames 0))))%nat /\
  (length (sv_handed (serving_run [Reader; Handoff; Dispatcher; Dispatcher;
                                   Reader; Reader]
                        (serving_init three_frames 0))) +
   length (pending (sv_rd (serving_run [Reader; Handoff; Dispatcher;
                                        Dispatcher; Reader; Reader]
                             (serving_init three_frames 0))))
   <= S (sv_signals (serving_run [Reader; Handoff; Dispatcher; Dispatcher;
                                  Reader; Reader]
                       (serving_init three_frames 0))))%nat.
Proof.
  apply (reader_at_most_one_frame_ahead three_frames 0
           [Reader; Handoff; Dispatcher; Dispatcher; Reader; Reader]).
  reflexivity.
Defined.

(** X22: the goroutines spawned for NonBlock frames are spawned in
    arrival order, one for each NonBlock frame the dispatch loop
    received, the last of them possibly still to be spawned; no frame
    gets two tasks and none is skipped. *)
Theorem tasks_follow_arrival_order input n0 sched :
  let st := serving_run sched (serving_init input n0) in
  map fst (sv_tasks st) ++ to_spawn (sv_dp st) =
    List.filter (fun f => IsNonBlock (Flags f)) (sv_handed st) /\
  (length (to_spawn (sv_dp st)) <= 1)%nat.
Proof.
  intros st.
  pose proof (serving_run_inv input n0 sched _ (serving_init_inv input n0))
    as Hinv.
  fold st in Hinv. destruct Hinv as [_ _ _ _ Htasks _ _ _ _ _ _ _].
  split; [exact Htasks|].
  destruct (sv_dp st); simpl; lia.
Qed.

Ltac split_step Hstep :=
  repeat match type of Hstep with
         | context [match ?x with _ => _ end] =>
             destruct x eqn:?; try discriminate Hstep
         end.

Lemma left_for_a_reason_step input a st st' :
  left_for_a_reason input st -> serving_step a st = Some st' ->
  left_for_a_reason input st'.
Proof.
  intros (Hrd & Hdp) Hstep. unfold left_for_a_reason.
  destruct st as [inp rd gate dp done wr nxt tasks handed inl_calls sig].
  simpl in *.
  destruct a; simpl in Hstep;
    unfold readFrames_step, readFrames_quit, handoff, serve_loop_step,
      serve_loop_quit, readMore, task_step, cancel_ctx in Hstep;
    simpl in Hstep; split_step Hstep; injection Hstep as <-; simpl;
    subst; simpl in *;
    repeat split; eauto; try discriminate;
    try (rewrite map_app, <- app_assoc; reflexivity).
  destruct rd as [| | |[|]]; auto.
  destruct Hrd as [_ Hrd]. split; [reflexivity | exact Hrd].
Qed.

Lemma left_for_a_reason_run input sched : forall st,
  left_for_a_reason input st ->
  left_for_a_reason input (serving_run sched st).
Proof.
  induction sched as [|a rest IH]; intros st Hst; simpl; [exact Hst|].
  apply IH. destruct (serving_step a st) as [st'|] eqn:E; [|exact Hst].
  eapply left_for_a_reason_step; eassumption.
Qed.

(** X23: nobody leaves without a reason.  Under every schedule, a
    reader that has returned an error (and so calls [sc.Close()]) was
    given that error by [ReadFrame] as the result that follows the
    frames it had read and handed to the dispatch loop, in order, and it
    has read nothing after it; a reader that returned nil did so only
    after the connection context was cancelled, and of what it had read
    it dropped at most the one frame it was waiting to hand over; a
    dispatch loop that returned did so only after the context was
    cancelled. *)
Theorem goroutines_leave_for_a_reason input n0 sched :
  let st := serving_run sched (serving_init input n0) in
  (sv_rd st = RdExit true ->
   exists e, input = map inl (sv_handed st) ++ inr e :: sv_input st) /\
  (sv_rd st = RdExit false ->
   sv_ctx_done st = true /\
   (input = map inl (sv_handed st) ++ sv_input st \/
    exists f, input = map inl (sv_handed st) ++ inl f :: sv_input st)) /\
  (sv_dp st = DpExit -> sv_ctx_done st = true).
Proof.
  intros st.
  assert (Hinv : left_for_a_reason input st).
  { apply left_for_a_reason_run. split; [reflexivity | discriminate]. }
  destruct Hinv as (Hrd & Hdp).
  split; [intros E; rewrite E in Hrd; exact Hrd|].
  split; [intros E; rewrite E in Hrd; exact Hrd | exact Hdp].
Qed.

Lemma goroutines_leave_for_a_reason_witness :
  exists e,
    broken_input =
      map inl (sv_handed
                 (serving_run
                    [Reader; Handoff; Dispatcher; Dispatcher; Reader; Reader]
                    (serving_init broken_input 0))) ++
      inr e ::
      sv_input (serving_run
                  [Reader; Handoff; Dispatcher; Dispatcher; Reader; Reader]
                  (serving_init broken_input 0)).
Proof.
  apply (goroutines_leave_for_a_reason broken_input 0
           [Reader; Handoff; Dispatcher; Dispatcher; Reader; Reader]).
  reflexivity.
Defined.

End ServingMore.
